(** * iphone-ssh-mcp: the command-safety gateway (src/security.ts)

    A shallow embedding of the policy functions of [security.ts] and of the
    two execution entry points of [index.ts] that sequence them, together
    with the parts of the JavaScript runtime they call
    ([path.posix.normalize], [RegExp.prototype.test],
    [String.prototype.replace]). *)

From Stdlib Require Import Ascii String.
From Stdlib Require Import List ZArith NArith Bool Lia.
Import ListNotations.

Local Open Scope Z_scope.

(** ** JavaScript strings

    A JavaScript string is a finite sequence of UTF-16 code units. *)

Definition code_unit := N.
Definition jsstring := list code_unit.

(** String literals of the source, as sequences of code units; every
    literal of this program is ASCII text. *)
Definition js (s : string) : jsstring :=
  map N_of_ascii (list_ascii_of_string s).

Definition jslength (s : jsstring) : Z := Z.of_nat (length s).

Fixpoint jsstring_eqb (a b : jsstring) : bool :=
  match a, b with
  | [], [] => true
  | x :: a', y :: b' => N.eqb x y && jsstring_eqb a' b'
  | _, _ => false
  end.

(** [s.startsWith(p)] *)
Fixpoint startsWith (s p : jsstring) {struct p} : bool :=
  match p with
  | [] => true
  | y :: p' =>
    match s with
    | x :: s' => N.eqb x y && startsWith s' p'
    | [] => false
    end
  end.

(** [s.charCodeAt(i)]; [None] stands for NaN (index out of range). *)
Definition charCodeAt (s : jsstring) (i : Z) : option code_unit :=
  if (i <? 0) || (jslength s <=? i) then None else nth_error s (Z.to_nat i).

Definition code_is (o : option code_unit) (c : code_unit) : bool :=
  match o with
  | Some x => N.eqb x c
  | None => false
  end.

(** [s.slice(from, to)], negative indices counting from the end. *)
Definition slice (s : jsstring) (from to : Z) : jsstring :=
  let len := jslength s in
  let clamp := fun k => if k <? 0 then Z.max (len + k) 0 else Z.min k len in
  let a := clamp from in
  let b := clamp to in
  firstn (Z.to_nat (Z.max (b - a) 0)) (skipn (Z.to_nat a) s).

(** [s.lastIndexOf(c)] for a one-character search string, [-1] when absent. *)
Fixpoint lastIndexOf_from (s : jsstring) (c : code_unit) (i : Z) (found : Z) : Z :=
  match s with
  | [] => found
  | x :: s' => lastIndexOf_from s' c (i + 1) (if N.eqb x c then i else found)
  end.

Definition lastIndexOf (s : jsstring) (c : code_unit) : Z :=
  lastIndexOf_from s c 0 (-1).

(** [parts.join(sep)] *)
Fixpoint join (sep : jsstring) (parts : list jsstring) : jsstring :=
  match parts with
  | [] => []
  | [p] => p
  | p :: rest => p ++ sep ++ join sep rest
  end.

(** The values of a loop variable that runs from 0 to [n] inclusive. *)
Definition indices_upto (n : nat) : list Z := map Z.of_nat (seq 0 (S n)).

(** ** Node's [path.posix.normalize] (lib/path.js) *)

Module NodePath.

Definition CHAR_FORWARD_SLASH : code_unit := 47%N.
Definition CHAR_DOT : code_unit := 46%N.

Definition isPosixPathSeparator (code : code_unit) : bool :=
  N.eqb code CHAR_FORWARD_SLASH.

(** The local variables of [normalizeString]. *)
Record vars := mkVars {
  res : jsstring;
  lastSegmentLength : Z;
  lastSlash : Z;
  dots : Z;
  code : code_unit
}.

Inductive flow :=
| Break
| Next (v : vars).

(** The tail of the [dots === 2] branch that is reached when nothing was
    popped: [if (allowAboveRoot) { res += ...; lastSegmentLength = 2 }],
    followed by [lastSlash = i; dots = 0]. *)
Definition above_root (allowAboveRoot : bool) (i : Z) (v : vars) : vars :=
  if allowAboveRoot then
    mkVars (if 0 <? jslength (res v)
            then res v ++ [CHAR_FORWARD_SLASH] ++ [CHAR_DOT; CHAR_DOT]
            else [CHAR_DOT; CHAR_DOT])
           2 i 0 (code v)
  else mkVars (res v) (lastSegmentLength v) i 0 (code v).

(** The part of the loop body after [code] has been set to [c]; the two
    [continue] statements and the end of the body all lead to the next
    iteration. *)
Definition normalizeString_step
    (path : jsstring) (allowAboveRoot : bool) (i : Z) (v : vars)
    (c : code_unit) : vars :=
  let v := mkVars (res v) (lastSegmentLength v) (lastSlash v) (dots v) c in
  if isPosixPathSeparator c then
    if (lastSlash v =? i - 1) || (dots v =? 1) then
      mkVars (res v) (lastSegmentLength v) i 0 c
    else if dots v =? 2 then
      if (jslength (res v) <? 2)
         || negb (lastSegmentLength v =? 2)
         || negb (code_is (charCodeAt (res v) (jslength (res v) - 1)) CHAR_DOT)
         || negb (code_is (charCodeAt (res v) (jslength (res v) - 2)) CHAR_DOT)
      then
        if 2 <? jslength (res v) then
          let lastSlashIndex := lastIndexOf (res v) CHAR_FORWARD_SLASH in
          if lastSlashIndex =? -1 then
            mkVars [] 0 i 0 c
          else
            let res' := slice (res v) 0 lastSlashIndex in
            mkVars res'
                   (jslength res' - 1 - lastIndexOf res' CHAR_FORWARD_SLASH)
                   i 0 c
        else if negb (jslength (res v) =? 0) then
          mkVars [] 0 i 0 c
        else above_root allowAboveRoot i v
      else above_root allowAboveRoot i v
    else
      let segment := slice path (lastSlash v + 1) i in
      mkVars (if 0 <? jslength (res v)
              then res v ++ [CHAR_FORWARD_SLASH] ++ segment
              else segment)
             (i - lastSlash v - 1) i 0 c
  else if N.eqb c CHAR_DOT && negb (dots v =? -1) then
    mkVars (res v) (lastSegmentLength v) (lastSlash v) (dots v + 1) c
  else
    mkVars (res v) (lastSegmentLength v) (lastSlash v) (-1) c.

(** One iteration of the [for] loop of [normalizeString] at index [i]:
    [code] is the code unit at [i], or, past the end, a final separator
    unless the last code unit was one already, in which case the loop is
    left. *)
Definition normalizeString_body
    (path : jsstring) (allowAboveRoot : bool) (i : Z) (v : vars) : flow :=
  if i <? jslength path then
    Next (normalizeString_step path allowAboveRoot i v
            (nth (Z.to_nat i) path 0%N))
  else if isPosixPathSeparator (code v) then Break
  else Next (normalizeString_step path allowAboveRoot i v CHAR_FORWARD_SLASH).

(** [for (let i = 0; i <= path.length; ++i) body], run over the indices
    [0 .. path.length] in order; [break] leaves the loop early. *)
Fixpoint for_indices
    (path : jsstring) (allowAboveRoot : bool) (indices : list Z) (v : vars)
    : vars :=
  match indices with
  | [] => v
  | i :: indices' =>
    match normalizeString_body path allowAboveRoot i v with
    | Break => v
    | Next v' => for_indices path allowAboveRoot indices' v'
    end
  end.

Definition normalizeString (path : jsstring) (allowAboveRoot : bool)
    : jsstring :=
  res (for_indices path allowAboveRoot (indices_upto (length path))
         (mkVars [] 0 (-1) 0 0%N)).

(** [path.posix.normalize(path)] *)
Definition normalize (path : jsstring) : jsstring :=
  if jslength path =? 0 then js "."
  else
    let isAbsolute := code_is (charCodeAt path 0) CHAR_FORWARD_SLASH in
    let trailingSeparator :=
      code_is (charCodeAt path (jslength path - 1)) CHAR_FORWARD_SLASH in
    let path' := normalizeString path (negb isAbsolute) in
    if jslength path' =? 0 then
      if isAbsolute then js "/"
      else if trailingSeparator then js "./" else js "."
    else
      let path'' := if trailingSeparator then path' ++ js "/" else path' in
      if isAbsolute then js "/" ++ path'' else path''.

End NodePath.

(** ** Errors

    The source signals failure with [throw new Error(message)]. *)

Inductive error :=
| Error (message : jsstring).

Inductive result (A : Type) :=
| Ok (a : A)
| Throw (e : error).
Arguments Ok {A} a.
Arguments Throw {A} e.

(** [xs.map(f)] for an [f] that may throw: the first exception ends the
    traversal. *)
Fixpoint map_result {A B : Type} (f : A -> result B) (xs : list A)
    : result (list B) :=
  match xs with
  | [] => Ok []
  | x :: xs' =>
    match f x with
    | Throw e => Throw e
    | Ok y =>
      match map_result f xs' with
      | Throw e => Throw e
      | Ok ys => Ok (y :: ys)
      end
    end
  end.

(** ** security.ts: paths *)

(** The error of [normalizeRemotePath], the spec's [InvalidPath]. *)
Definition InvalidPath (value : jsstring) : error :=
  Error (js "Expected absolute remote path, got: " ++ value).

(** The error of [ensureAllowedWritePaths], the spec's [WritePathBlocked]. *)
Definition WritePathBlocked (allowedRoots denied : list jsstring) : error :=
  Error (js "Write path blocked by allowlist. Allowed roots: "
         ++ join (js ", ") allowedRoots
         ++ js ". Blocked: "
         ++ join (js ", ") denied).

Definition normalizeRemotePath (value : jsstring) : result jsstring :=
  if negb (startsWith value (js "/")) then Throw (InvalidPath value)
  else Ok (NodePath.normalize value).

Definition pathWithinRoots (target : jsstring) (roots : list jsstring) : bool :=
  existsb (fun root =>
    let normalizedRoot := NodePath.normalize root in
    jsstring_eqb target normalizedRoot
    || startsWith target (normalizedRoot ++ js "/")) roots.

Definition ensureAllowedWritePaths (paths allowedRoots : list jsstring)
    : result (list jsstring) :=
  match map_result normalizeRemotePath paths with
  | Throw e => Throw e
  | Ok normalized =>
    let denied :=
      filter (fun entry => negb (pathWithinRoots entry allowedRoots))
             normalized in
    if (0 <? Z.of_nat (length denied)) then
      Throw (WritePathBlocked allowedRoots denied)
    else Ok normalized
  end.

(** ** ECMAScript regular expressions

    The fragment of the pattern language that the source uses, matched the
    way the language specification describes it: a matcher takes the
    current end index [x] and a continuation, and backtracks through the
    alternatives in priority order. *)

Module RegExp.

Inductive class_escape :=
| esc_s   (* \s *)
| esc_d.  (* \d *)

Inductive class_atom :=
| ClassChar (c : code_unit)
| ClassEsc (e : class_escape).

Inductive regex :=
| Empty
| Char (c : code_unit)                    (* a pattern character *)
| CharacterClassEscape (e : class_escape) (* \s, \d *)
| CharacterClass (atoms : list class_atom) (* [...] *)
| WordBoundary                            (* \b *)
| EndOfInput                              (* $ without the m flag *)
| Seq (r1 r2 : regex)
| Alt (r1 r2 : regex)                     (* r1|r2 *)
| Group (r : regex)                       (* (r) *)
| Opt (r : regex)                         (* r? *)
| Star (r : regex)                        (* r* *)
| Plus (r : regex).                       (* r+ *)

Record RegExp := mkRegExp {
  pattern : regex;
  ignoreCase : bool   (* the i flag *)
}.

Definition between (lo hi : N) (c : code_unit) : bool :=
  N.leb lo c && N.leb c hi.

(** WhiteSpace and LineTerminator code points. *)
Definition isWhiteSpace (c : code_unit) : bool :=
  existsb (N.eqb c)
    [9; 10; 11; 12; 13; 32; 160; 5760; 8232; 8233; 8239; 8287; 12288; 65279]%N
  || between 8192%N 8202%N c.

Definition isDigit (c : code_unit) : bool := between 48%N 57%N c.

(** The word characters of [\b]: [A-Za-z0-9_]. *)
Definition isWordChar (c : code_unit) : bool :=
  between 97%N 122%N c || between 65%N 90%N c || between 48%N 57%N c || N.eqb c 95%N.

Definition escape_has (e : class_escape) (c : code_unit) : bool :=
  match e with
  | esc_s => isWhiteSpace c
  | esc_d => isDigit c
  end.

(** Canonicalize of the specification without the u flag.  A code unit
    above 127 never canonicalizes to one below 128, and every pattern
    character of this program is below 128, so leaving the code units
    above 127 alone gives the same comparisons. *)
Definition canonicalize (ic : bool) (ch : code_unit) : code_unit :=
  if ic && between 97%N 122%N ch then (ch - 32)%N else ch.

Definition atom_has (ic : bool) (a : class_atom) (ch : code_unit) : bool :=
  match a with
  | ClassChar c => N.eqb (canonicalize ic c) (canonicalize ic ch)
  | ClassEsc e => escape_has e ch
  end.

Definition isWordCharAt (input : jsstring) (e : Z) : bool :=
  match charCodeAt input e with
  | Some c => isWordChar c
  | None => false
  end.

(** The continuation of an iteration of a quantifier whose minimum has
    been reached: an iteration that consumed nothing is rejected. *)
Definition empty_check (x : Z) (k : Z -> option Z) (y : Z) : option Z :=
  if y =? x then None else k y.

Definition orElse (a b : option Z) : option Z :=
  match a with
  | Some e => Some e
  | None => b
  end.

(** RepeatMatcher for a quantifier without upper bound, once its minimum
    has been reached: one more iteration of [body] that consumes
    something, or else the continuation.  The input bounds the number of
    such iterations, so [fuel] one above its length is never used up
    ([matcher_star_unfold]). *)
Fixpoint repeat_matcher (body : Z -> (Z -> option Z) -> option Z)
    (k : Z -> option Z) (fuel : nat) (x : Z) {struct fuel} : option Z :=
  match fuel with
  | O => k x
  | S fuel' =>
    orElse (body x (empty_check x (repeat_matcher body k fuel'))) (k x)
  end.

Fixpoint matcher (ic : bool) (r : regex) (input : jsstring)
    (x : Z) (k : Z -> option Z) {struct r} : option Z :=
  match r with
  | Empty => k x
  | Char c =>
    match charCodeAt input x with
    | Some ch =>
      if N.eqb (canonicalize ic c) (canonicalize ic ch) then k (x + 1) else None
    | None => None
    end
  | CharacterClassEscape e =>
    match charCodeAt input x with
    | Some ch => if escape_has e ch then k (x + 1) else None
    | None => None
    end
  | CharacterClass atoms =>
    match charCodeAt input x with
    | Some ch =>
      if existsb (fun a => atom_has ic a ch) atoms then k (x + 1) else None
    | None => None
    end
  | WordBoundary =>
    if xorb (isWordCharAt input (x - 1)) (isWordCharAt input x)
    then k x else None
  | EndOfInput => if x =? jslength input then k x else None
  | Seq r1 r2 => matcher ic r1 input x (fun y => matcher ic r2 input y k)
  | Alt r1 r2 => orElse (matcher ic r1 input x k) (matcher ic r2 input x k)
  | Group r1 => matcher ic r1 input x k
  | Opt r1 => orElse (matcher ic r1 input x (empty_check x k)) (k x)
  | Star r1 => repeat_matcher (matcher ic r1 input) k (S (length input)) x
  | Plus r1 =>
    matcher ic r1 input x
      (repeat_matcher (matcher ic r1 input) k (S (length input)))
  end.

(** The match that starts at [index], as the end index of the matched
    substring. *)
Definition match_at (re : RegExp) (input : jsstring) (index : Z) : option Z :=
  matcher (ignoreCase re) (pattern re) input index (fun y => Some y).

(** [re.test(input)] for a regular expression without the g and y flags:
    the start index runs from 0 to the length of the input. *)
Definition test (re : RegExp) (input : jsstring) : bool :=
  existsb (fun lastIndex =>
             match match_at re input lastIndex with
             | Some _ => true
             | None => false
             end)
          (indices_upto (length input)).

(** [input.replace(re, replacement)] for a regular expression with the g
    flag; [replacement] receives the matched substring.  After an empty
    match the scan advances by one code unit. *)
Fixpoint replace_from (re : RegExp) (replacement : jsstring -> jsstring)
    (input : jsstring) (fuel : nat) (position : Z) : jsstring :=
  match fuel with
  | O => []
  | S fuel' =>
    if jslength input <? position then []
    else
      match match_at re input position with
      | Some e =>
        if e =? position then
          replacement []
          ++ slice input position (position + 1)
          ++ replace_from re replacement input fuel' (position + 1)
        else
          replacement (slice input position e)
          ++ replace_from re replacement input fuel' e
      | None =>
        slice input position (position + 1)
        ++ replace_from re replacement input fuel' (position + 1)
      end
  end.

Definition replace_global (re : RegExp) (replacement : jsstring -> jsstring)
    (input : jsstring) : jsstring :=
  replace_from re replacement input (length input + 2) 0.

(** Pattern text: a run of pattern characters. *)
Fixpoint chars (cs : jsstring) : regex :=
  match cs with
  | [] => Empty
  | [c] => Char c
  | c :: cs' => Seq (Char c) (chars cs')
  end.

Definition lit (s : string) : regex := chars (js s).

Fixpoint seqs (rs : list regex) : regex :=
  match rs with
  | [] => Empty
  | [r] => r
  | r :: rs' => Seq r (seqs rs')
  end.

Fixpoint alts (rs : list regex) : regex :=
  match rs with
  | [] => Empty
  | [r] => r
  | r :: rs' => Alt r (alts rs')
  end.

End RegExp.

(** ** security.ts: the rule tables *)

Import RegExp.

Record DenyPattern := mkDenyPattern {
  regex_of : RegExp;
  reason : jsstring
}.

Definition s_plus : regex := Plus (CharacterClassEscape esc_s).

Definition DENY_PATTERNS : list DenyPattern :=
  [ (* /\brm\s+-rf\s+\/(\s|$)/i *)
    mkDenyPattern
      (mkRegExp
         (seqs [WordBoundary; lit "rm"; s_plus; lit "-rf"; s_plus; lit "/";
                Group (Alt (CharacterClassEscape esc_s) EndOfInput)])
         true)
      (js "Refuses full filesystem deletion (rm -rf /).");
    (* /\bmkfs\b/i *)
    mkDenyPattern
      (mkRegExp (seqs [WordBoundary; lit "mkfs"; WordBoundary]) true)
      (js "Refuses filesystem formatting command.");
    (* /\bdd\s+if=/i *)
    mkDenyPattern
      (mkRegExp (seqs [WordBoundary; lit "dd"; s_plus; lit "if="]) true)
      (js "Refuses raw disk overwrite command.");
    (* /\bshutdown\b/i *)
    mkDenyPattern
      (mkRegExp (seqs [WordBoundary; lit "shutdown"; WordBoundary]) true)
      (js "Refuses remote shutdown command.");
    (* /\breboot\b/i *)
    mkDenyPattern
      (mkRegExp (seqs [WordBoundary; lit "reboot"; WordBoundary]) true)
      (js "Refuses remote reboot command.");
    (* /\bhalt\b/i *)
    mkDenyPattern
      (mkRegExp (seqs [WordBoundary; lit "halt"; WordBoundary]) true)
      (js "Refuses remote halt command.");
    (* /\blaunchctl\s+(bootout|remove)\b/i *)
    mkDenyPattern
      (mkRegExp
         (seqs [WordBoundary; lit "launchctl"; s_plus;
                Group (Alt (lit "bootout") (lit "remove")); WordBoundary])
         true)
      (js "Refuses launchctl destructive operation.");
    (* /\bapt(-get)?\s+(remove|purge)\b/i *)
    mkDenyPattern
      (mkRegExp
         (seqs [WordBoundary; lit "apt"; Opt (Group (lit "-get")); s_plus;
                Group (Alt (lit "remove") (lit "purge")); WordBoundary])
         true)
      (js "Refuses package removal command.");
    (* /\bchflags\s+-R\s+uchg\b/i *)
    mkDenyPattern
      (mkRegExp
         (seqs [WordBoundary; lit "chflags"; s_plus; lit "-R"; s_plus;
                lit "uchg"; WordBoundary])
         true)
      (js "Refuses recursive immutable flag write.") ].

Definition WRITE_COMMAND_PATTERNS : list RegExp :=
  [ (* /\b(touch|mkdir|rmdir|mv|cp|rm|ln|install|tee|truncate|chmod|chown|chgrp)\b/i *)
    mkRegExp
      (seqs [WordBoundary;
             Group (alts [lit "touch"; lit "mkdir"; lit "rmdir"; lit "mv";
                          lit "cp"; lit "rm"; lit "ln"; lit "install";
                          lit "tee"; lit "truncate"; lit "chmod";
                          lit "chown"; lit "chgrp"]);
             WordBoundary])
      true;
    (* /\bsed\s+-i\b/i *)
    mkRegExp (seqs [WordBoundary; lit "sed"; s_plus; lit "-i"; WordBoundary])
             true;
    (* /\bperl\s+-i\b/i *)
    mkRegExp (seqs [WordBoundary; lit "perl"; s_plus; lit "-i"; WordBoundary])
             true;
    (* /\bpython\d*(\.\d+)?\s+-m\s+pip\s+install\b/i *)
    mkRegExp
      (seqs [WordBoundary; lit "python";
             Star (CharacterClassEscape esc_d);
             Opt (Group (Seq (lit ".") (Plus (CharacterClassEscape esc_d))));
             s_plus; lit "-m"; s_plus; lit "pip"; s_plus; lit "install";
             WordBoundary])
      true;
    (* /\bapt(-get)?\s+install\b/i *)
    mkRegExp
      (seqs [WordBoundary; lit "apt"; Opt (Group (lit "-get")); s_plus;
             lit "install"; WordBoundary])
      true ].

(** ** security.ts: encoders and classifiers *)

(** [/'/g] *)
Definition quote_re : RegExp := mkRegExp (lit "'") false.

(** [`'${value.replace(/'/g, `'\\''`)}'`]: the replacement text is the four
    code units quote, backslash, quote, quote. *)
Definition shellQuote (value : jsstring) : jsstring :=
  js "'" ++ replace_global quote_re (fun _ => js "'\''") value ++ js "'".

(** The [for ... of] loop of [matchDeniedPattern]; [None] is [null]. *)
Fixpoint matchDeniedPattern_in (command : jsstring) (patterns : list DenyPattern)
    : option DenyPattern :=
  match patterns with
  | [] => None
  | pattern :: patterns' =>
    if test (regex_of pattern) command then Some pattern
    else matchDeniedPattern_in command patterns'
  end.

(** [matchDeniedPattern(command)] with the default [patterns = DENY_PATTERNS]. *)
Definition matchDeniedPattern (command : jsstring) : option DenyPattern :=
  matchDeniedPattern_in command DENY_PATTERNS.

Definition isLikelyWriteCommand (command : jsstring) : bool :=
  existsb (fun pattern => test pattern command) WRITE_COMMAND_PATTERNS.

(** The g-flagged pattern of [escapeScpRemotePath]: one capturing group
    around one character class, whose members are, in order: backslash,
    the class escape \s, double quote, single quote, backquote, dollar,
    exclamation mark, hash, ampersand, asterisk, the two parentheses, the
    two square brackets, the two braces, semicolon, the two angle
    brackets, question mark, vertical bar, tilde and colon. *)
Definition scp_special_re : RegExp :=
  mkRegExp
    (Group (CharacterClass
       (ClassChar 92%N :: ClassEsc esc_s :: ClassChar 34%N
        :: map ClassChar (js "'`$!#&*" ++ js "()[]{};<>?|~:"))))
    false.

(** [pathname.replace(re, replacement)] where the replacement text is a
    backslash followed by [$1]; group 1 spans the whole match, so [$1] is
    the matched substring. *)
Definition escapeScpRemotePath (pathname : jsstring) : jsstring :=
  replace_global scp_special_re (fun matched => js "\" ++ matched) pathname.

(** ** index.ts: the two execution entry points

    The only effect of these functions is the call to [ssh.execRemote];
    the state is the list of calls the transport has received so far. *)

Section Dispatch.

Variable ExecResult : Type.

Definition call : Type := jsstring * option Z.
Definition transport : Type := list call.

(** What the remote host answers to a call, given the earlier calls. *)
Variable remote : transport -> jsstring -> option Z -> ExecResult.

(** [config.allowedWriteRoots] *)
Variable allowedWriteRoots : list jsstring.

Definition M (A : Type) : Type := transport -> result A * transport.

Definition ret {A : Type} (a : A) : M A := fun t => (Ok a, t).

Definition raise {A : Type} (e : error) : M A := fun t => (Throw e, t).

Definition bind {A B : Type} (m : M A) (f : A -> M B) : M B :=
  fun t =>
    match m t with
    | (Ok a, t') => f a t'
    | (Throw e, t') => (Throw e, t')
    end.

Definition lift {A : Type} (r : result A) : M A := fun t => (r, t).

(** [ssh.execRemote(command, timeoutSec)] *)
Definition execRemote (command : jsstring) (timeoutSec : option Z)
    : M ExecResult :=
  fun t => (Ok (remote t command timeoutSec), t ++ [(command, timeoutSec)]).

Definition execReadCommand (command : jsstring) (timeoutSec : option Z)
    : M ExecResult :=
  match matchDeniedPattern command with
  | Some denied => raise (Error (js "Blocked by denylist: " ++ reason denied))
  | None =>
    if isLikelyWriteCommand command then
      raise (Error (js "Write-like command blocked in iphone_run_command/readonly context. Use iphone_run_write_command with write_paths."))
    else execRemote command timeoutSec
  end.

Definition execWriteCommand (command : jsstring) (writePaths : list jsstring)
    (timeoutSec : option Z) : M ExecResult :=
  match matchDeniedPattern command with
  | Some denied => raise (Error (js "Blocked by denylist: " ++ reason denied))
  | None =>
    bind (lift (ensureAllowedWritePaths writePaths allowedWriteRoots))
         (fun _ => execRemote command timeoutSec)
  end.

End Dispatch.

(** ** The reading of one word by a POSIX shell

    Shell Command Language, section 2.2 (Quoting), for the characters that
    can occur in the output of [shellQuote]: between single quotes every
    character stands for itself; outside them a backslash keeps the next
    character and is removed (a backslash-newline pair is removed whole),
    and any other unquoted character that the standard lists as one
    that must or may have to be quoted is taken to make the input
    something other than one plain word. *)

Module PosixShell.

Definition SQUOTE : code_unit := 39%N.
Definition BACKSLASH : code_unit := 92%N.
Definition NEWLINE : code_unit := 10%N.

(** The characters listed in section 2.2 apart from the single quote and
    the backslash: operators, blanks, and the characters of expansions,
    comments, patterns and double quoting. *)
Definition special_unquoted (c : code_unit) : bool :=
  existsb (N.eqb c) (js "|&;<>()$`" ++ [34%N; 32%N; 9%N; 10%N]
                     ++ js "*?[#~=%{}!").

(** [read_word inSingle input]: the field the shell obtains from [input]
    when all of it is one word; [None] when it is not. *)
Fixpoint read_word (inSingle : bool) (input : jsstring) : option jsstring :=
  match input with
  | [] => if inSingle then None else Some []
  | c :: rest =>
    if inSingle then
      if N.eqb c SQUOTE then read_word false rest
      else option_map (cons c) (read_word true rest)
    else if N.eqb c SQUOTE then read_word true rest
    else if N.eqb c BACKSLASH then
      match rest with
      | [] => None
      | d :: rest' =>
        if N.eqb d NEWLINE then read_word false rest'
        else option_map (cons d) (read_word false rest')
      end
    else if special_unquoted c then None
    else option_map (cons c) (read_word false rest)
  end.

Definition parse_single_word (input : jsstring) : option jsstring :=
  read_word false input.

End PosixShell.

(** ** The specification's wording, as definitions *)

Module Spec.

Definition SLASH : code_unit := 47%N.

(** The components of a path: the substrings between separators. *)
Fixpoint components (p : jsstring) : list jsstring :=
  match p with
  | [] => [[]]
  | c :: p' =>
    if N.eqb c SLASH then [] :: components p'
    else
      match components p' with
      | seg :: segs => (c :: seg) :: segs
      | [] => [[c]]
      end
  end.

Definition is_dot (seg : jsstring) : bool := jsstring_eqb seg (js ".").
Definition is_dotdot (seg : jsstring) : bool := jsstring_eqb seg (js "..").

(** Lexical resolution of one component against the components kept so
    far (most recent first): an empty component and [.] are dropped, [..]
    removes the component before it; at the top of a relative path [..]
    is kept, at the root it is dropped. *)
Definition resolve_step (relative : bool) (kept : list jsstring)
    (seg : jsstring) : list jsstring :=
  match seg with
  | [] => kept
  | _ =>
    if is_dot seg then kept
    else if is_dotdot seg then
      match kept with
      | top :: below =>
        if is_dotdot top then (if relative then seg :: kept else kept)
        else below
      | [] => if relative then [seg] else []
      end
    else seg :: kept
  end.

Definition resolve (relative : bool) (segs : list jsstring) : list jsstring :=
  rev (fold_left (resolve_step relative) segs []).

Definition ends_with_slash (p : jsstring) : bool :=
  match rev p with
  | c :: _ => N.eqb c SLASH
  | [] => false
  end.

(** The lexically resolved form of an absolute path: the root, the
    resolved components separated by single separators, and the trailing
    separator of the input if it had one and components remain. *)
Definition resolve_absolute (p : jsstring) : jsstring :=
  let kept := resolve false (components p) in
  match kept with
  | [] => [SLASH]
  | _ => SLASH :: join [SLASH] kept ++ (if ends_with_slash p then [SLASH] else [])
  end.

(** A component that resolution leaves nothing to do with. *)
Definition plain_component (seg : jsstring) : Prop :=
  seg <> [] /\ seg <> js "." /\ seg <> js ".." /\ ~ In SLASH seg.

(** The characters the specification lists for the remote-copy escape. *)
Definition escaped_character (c : code_unit) : bool :=
  N.eqb c 92%N                       (* backslash *)
  || RegExp.isWhiteSpace c           (* whitespace *)
  || N.eqb c 34%N                    (* double quote *)
  || N.eqb c 39%N                    (* single quote *)
  || N.eqb c 96%N                    (* backquote *)
  || existsb (N.eqb c) (js "$!#&*")
  || existsb (N.eqb c) (js "()[]{}")
  || existsb (N.eqb c) (js ";<>?|~:").

(** A backslash before every listed character, nothing else added. *)
Definition escape_each (s : jsstring) : jsstring :=
  flat_map (fun c => if escaped_character c then [92%N; c] else [c]) s.

(** Every single quote replaced by quote, backslash, quote, quote. *)
Definition requote_each (s : jsstring) : jsstring :=
  flat_map (fun c => if N.eqb c 39%N then [39%N; 92%N; 39%N; 39%N] else [c]) s.

End Spec.

(** ** Notions used in the statements and proofs *)

Import NodePath.

(** [target] is [root] itself or lies beneath it on a separator. *)
Definition on_boundary (target root : jsstring) : Prop :=
  target = root \/ exists rest, target = root ++ js "/" ++ rest.

Definition no_match (command : jsstring) (rule : DenyPattern) : Prop :=
  test (regex_of rule) command = false.

Definition absolute (p : jsstring) : Prop := startsWith p (js "/") = true.

Definition outside_roots (R : list jsstring) (q : jsstring) : bool :=
  negb (pathWithinRoots q R).

(** The inverse reading: a backslash stands for the character after it. *)
Fixpoint unescape (s : jsstring) : jsstring :=
  match s with
  | [] => []
  | c :: rest =>
    if N.eqb c 92%N then
      match rest with
      | d :: rest' => d :: unescape rest'
      | [] => []
      end
    else c :: unescape rest
  end.

(** The components kept so far, most recent first, written out with
    separators between them. *)
Definition joined (kept : list jsstring) : jsstring :=
  join [CHAR_FORWARD_SLASH] (rev kept).

Definition top_length (kept : list jsstring) : Z :=
  match kept with
  | [] => 0
  | top :: _ => jslength top
  end.

(** A stored component is not empty and holds no separator. *)
Definition stored (seg : jsstring) : Prop :=
  seg <> [] /\ ~ In CHAR_FORWARD_SLASH seg.

Definition all_dots (seg : jsstring) : bool := forallb (N.eqb CHAR_DOT) seg.

(** The value of the variable [dots] after reading [seg] since the last
    separator. *)
Definition dots_count (seg : jsstring) : Z :=
  if all_dots seg then jslength seg else -1.

(** The variables of the loop stand for: the components [kept] so far,
    the characters [cur] read since the last separator, after the prefix
    [pre] that ends with that separator. *)
Record rep (kept : list jsstring) (cur pre : jsstring) (v : vars) : Prop := {
  rep_res : res v = joined kept;
  rep_len : lastSegmentLength v = top_length kept;
  rep_stored : Forall stored kept;
  rep_slash : lastSlash v = jslength pre - 1;
  rep_dots : dots v = dots_count cur;
  rep_cur : ~ In CHAR_FORWARD_SLASH cur;
  rep_code : isPosixPathSeparator (code v) = true -> cur = []
}.

(** The test of the loop for a last segment that is [..]. *)
Definition last_is_dotdot (v : vars) : bool :=
  negb ((jslength (res v) <? 2)
        || negb (lastSegmentLength v =? 2)
        || negb (code_is (charCodeAt (res v) (jslength (res v) - 1)) CHAR_DOT)
        || negb (code_is (charCodeAt (res v) (jslength (res v) - 2)) CHAR_DOT)).

Definition no_separator (seg : jsstring) : Prop := ~ In Spec.SLASH seg.

(** [k] and [k'] agree wherever a matcher started at [x] on [input] can
    end. *)
Definition agree_after (input : jsstring) (x : Z) (k k' : Z -> option Z)
    : Prop :=
  forall y, x <= y <= Z.max x (jslength input) -> k y = k' y.

(** A matcher consults its continuation only there. *)
Definition local (input : jsstring)
    (body : Z -> (Z -> option Z) -> option Z) : Prop :=
  forall x k k', agree_after input x k k' -> body x k = body x k'.

(** ** config.ts: the list of roots *)

(** [[...new Set(values)]]: the values in the order of their first
    occurrence; [seen] holds the members added so far. *)
Fixpoint Set_spread (seen values : list jsstring) : list jsstring :=
  match values with
  | [] => seen
  | v :: values' =>
    Set_spread (if existsb (jsstring_eqb v) seen then seen else seen ++ [v])
               values'
  end.

Definition normalizePathList (paths : list jsstring) : list jsstring :=
  Set_spread [] (map NodePath.normalize paths).

(** The lexically resolved form of any path, absolute or relative: of a
    relative path the leading [..] components that climb above its start
    are kept, and an empty result is written as a dot. *)
Definition resolve_any (p : jsstring) : jsstring :=
  match p with
  | [] => js "."
  | c :: _ =>
    let abs := N.eqb c Spec.SLASH in
    match Spec.resolve (negb abs) (Spec.components p) with
    | [] => if abs then js "/"
            else if Spec.ends_with_slash p then js "./" else js "."
    | kept =>
      (if abs then [Spec.SLASH] else [])
      ++ join [Spec.SLASH] kept
      ++ (if Spec.ends_with_slash p then [Spec.SLASH] else [])
    end
  end.

(** The components kept while resolving, most recent first: plain
    components above [k] double dots, and no double dot unless the path
    is relative. *)
Definition climbing (relative : bool) (kept : list jsstring) : Prop :=
  exists (k : nat) (plains : list jsstring),
    kept = plains ++ repeat (js "..") k
    /\ Forall Spec.plain_component plains
    /\ (relative = false -> k = 0%nat).

(** No two separators follow each other in [s]. *)
Fixpoint single_separators (s : jsstring) : bool :=
  match s with
  | a :: (b :: _) as rest =>
    negb (N.eqb a Spec.SLASH && N.eqb b Spec.SLASH) && single_separators rest
  | _ => true
  end.

(** ** config.ts: reading the environment *)

(** [s.split(c)] for a one-character separator. *)
Fixpoint split (c : code_unit) (s : jsstring) : list jsstring :=
  match s with
  | [] => [[]]
  | x :: s' =>
    if N.eqb x c then [] :: split c s'
    else
      match split c s' with
      | piece :: pieces => (x :: piece) :: pieces
      | [] => [[x]]
      end
  end.

(** [s.trimStart()] and [s.trim()]: white space and line terminators are
    removed, the same code units as the class escape \s. *)
Fixpoint trimStart (s : jsstring) : jsstring :=
  match s with
  | [] => []
  | x :: s' => if RegExp.isWhiteSpace x then trimStart s' else s
  end.

Definition trim (s : jsstring) : jsstring :=
  rev (trimStart (rev (trimStart s))).

(** [Boolean(s)] for a string. *)
Definition truthy (s : jsstring) : bool :=
  match s with
  | [] => false
  | _ :: _ => true
  end.

Definition COMMA : code_unit := 44%N.

Section Environment.

(** [process.env]: [None] is [undefined]. *)
Variable process_env : jsstring -> option jsstring.

(** [env(name, fallback)]; the optional [fallback] and the result are
    [None] for [undefined]. *)
Definition env (name : jsstring) (fallback : option jsstring)
    : option jsstring :=
  match process_env name with
  | None => fallback
  | Some value =>
    if jsstring_eqb (trim value) [] then fallback else Some (trim value)
  end.

Definition envList (name : jsstring) (fallback : list jsstring)
    : list jsstring :=
  match env name None with
  | None => fallback
  | Some value =>
    if negb (truthy value) then fallback
    else filter truthy (map trim (split COMMA value))
  end.

End Environment.

(** An entry as [envList] returns it: not empty, without a comma, and
    neither beginning nor ending with white space. *)
Definition clean_entry (e : jsstring) : Prop :=
  e <> [] /\ ~ In COMMA e /\ trim e = e.

Definition blank (s : jsstring) : Prop := forallb RegExp.isWhiteSpace s = true.

(** What [trim] leaves neither begins nor ends with white space. *)
Definition trimmed (s : jsstring) : Prop :=
  (forall x tl, s = x :: tl -> RegExp.isWhiteSpace x = false)
  /\ (forall x hd, s = hd ++ [x] -> RegExp.isWhiteSpace x = false).

(** ** security.ts: local paths

    On a POSIX host, where [path] is [path.posix] and [path.sep] is the
    forward slash.  [cwd] is what [process.cwd()] returns. *)

Module LocalPath.

Import NodePath.

(** The loop of [path.posix.resolve(...args)], from the last argument
    down to the working directory, until the path is absolute; empty
    arguments are skipped. *)
Fixpoint resolve_loop (cwd : jsstring) (args_from_last : list jsstring)
    (resolvedPath : jsstring) (resolvedAbsolute : bool) : jsstring * bool :=
  if resolvedAbsolute then (resolvedPath, resolvedAbsolute)
  else
    match args_from_last with
    | path :: earlier =>
      if jslength path =? 0 then
        resolve_loop cwd earlier resolvedPath resolvedAbsolute
      else
        resolve_loop cwd earlier
          (path ++ js "/" ++ resolvedPath)
          (code_is (charCodeAt path 0) CHAR_FORWARD_SLASH)
    | [] =>
      if jslength cwd =? 0 then (resolvedPath, resolvedAbsolute)
      else (cwd ++ js "/" ++ resolvedPath,
            code_is (charCodeAt cwd 0) CHAR_FORWARD_SLASH)
    end.

(** [path.resolve(...args)] *)
Definition resolve (cwd : jsstring) (args : list jsstring) : jsstring :=
  let (resolvedPath, resolvedAbsolute) :=
    resolve_loop cwd (rev args) [] false in
  let resolvedPath' := normalizeString resolvedPath (negb resolvedAbsolute) in
  if resolvedAbsolute then js "/" ++ resolvedPath'
  else if 0 <? jslength resolvedPath' then resolvedPath' else js ".".

End LocalPath.

Definition normalizeLocalPath (cwd value : jsstring) : jsstring :=
  LocalPath.resolve cwd [value].

Definition localPathWithinRoots (cwd target : jsstring) (roots : list jsstring)
    : bool :=
  existsb (fun root =>
    let normalizedRoot := LocalPath.resolve cwd [root] in
    jsstring_eqb target normalizedRoot
    || startsWith target (normalizedRoot ++ js "/")) roots.

(** The error of [ensureAllowedLocalPath]. *)
Definition LocalPathBlocked (allowedRoots : list jsstring) (normalized : jsstring)
    : error :=
  Error (js "Local path blocked. Allowed local roots: "
         ++ join (js ", ") allowedRoots
         ++ js ". Blocked: " ++ normalized).

Definition ensureAllowedLocalPath (cwd pathname : jsstring)
    (allowedRoots : list jsstring) : result jsstring :=
  let normalized := normalizeLocalPath cwd pathname in
  if negb (localPathWithinRoots cwd normalized allowedRoots) then
    Throw (LocalPathBlocked allowedRoots normalized)
  else Ok normalized.

(** The path that [path.resolve] works on: the argument itself when it is
    absolute, else the working directory, a separator and the argument. *)
Definition anchored (cwd value : jsstring) : jsstring :=
  if startsWith value (js "/") then value
  else cwd ++ js "/" ++ value.

(** ** ssh.ts: the runner

    The effects of the runner are the processes it starts through
    [execFileSafe], which never throws, and its cache of the [sshpass]
    probe.  Numbers are integers here; the timeouts and ports that reach
    the runner are integers. *)

Module Ssh.

Record SshConfig := mkSshConfig {
  host : jsstring;
  user : jsstring;
  port : Z;
  keyPath : option jsstring;
  password : option jsstring;
  connectTimeoutSec : Z;
  commandTimeoutSec : Z;
  strictHostKeyChecking : jsstring;
  knownHostsFile : jsstring
}.

Record RawExecResult := mkRaw {
  raw_stdout : jsstring;
  raw_stderr : jsstring;
  raw_exitCode : Z;
  raw_signal : option jsstring
}.

Record ExecResult := mkExecResult {
  ok : bool;
  stdout : jsstring;
  stderr : jsstring;
  exitCode : Z;
  signal : option jsstring;
  authMode : jsstring
}.

(** One call of [execFileSafe(command, args, timeoutMs)]. *)
Record spawn := mkSpawn {
  program : jsstring;
  argv : list jsstring;
  timeoutMs : Z
}.

(** The fields of an [SshRunner] that change, and the processes started
    so far, oldest first. *)
Record runner := mkRunner {
  sshpassAvailableCache : option bool;
  spawned : list spawn
}.

Definition R (A : Type) : Type := runner -> A * runner.

(** [value ? ... : ...] on an optional string: [undefined] and the empty
    string are falsy. *)
Definition set (o : option jsstring) : bool :=
  match o with
  | Some (_ :: _) => true
  | _ => false
  end.

Definition value_of (o : option jsstring) : jsstring :=
  match o with
  | Some s => s
  | None => []
  end.

(** [/permission denied|publickey|keyboard-interactive|authentication/i] *)
Definition auth_failure_re : RegExp.RegExp :=
  RegExp.mkRegExp
    (RegExp.alts [RegExp.lit "permission denied"; RegExp.lit "publickey";
                  RegExp.lit "keyboard-interactive";
                  RegExp.lit "authentication"])
    true.

(** A Number that holds an integer is kept as that integer.  The
    arithmetic is that of doubles: [to_double n] is the double nearest
    to the integer [n], with ties going to the even significand of 53
    bits.  A result beyond the largest finite double is not covered. *)
Definition to_double (n : Z) : Z :=
  let a := Z.abs n in
  let e := Z.log2 a - 52 in
  if e <=? 0 then n
  else
    let q := Z.shiftr a e in
    let r := a - Z.shiftl q e in
    let half := Z.shiftl 1 (e - 1) in
    let q' := if (half <? r) || ((r =? half) && Z.odd q) then q + 1 else q in
    Z.sgn n * Z.shiftl q' e.

Section Runner.

Variable config : SshConfig.

(** [process.cwd()], for [path.resolve]. *)
Variable cwd : jsstring.

(** Number::toString, for [String(n)] and numbers in template literals. *)
Variable Number_toString : Z -> jsstring.

(** What a started process ends with, given the processes started
    before it. *)
Variable outcome : list spawn -> spawn -> RawExecResult.

Definition execFileSafe (command : jsstring) (args : list jsstring)
    (timeout : Z) : R RawExecResult :=
  fun r =>
    let s := mkSpawn command args timeout in
    (outcome (spawned r) s,
     mkRunner (sshpassAvailableCache r) (spawned r ++ [s])).

Definition sshBaseArgs (batchMode : bool) : list jsstring :=
  [js "-p"; Number_toString (port config); js "-T";
   js "-o"; js "ConnectTimeout=" ++ Number_toString (connectTimeoutSec config);
   js "-o"; js "ServerAliveInterval=15";
   js "-o"; js "ServerAliveCountMax=2";
   js "-o"; js "StrictHostKeyChecking=" ++ strictHostKeyChecking config;
   js "-o"; js "UserKnownHostsFile=" ++ knownHostsFile config;
   js "-o"; js "BatchMode=" ++ (if batchMode then js "yes" else js "no")]
  ++ (if set (keyPath config) && batchMode
      then [js "-i"; value_of (keyPath config)] else [])
  ++ (if negb batchMode
      then [js "-o"; js "PreferredAuthentications=password,keyboard-interactive";
            js "-o"; js "PubkeyAuthentication=no"]
      else []).

Definition scpBaseArgs (batchMode : bool) : list jsstring :=
  [js "-P"; Number_toString (port config);
   js "-o"; js "ConnectTimeout=" ++ Number_toString (connectTimeoutSec config);
   js "-o"; js "StrictHostKeyChecking=" ++ strictHostKeyChecking config;
   js "-o"; js "UserKnownHostsFile=" ++ knownHostsFile config;
   js "-o"; js "BatchMode=" ++ (if batchMode then js "yes" else js "no")]
  ++ (if set (keyPath config) && batchMode
      then [js "-i"; value_of (keyPath config)] else [])
  ++ (if negb batchMode
      then [js "-o"; js "PreferredAuthentications=password,keyboard-interactive";
            js "-o"; js "PubkeyAuthentication=no"]
      else []).

Definition hasSshpass : R bool :=
  fun r =>
    match sshpassAvailableCache r with
    | Some cached => (cached, r)
    | None =>
      let (result, r') := execFileSafe (js "sshpass") [js "-V"] 3000 r in
      let available := raw_exitCode result =? 0 in
      (available, mkRunner (Some available) (spawned r'))
    end.

Definition sshpass_missing : RawExecResult :=
  mkRaw []
        (js "Password fallback requested but sshpass is not installed. Install sshpass or configure IPHONE_SSH_KEY_PATH.")
        255 None.

Definition execWithOptionalSshPass (command : jsstring) (args : list jsstring)
    (timeout : Z) (batchMode : bool) : R RawExecResult :=
  fun r =>
    if batchMode || negb (set (password config)) then
      execFileSafe command args timeout r
    else
      let (available, r') := hasSshpass r in
      if negb available then (sshpass_missing, r')
      else
        execFileSafe (js "sshpass")
          ([js "-p"; value_of (password config); command] ++ args) timeout r'.

Definition as_result (result : RawExecResult) (batchMode : bool) : ExecResult :=
  mkExecResult (raw_exitCode result =? 0)
    (raw_stdout result) (raw_stderr result) (raw_exitCode result)
    (raw_signal result)
    (if batchMode then js "key" else js "password").

Definition target : jsstring := user config ++ js "@" ++ host config.

Definition runSshCommand (command : jsstring) (timeout : Z) (batchMode : bool)
    : R ExecResult :=
  fun r =>
    let args := sshBaseArgs batchMode ++ [target; command] in
    let (result, r') :=
      execWithOptionalSshPass (js "ssh") args timeout batchMode r in
    (as_result result batchMode, r').

Definition runScp (pathArgs : list jsstring) (timeout : Z) (batchMode : bool)
    : R ExecResult :=
  fun r =>
    let args := scpBaseArgs batchMode ++ pathArgs in
    let (result, r') :=
      execWithOptionalSshPass (js "scp") args timeout batchMode r in
    (as_result result batchMode, r').

Definition shouldTryPassword (stderr_text : jsstring) : bool :=
  if negb (set (password config)) then false
  else RegExp.test auth_failure_re stderr_text.

(** [timeoutSec ?? this.config.commandTimeoutSec] *)
Definition timeout_seconds (timeoutSec : option Z) : Z :=
  match timeoutSec with
  | Some s => s
  | None => commandTimeoutSec config
  end.

(** [(timeoutSec ?? this.config.commandTimeoutSec) * 1_000], a product
    of doubles. *)
Definition timeout_ms (timeoutSec : option Z) : Z :=
  to_double (timeout_seconds timeoutSec * 1000).

(** The seconds and the milliseconds are integers that doubles hold
    exactly, so that the product is the exact one. *)
Definition timeout_exact (timeoutSec : option Z) : bool :=
  Z.abs (timeout_seconds timeoutSec) * 1000 <=? 2 ^ 53.

Definition execRemote (command : jsstring) (timeoutSec : option Z)
    : R ExecResult :=
  fun r =>
    let (keyAttempt, r1) := runSshCommand command (timeout_ms timeoutSec) true r in
    if ok keyAttempt || negb (shouldTryPassword (stderr keyAttempt)) then
      (keyAttempt, r1)
    else runSshCommand command (timeout_ms timeoutSec) false r1.

Definition remoteSpec (remotePath : jsstring) : jsstring :=
  user config ++ js "@" ++ host config ++ js ":"
  ++ escapeScpRemotePath remotePath.

Definition copyFromRemote (remotePath localPath : jsstring)
    (timeoutSec : option Z) : R ExecResult :=
  fun r =>
    let destination := LocalPath.resolve cwd [localPath] in
    let (keyAttempt, r1) :=
      runScp [remoteSpec remotePath; destination] (timeout_ms timeoutSec) true r in
    if ok keyAttempt || negb (shouldTryPassword (stderr keyAttempt)) then
      (keyAttempt, r1)
    else runScp [remoteSpec remotePath; destination] (timeout_ms timeoutSec)
                false r1.

Definition copyToRemote (localPath remotePath : jsstring)
    (timeoutSec : option Z) : R ExecResult :=
  fun r =>
    let source := LocalPath.resolve cwd [localPath] in
    let (keyAttempt, r1) :=
      runScp [source; remoteSpec remotePath] (timeout_ms timeoutSec) true r in
    if ok keyAttempt || negb (shouldTryPassword (stderr keyAttempt)) then
      (keyAttempt, r1)
    else runScp [source; remoteSpec remotePath] (timeout_ms timeoutSec)
                false r1.

End Runner.

(** The probe for [sshpass]. *)
Definition probe : spawn := mkSpawn (js "sshpass") [js "-V"] 3000.

Definition is_probe (s : spawn) : bool :=
  jsstring_eqb (program s) (js "sshpass")
  && match argv s with
     | [a] => jsstring_eqb a (js "-V")
     | _ => false
     end.

Definition probe_count (started : list spawn) : nat :=
  length (filter is_probe started).

(** The process that carries the password. *)
Definition with_password (config : SshConfig) (command : jsstring)
    (args : list jsstring) (timeout : Z) : spawn :=
  mkSpawn (js "sshpass")
          ([js "-p"; value_of (password config); command] ++ args) timeout.

(** The last two arguments of [s] are the target and the command. *)
Definition ends_with_command (config : SshConfig) (command : jsstring)
    (s : spawn) : Prop :=
  exists before, argv s = before ++ [target config; command].

(** A step from [r] to [r'] only adds processes, leaves a filled cache
    alone without probing, and fills an empty cache by one probe or
    not at all. *)
Definition probes_at_most_once (r r' : runner) : Prop :=
  exists new,
    spawned r' = spawned r ++ new
    /\ match sshpassAvailableCache r with
       | Some b =>
         sshpassAvailableCache r' = Some b /\ probe_count new = 0%nat
       | None =>
         (sshpassAvailableCache r' = None /\ probe_count new = 0%nat)
         \/ (exists b, sshpassAvailableCache r' = Some b
                       /\ probe_count new = 1%nat)
       end.

End Ssh.

(** A character that keeps [PosixShell.read_word] from giving the
    escaped path back: the newline, which a backslash removes instead of
    keeping, and the two characters that reader refuses unquoted and the
    escape leaves alone. *)
Definition lost_by_escape (c : code_unit) : bool :=
  N.eqb c 10%N || N.eqb c 61%N || N.eqb c 37%N.

(** ** The tokens of a shell command

    Shell Command Language, section 2.3 (Token Recognition), for command
    lines built from words, single quotes, backslashes, blanks and
    operators.  A command line with a double quote, an expansion, a
    pattern character, a comment, a brace, a bang, an assignment or a
    here-document outside quotes is not covered ([None]). *)

Module ShellTokens.

Inductive token :=
| Word (text : jsstring) (quoted : bool)   (* [quoted]: some part was quoted *)
| Operator (op : jsstring).

(** The word being read, if one has begun. *)
Definition pending : Type := option (jsstring * bool).

Definition emit (cur : pending) (rest : option (list token))
    : option (list token) :=
  match cur with
  | Some (w, q) => option_map (cons (Word w q)) rest
  | None => rest
  end.

Definition extend (cur : pending) (text : jsstring) (q : bool) : pending :=
  match cur with
  | Some (w, q0) => Some (w ++ text, q0 || q)
  | None => Some (text, q)
  end.

Definition is_blank (c : code_unit) : bool := N.eqb c 32%N || N.eqb c 9%N.

(** The characters operators are made of. *)
Definition is_operator_char (c : code_unit) : bool :=
  existsb (N.eqb c) (js ";&|<>()").

(** The operators of two characters, here-documents apart. *)
Definition two_char_operator (c d : code_unit) : bool :=
  existsb (fun op => jsstring_eqb [c; d] op)
    [js "&&"; js "||"; js ";;"; js ">>"; js ">&"; js "<&"; js "<>"; js ">|"].

Definition uncovered (c : code_unit) : bool :=
  N.eqb c 34%N || existsb (N.eqb c) (js "$`*?~#{}!=").

Fixpoint lex (inSingle : bool) (cur : pending) (input : jsstring)
    : option (list token) :=
  match input with
  | [] => if inSingle then None else emit cur (Some [])
  | c :: rest =>
    if inSingle then
      if N.eqb c 39%N then lex false cur rest
      else lex true (extend cur [c] true) rest
    else if N.eqb c 39%N then lex true (extend cur [] true) rest
    else if N.eqb c 92%N then
      match rest with
      | [] => None
      | d :: rest' =>
        if N.eqb d 10%N then lex false cur rest'
        else lex false (extend cur [d] true) rest'
      end
    else if is_blank c then emit cur (lex false None rest)
    else if N.eqb c 10%N then
      emit cur (option_map (cons (Operator [c])) (lex false None rest))
    else if is_operator_char c then
      match rest with
      | d :: rest' =>
        if N.eqb c 60%N && N.eqb d 60%N then None
        else if two_char_operator c d then
          emit cur (option_map (cons (Operator [c; d])) (lex false None rest'))
        else emit cur (option_map (cons (Operator [c])) (lex false None rest))
      | [] => emit cur (Some [Operator [c]])
      end
    else if uncovered c then None
    else lex false (extend cur [c] false) rest
  end.

Definition tokens (command : jsstring) : option (list token) :=
  lex false None command.

(** Section 2.4 (Reserved Words): a word is taken as a reserved word
    when it is unquoted and stands first in a command or right after
    another reserved word.  A redirection operator takes the next word
    as its target. *)
Definition is_reserved (w : jsstring) : bool :=
  existsb (jsstring_eqb w)
    [js "if"; js "then"; js "else"; js "elif"; js "fi"; js "do"; js "done";
     js "while"; js "until"; js "case"; js "esac"; js "for"; js "in"].

Definition is_redirection (op : jsstring) : bool :=
  existsb (jsstring_eqb op)
    [js ">"; js "<"; js ">>"; js ">&"; js "<&"; js "<>"; js ">|"].

(** The reserved words recognised in a list of tokens, in order;
    [at_start] says whether the next word would begin a command. *)
Fixpoint reserved_words (at_start : bool) (toks : list token) : list jsstring :=
  match toks with
  | [] => []
  | Operator op :: rest =>
    if is_redirection op then
      match rest with
      | _ :: rest' => reserved_words at_start rest'
      | [] => []
      end
    else reserved_words (negb (jsstring_eqb op (js ")"))) rest
  | Word w q :: rest =>
    if at_start && negb q && is_reserved w then
      w :: reserved_words true rest
    else reserved_words false rest
  end.

(** Tokens in front of a result. *)
Fixpoint prepend (toks : list token) (rest : option (list token))
    : option (list token) :=
  match toks with
  | [] => rest
  | t :: toks' => option_map (cons t) (prepend toks' rest)
  end.

(** A character that only ever extends an unquoted word. *)
Definition ordinary (c : code_unit) : bool :=
  negb (N.eqb c 39%N || N.eqb c 92%N || is_blank c || N.eqb c 10%N
        || is_operator_char c || uncovered c).

End ShellTokens.

(** ** Numbers in template literals

    Number::toString of a non-negative integer below 10^21: its
    decimal digits. *)

Fixpoint decimal_digits (fuel : nat) (n : N) (acc : jsstring) : jsstring :=
  match fuel with
  | O => acc
  | S fuel' =>
    let acc' := (48 + n mod 10)%N :: acc in
    if (n / 10 =? 0)%N then acc' else decimal_digits fuel' (n / 10)%N acc'
  end.

Definition decimal (n : Z) : jsstring :=
  decimal_digits (S (N.to_nat (N.log2 (Z.to_N n)))) (Z.to_N n) [].

(** ** index.ts: the commands of the file tools *)

(** The command of [iphone_list_dir]. *)
Definition listDirCommand (remotePath : jsstring) (show_hidden : bool)
    (max_entries : Z) : jsstring :=
  let listFlags := if show_hidden then js "-la" else js "-l" in
  join (js " ")
    [ js "if [ -d " ++ shellQuote remotePath ++ js " ]; then";
      js "  ls " ++ listFlags ++ js " " ++ shellQuote remotePath
        ++ js " | head -n " ++ decimal max_entries;
      js "else";
      js "  echo 'Directory not found: " ++ remotePath ++ js "' >&2 ; exit 2";
      js "fi" ].

(** The two commands of [iphone_read_file]. *)
Definition readFileCommand (remotePath : jsstring) (base64 : bool)
    (max_bytes : Z) : jsstring :=
  if base64 then
    js "if [ -f " ++ shellQuote remotePath ++ js " ]; then base64 < "
    ++ shellQuote remotePath ++ js " | tr -d '\n'; else echo 'File not found: "
    ++ remotePath ++ js "' >&2; exit 2; fi"
  else
    js "if [ -f " ++ shellQuote remotePath ++ js " ]; then head -c "
    ++ decimal max_bytes ++ js " " ++ shellQuote remotePath
    ++ js "; else echo 'File not found: " ++ remotePath
    ++ js "' >&2; exit 2; fi".

(** The command of [iphone_write_file]. *)
Definition writeFileCommand (dir content remotePath mode : jsstring) : jsstring :=
  (js "mkdir -p " ++ shellQuote dir ++ js " && ")
  ++ (js "printf '%s' " ++ shellQuote content ++ js " > "
      ++ shellQuote remotePath ++ js " && ")
  ++ (js "chmod " ++ mode ++ js " " ++ shellQuote remotePath).

(** The command of [iphone_get_logs]; [filter] is [None] when the
    argument is absent. *)
Definition getLogsCommand (filter : option jsstring) (lines minutes : Z)
    : jsstring :=
  let base :=
    js "(log show --last " ++ decimal minutes
    ++ js "m --style compact 2>/dev/null || tail -n " ++ decimal lines
    ++ js " /var/log/syslog 2>/dev/null || echo 'No log source available')" in
  let filtered :=
    match filter with
    | Some (c :: f) => base ++ js " | grep -i -- " ++ shellQuote (c :: f)
    | _ => base
    end in
  filtered ++ js " | tail -n " ++ decimal lines.

(** The [mode] argument of [iphone_write_file] as its schema accepts
    it: three or four octal digits. *)
Definition octal_mode (mode : jsstring) : bool :=
  forallb (fun c => RegExp.between 48 55 c) mode
  && (3 <=? jslength mode) && (jslength mode <=? 4).

(** ** Words in a command *)

Definition starts_in_word (s : jsstring) : bool :=
  match s with
  | c :: _ => RegExp.isWordChar c
  | [] => false
  end.

Definition ends_in_word (s : jsstring) : bool := starts_in_word (rev s).

(** What stands between [pre] and [post] touches no word character on
    either side. *)
Definition delimited (pre post : jsstring) : bool :=
  negb (ends_in_word pre) && negb (starts_in_word post).

(** The words of the first pattern of [WRITE_COMMAND_PATTERNS]. *)
Definition WRITE_WORDS : list jsstring :=
  [ js "touch"; js "mkdir"; js "rmdir"; js "mv"; js "cp"; js "rm"; js "ln";
    js "install"; js "tee"; js "truncate"; js "chmod"; js "chown";
    js "chgrp" ].

(** The words that a rule of [DENY_PATTERNS] denies on their own. *)
Definition DENIED_WORDS : list jsstring :=
  [ js "mkfs"; js "shutdown"; js "reboot"; js "halt" ].

(** ** index.ts: the file tools

    The cases of the request handler from the parsed arguments to the
    result of the remote call; the text made of that result is left
    out. *)

Section Tools.

Variable ExecResult : Type.
Variable remote : transport -> jsstring -> option Z -> ExecResult.
Variable allowedWriteRoots : list jsstring.

(** [path.posix.dirname] *)
Variable dirname : jsstring -> jsstring.

Definition iphone_list_dir (path : jsstring) (show_hidden : bool)
    (max_entries : Z) (timeout_sec : option Z) : M ExecResult :=
  bind (lift (normalizeRemotePath path)) (fun remotePath =>
  execReadCommand ExecResult remote
    (listDirCommand remotePath show_hidden max_entries) timeout_sec).

Definition iphone_read_file (path : jsstring) (max_bytes : Z) (base64 : bool)
    (timeout_sec : option Z) : M ExecResult :=
  bind (lift (normalizeRemotePath path)) (fun remotePath =>
  execReadCommand ExecResult remote
    (readFileCommand remotePath base64 max_bytes) timeout_sec).

Definition iphone_write_file (path content mode : jsstring)
    (timeout_sec : option Z) : M ExecResult :=
  bind (lift (normalizeRemotePath path)) (fun remotePath =>
  bind (lift (ensureAllowedWritePaths [remotePath] allowedWriteRoots))
       (fun _ =>
  execWriteCommand ExecResult remote allowedWriteRoots
    (writeFileCommand (dirname remotePath) content remotePath mode)
    [remotePath] timeout_sec)).

Definition iphone_get_logs (filter : option jsstring) (lines minutes : Z)
    (timeout_sec : option Z) : M ExecResult :=
  execReadCommand ExecResult remote (getLogsCommand filter lines minutes)
    timeout_sec.

End Tools.

(** A path in canonical form: the root alone, or the root followed by
    components separated by single slashes, none of them empty, [.] or
    [..], with or without a slash at the end. *)
Definition canonical (p : jsstring) : Prop :=
  p = js "/"
  \/ exists kept,
       kept <> []
       /\ Forall Spec.plain_component kept
       /\ (p = js "/" ++ join (js "/") kept
           \/ p = js "/" ++ join (js "/") kept ++ js "/").

(** ** index.ts: the transfer tools

    The cases [iphone_pull_file] and [iphone_push_file] of the request
    handler from the parsed arguments to the result of [scp]; the text
    made of that result is left out. *)

Section Transfers.

Variable config : Ssh.SshConfig.
Variable cwd : jsstring.
Variable Number_toString : Z -> jsstring.
Variable outcome : list Ssh.spawn -> Ssh.spawn -> Ssh.RawExecResult.

Variable allowedWriteRoots : list jsstring.
Variable localArtifactRoots : list jsstring.

(** [path.dirname] *)
Variable path_dirname : jsstring -> jsstring.

(** [fs.mkdir(dir, { recursive: true })] and [fs.access(file)]: they
    return or throw. *)
Variable fs_mkdir : jsstring -> result unit.
Variable fs_access : jsstring -> result unit.



End Transfers.



(** * Properties *)

(** ** Strings *)

Lemma jsstring_eqb_eq (a b : jsstring) : jsstring_eqb a b = true <-> a = b.
Proof.
  revert b; induction a as [|x a IH]; intros [|y b]; simpl;
    try (split; congruence).
  rewrite andb_true_iff, N.eqb_eq, IH. split.
  - intros [-> ->]; reflexivity.
  - intros H; inversion H; auto.
Qed.

Lemma jsstring_eqb_refl (a : jsstring) : jsstring_eqb a a = true.
Proof. apply jsstring_eqb_eq; reflexivity. Qed.

Lemma jsstring_eqb_neq (a b : jsstring) : jsstring_eqb a b = false <-> a <> b.
Proof.
  rewrite <- jsstring_eqb_eq. destruct (jsstring_eqb a b); split; congruence.
Qed.

Lemma startsWith_prefix (s p : jsstring) :
  startsWith s p = true <-> exists rest, s = p ++ rest.
Proof.
  revert s; induction p as [|y p IH]; intros s; simpl.
  - split; [intros _; exists s; reflexivity | reflexivity].
  - destruct s as [|x s].
    + split; [discriminate | intros [rest H]; discriminate].
    + rewrite andb_true_iff, N.eqb_eq, IH. split.
      * intros [-> [rest ->]]; eauto.
      * intros [rest H]; inversion H; eauto.
Qed.

Lemma startsWith_app (p rest : jsstring) : startsWith (p ++ rest) p = true.
Proof. apply startsWith_prefix; eauto. Qed.

(** ** Allowlist membership *)

Lemma pathWithinRoots_iff (p : jsstring) (R : list jsstring) :
  pathWithinRoots p R = true
  <-> exists r, In r R /\ on_boundary p (NodePath.normalize r).
Proof.
  unfold pathWithinRoots, on_boundary. rewrite existsb_exists.
  split; intros [r [Hin H]]; exists r; split; auto.
  - apply orb_true_iff in H as [H|H].
    + left; apply jsstring_eqb_eq; exact H.
    + right. apply startsWith_prefix in H as [rest ->].
      exists rest. rewrite <- app_assoc. reflexivity.
  - apply orb_true_iff. destruct H as [->|[rest ->]].
    + left; apply jsstring_eqb_refl.
    + right. rewrite app_assoc. apply startsWith_app.
Qed.

(** C1. For every path [p] (in particular every normalized one) and every
    root set [R], [pathWithinRoots p R] is true exactly when [p] equals the
    lexically normalized form of some root of [R], or starts with that form
    followed immediately by the separator; a path that continues a
    normalized root with any other character is not admitted by that root.
    With the single root /var/mobile, the paths /var/mobile and
    /var/mobile/x are allowed, /var/mobile2 and /var/mobil are not. *)
Theorem pathWithinRoots_boundary_exact :
  (forall (p : jsstring) (R : list jsstring),
      pathWithinRoots p R = true
      <-> exists r, In r R
                    /\ (p = NodePath.normalize r
                        \/ exists rest,
                             p = NodePath.normalize r ++ js "/" ++ rest))
  /\ (forall (r rest : jsstring) (c : code_unit),
        c <> 47%N ->
        pathWithinRoots (NodePath.normalize r ++ c :: rest) [r] = false)
  /\ pathWithinRoots (js "/var/mobile") [js "/var/mobile"] = true
  /\ pathWithinRoots (js "/var/mobile/x") [js "/var/mobile"] = true
  /\ pathWithinRoots (js "/var/mobile2") [js "/var/mobile"] = false
  /\ pathWithinRoots (js "/var/mobil") [js "/var/mobile"] = false.
Proof.
  split; [exact pathWithinRoots_iff|].
  split; [|repeat split; vm_compute; reflexivity].
  intros r rest c Hc.
  destruct (pathWithinRoots _ [r]) eqn:E; [exfalso|reflexivity].
  apply pathWithinRoots_iff in E as [r' [[<-|[]] [H|[rest' H]]]].
  - apply (f_equal (@length _)) in H. rewrite length_app in H.
    simpl in H. lia.
  - apply app_inv_head in H. simpl in H. inversion H. congruence.
Qed.

(** ** The rule tables *)

Lemma matchDeniedPattern_in_Some (command : jsstring)
    (patterns : list DenyPattern) (rule : DenyPattern) :
  matchDeniedPattern_in command patterns = Some rule
  <-> exists before after,
        patterns = before ++ rule :: after
        /\ Forall (no_match command) before
        /\ test (regex_of rule) command = true.
Proof.
  induction patterns as [|p ps IH]; simpl.
  - split; [discriminate|]. intros [[|? ?] [? [H _]]]; discriminate.
  - destruct (test (regex_of p) command) eqn:E.
    + split.
      * intros H; inversion H; subst. exists [], ps. auto.
      * intros [[|b before] [after [H [Hb Hr]]]]; simpl in H; inversion H; subst.
        -- reflexivity.
        -- inversion Hb; subst. unfold no_match in *. congruence.
    + rewrite IH. split.
      * intros [before [after [-> [Hb Hr]]]].
        exists (p :: before), after. repeat split; auto.
      * intros [[|b before] [after [H [Hb Hr]]]]; simpl in H; inversion H; subst.
        -- congruence.
        -- inversion Hb; subst. eauto.
Qed.

Lemma matchDeniedPattern_in_None (command : jsstring)
    (patterns : list DenyPattern) :
  matchDeniedPattern_in command patterns = None
  <-> Forall (no_match command) patterns.
Proof.
  induction patterns as [|p ps IH]; simpl.
  - split; auto.
  - destruct (test (regex_of p) command) eqn:E.
    + split; [discriminate|]. intros H; inversion H; subst.
      unfold no_match in *; congruence.
    + rewrite IH. split; [auto|]. intros H; inversion H; auto.
Qed.

(** C7. [matchDeniedPattern c] goes through the fixed rule table in
    declaration order and returns the first rule whose pattern matches [c],
    with that rule's reason, and null when no rule matches.  The command
    rm -rf / and the command reboot are denied with the reasons of their
    rules, ls -la is not denied. *)
Theorem matchDeniedPattern_first_rule :
  (forall (c : jsstring) (rule : DenyPattern),
      matchDeniedPattern c = Some rule
      <-> exists before after,
            DENY_PATTERNS = before ++ rule :: after
            /\ Forall (no_match c) before
            /\ test (regex_of rule) c = true)
  /\ (forall c : jsstring,
        matchDeniedPattern c = None <-> Forall (no_match c) DENY_PATTERNS)
  /\ option_map reason (matchDeniedPattern (js "rm -rf /"))
     = Some (js "Refuses full filesystem deletion (rm -rf /).")
  /\ option_map reason (matchDeniedPattern (js "reboot"))
     = Some (js "Refuses remote reboot command.")
  /\ matchDeniedPattern (js "ls -la") = None.
Proof.
  split; [intros; apply matchDeniedPattern_in_Some|].
  split; [intros; apply matchDeniedPattern_in_None|].
  repeat split; vm_compute; reflexivity.
Qed.

(** Word boundaries, case folding and the end-of-input alternative at
    work on further commands. *)
Example matchDeniedPattern_samples :
  option_map reason (matchDeniedPattern (js "echo hi; SHUTDOWN -h now"))
  = Some (js "Refuses remote shutdown command.")
  /\ option_map reason (matchDeniedPattern (js "sudo RM  -Rf  / ; ls"))
     = Some (js "Refuses full filesystem deletion (rm -rf /).")
  /\ option_map reason (matchDeniedPattern (js "apt-get purge vim"))
     = Some (js "Refuses package removal command.")
  /\ matchDeniedPattern (js "rm -rf /home/user/tmp") = None
  /\ matchDeniedPattern (js "xreboot") = None
  /\ matchDeniedPattern (js "cat reboot_log.txt") = None.
Proof. repeat split; vm_compute; reflexivity. Qed.

Lemma test_anywhere (re : RegExp) (input : jsstring) :
  test re input = true
  <-> exists index,
        0 <= index <= jslength input /\ match_at re input index <> None.
Proof.
  unfold test, indices_upto. rewrite existsb_exists. split.
  - intros [i [Hin H]]. exists i. apply in_map_iff in Hin as [n [<- Hn]].
    apply in_seq in Hn. unfold jslength. split; [lia|].
    destruct (match_at re input (Z.of_nat n)); congruence.
  - intros [i [Hi H]]. exists i. split.
    + apply in_map_iff. exists (Z.to_nat i). unfold jslength in Hi.
      split; [lia|]. apply in_seq. lia.
    + destruct (match_at re input i); congruence.
Qed.

(** C8. [isLikelyWriteCommand c] is true exactly when at least one of the
    write-intent signatures matches at some position of [c].  It is false
    for ls -la /var/mobile and tail -n 200 /var/log/syslog, and true for
    mkdir -p /var/mobile/test and python3.14 -m pip install requests. *)
Theorem isLikelyWriteCommand_any_signature :
  (forall c : jsstring,
      isLikelyWriteCommand c = true
      <-> exists signature index,
            In signature WRITE_COMMAND_PATTERNS
            /\ 0 <= index <= jslength c
            /\ match_at signature c index <> None)
  /\ isLikelyWriteCommand (js "ls -la /var/mobile") = false
  /\ isLikelyWriteCommand (js "tail -n 200 /var/log/syslog") = false
  /\ isLikelyWriteCommand (js "mkdir -p /var/mobile/test") = true
  /\ isLikelyWriteCommand (js "python3.14 -m pip install requests") = true.
Proof.
  split; [|repeat split; vm_compute; reflexivity].
  intros c. unfold isLikelyWriteCommand. rewrite existsb_exists. split.
  - intros [re [Hin H]]. apply test_anywhere in H as [i Hi]. eauto.
  - intros [re [i [Hin Hi]]]. exists re. split; auto.
    apply test_anywhere. eauto.
Qed.

(** ** Write-path enforcement *)

Lemma normalizeRemotePath_absolute (p : jsstring) :
  absolute p -> normalizeRemotePath p = Ok (NodePath.normalize p).
Proof. unfold absolute, normalizeRemotePath. intros ->. reflexivity. Qed.

Lemma normalizeRemotePath_relative (p : jsstring) :
  startsWith p (js "/") = false -> normalizeRemotePath p = Throw (InvalidPath p).
Proof. unfold normalizeRemotePath. intros ->. reflexivity. Qed.

Lemma map_normalize_absolute (ps : list jsstring) :
  Forall absolute ps ->
  map_result normalizeRemotePath ps = Ok (map NodePath.normalize ps).
Proof.
  induction 1 as [|p ps Hp _ IH]; simpl; [reflexivity|].
  rewrite (normalizeRemotePath_absolute p Hp), IH. reflexivity.
Qed.

Lemma map_normalize_first_relative (before after : list jsstring) (v : jsstring) :
  Forall absolute before ->
  startsWith v (js "/") = false ->
  map_result normalizeRemotePath (before ++ v :: after) = Throw (InvalidPath v).
Proof.
  intros Hb Hv. induction Hb as [|p ps Hp _ IH]; simpl.
  - rewrite (normalizeRemotePath_relative v Hv). reflexivity.
  - rewrite (normalizeRemotePath_absolute p Hp), IH. reflexivity.
Qed.

Lemma first_relative (ps : list jsstring) :
  Exists (fun p => startsWith p (js "/") = false) ps ->
  exists before v after,
    ps = before ++ v :: after
    /\ Forall absolute before
    /\ startsWith v (js "/") = false.
Proof.
  induction ps as [|p ps IH]; intros H; [inversion H|].
  destruct (startsWith p (js "/")) eqn:E.
  - inversion H as [? ? Hp|? ? Hps]; subst; [congruence|].
    destruct (IH Hps) as [before [v [after [-> [Hb Hv]]]]].
    exists (p :: before), v, after. repeat split; auto.
  - exists [], p, ps. repeat split; auto.
Qed.

Lemma filter_nil_iff {A : Type} (f : A -> bool) (l : list A) :
  filter f l = [] <-> forall x, In x l -> f x = false.
Proof.
  induction l as [|a l IH]; simpl.
  - split; [intros _ x []|reflexivity].
  - destruct (f a) eqn:E.
    + split; [discriminate|]. intros H. specialize (H a (or_introl eq_refl)).
      congruence.
    + rewrite IH. split.
      * intros H x [<-|Hx]; auto.
      * intros H x Hx. apply H. auto.
Qed.

Lemma outside_roots_iff (R : list jsstring) (q : jsstring) :
  outside_roots R q = true
  <-> forall r, In r R -> ~ on_boundary q (NodePath.normalize r).
Proof.
  unfold outside_roots. rewrite negb_true_iff.
  destruct (pathWithinRoots q R) eqn:E.
  - apply pathWithinRoots_iff in E as [r [Hin Hb]].
    split; [discriminate|]. intros H. destruct (H r Hin Hb).
  - split; [|reflexivity]. intros _ r Hin Hb.
    assert (pathWithinRoots q R = true) by (apply pathWithinRoots_iff; eauto).
    congruence.
Qed.

Lemma InvalidPath_not_WritePathBlocked (v : jsstring) (R denied : list jsstring) :
  InvalidPath v <> WritePathBlocked R denied.
Proof.
  intros H.
  apply (f_equal (fun e => match e with Error m => hd 0%N m end)) in H.
  vm_compute in H. discriminate.
Qed.

(** C5. When every path of [ps] is absolute, so that all of them
    normalize: if every normalized path lies within some root of [R] on a
    directory boundary, [ensureAllowedWritePaths ps R] returns the
    normalized paths in input order; if at least one lies outside every
    root, it throws the error whose message is the fixed text, every
    configured root, joined by a comma and a space, and every denied
    normalized path, in input order and joined the same way, and no path
    is returned.  The denied paths are exactly the normalized paths
    outside every root. *)
Theorem ensureAllowedWritePaths_all_or_nothing
    (ps R : list jsstring) (Habs : Forall absolute ps) :
  let normalized := map NodePath.normalize ps in
  let denied := filter (outside_roots R) normalized in
  (Forall (fun q => exists r, In r R /\ on_boundary q (NodePath.normalize r))
          normalized ->
   ensureAllowedWritePaths ps R = Ok normalized)
  /\ (Exists (fun q => forall r, In r R -> ~ on_boundary q (NodePath.normalize r))
             normalized ->
      ensureAllowedWritePaths ps R
      = Throw (Error (js "Write path blocked by allowlist. Allowed roots: "
                      ++ join (js ", ") R
                      ++ js ". Blocked: "
                      ++ join (js ", ") denied))
      /\ forall partial, ensureAllowedWritePaths ps R <> Ok partial)
  /\ (forall q, In q denied
                <-> In q normalized
                    /\ forall r, In r R -> ~ on_boundary q (NodePath.normalize r)).
Proof.
  intros normalized denied.
  unfold ensureAllowedWritePaths.
  rewrite (map_normalize_absolute ps Habs).
  fold normalized. fold (outside_roots R). fold denied.
  split; [|split].
  - intros Hall.
    assert (Hd : denied = []).
    { apply filter_nil_iff. intros q Hq.
      rewrite Forall_forall in Hall. destruct (Hall q Hq) as [r [Hin Hb]].
      unfold outside_roots. apply negb_false_iff.
      apply pathWithinRoots_iff; eauto. }
    rewrite Hd. reflexivity.
  - intros Hex. apply Exists_exists in Hex as [q [Hq Hout]].
    assert (Hin : In q denied).
    { apply filter_In. split; auto. apply outside_roots_iff; auto. }
    destruct denied as [|d ds] eqn:Ed; [destruct Hin|].
    change (0 <? Z.of_nat (length (d :: ds))) with true.
    split; [reflexivity|discriminate].
  - intros q. unfold denied. rewrite filter_In, outside_roots_iff. reflexivity.
Qed.

(** Two of three paths are blocked: the error lists both roots and both
    denied paths, in normal form and in input order, and nothing is
    returned. *)
Lemma ensureAllowedWritePaths_all_or_nothing_example :
  Forall absolute [js "/etc/passwd"; js "/var/mobile/a"; js "/usr/../bin/sh"]
  /\ ensureAllowedWritePaths
       [js "/etc/passwd"; js "/var/mobile/a"; js "/usr/../bin/sh"]
       [js "/var/mobile"; js "/tmp"]
     = Throw (Error (js "Write path blocked by allowlist. Allowed roots: /var/mobile, /tmp. Blocked: /etc/passwd, /bin/sh")).
Proof.
  assert (Habs : Forall absolute
                   [js "/etc/passwd"; js "/var/mobile/a"; js "/usr/../bin/sh"])
    by (repeat constructor).
  split; [exact Habs|].
  destruct (ensureAllowedWritePaths_all_or_nothing
              [js "/etc/passwd"; js "/var/mobile/a"; js "/usr/../bin/sh"]
              [js "/var/mobile"; js "/tmp"] Habs)
    as [_ [Hblocked _]].
  destruct Hblocked as [-> _]; [|vm_compute; reflexivity].
  apply Exists_cons_hd.
  apply outside_roots_iff. vm_compute. reflexivity.
Defined.

(** C5 as it is stated, for every list of paths, fails on a list with a
    path that is not absolute: the normal form of the first path lies
    outside every root, and the call throws the invalid-path error of
    the second path, not the write-path-blocked error. *)
Lemma ensureAllowedWritePaths_all_or_nothing_counterexample :
  normalizeRemotePath (js "/etc/passwd") = Ok (js "/etc/passwd")
  /\ pathWithinRoots (js "/etc/passwd") [js "/var/mobile"] = false
  /\ ensureAllowedWritePaths [js "/etc/passwd"; js "var/mobile/test.txt"]
       [js "/var/mobile"]
     = Throw (Error (js "Expected absolute remote path, got: var/mobile/test.txt"))
  /\ (forall denied,
        ensureAllowedWritePaths [js "/etc/passwd"; js "var/mobile/test.txt"]
          [js "/var/mobile"]
        <> Throw (Error (js "Write path blocked by allowlist. Allowed roots: "
                         ++ join (js ", ") [js "/var/mobile"]
                         ++ js ". Blocked: "
                         ++ join (js ", ") denied))).
Proof.
  split; [reflexivity|]. split; [reflexivity|].
  assert (E : ensureAllowedWritePaths
                [js "/etc/passwd"; js "var/mobile/test.txt"] [js "/var/mobile"]
              = Throw (Error (js "Expected absolute remote path, got: var/mobile/test.txt")))
    by reflexivity.
  split; [exact E|].
  intros denied H. rewrite E in H.
  apply (f_equal (fun r => match r with
                           | Throw (Error m) => hd 0%N m
                           | Ok _ => 0%N
                           end)) in H.
  vm_compute in H. discriminate H.
Qed.

(** C10. If some element of the path list does not start with the
    separator, [ensureAllowedWritePaths] throws the error of
    [normalizeRemotePath] for the first such element, which is never a
    write-path-blocked error, and the outcome does not depend on the root
    set: no membership in the allowlist is evaluated or reported. *)
Theorem ensureAllowedWritePaths_invalid_path_first
    (ps R : list jsstring)
    (Hrel : Exists (fun p => startsWith p (js "/") = false) ps) :
  exists before v after,
    ps = before ++ v :: after
    /\ Forall absolute before
    /\ startsWith v (js "/") = false
    /\ ensureAllowedWritePaths ps R = Throw (InvalidPath v)
    /\ (forall R' denied, ensureAllowedWritePaths ps R <> Throw (WritePathBlocked R' denied))
    /\ (forall R', ensureAllowedWritePaths ps R' = ensureAllowedWritePaths ps R).
Proof.
  destruct (first_relative ps Hrel) as [before [v [after [-> [Hb Hv]]]]].
  exists before, v, after.
  assert (E : forall R0, ensureAllowedWritePaths (before ++ v :: after) R0
                         = Throw (InvalidPath v)).
  { intros R0. unfold ensureAllowedWritePaths.
    rewrite (map_normalize_first_relative before after v Hb Hv). reflexivity. }
  repeat split; auto.
  - rewrite E. intros R' denied H.
    apply (InvalidPath_not_WritePathBlocked v R' denied). congruence.
  - intros R'. rewrite !E. reflexivity.
Qed.

Lemma ensureAllowedWritePaths_invalid_path_first_example :
  ensureAllowedWritePaths [js "/etc/passwd"; js "var/mobile/test.txt"] [js "/var/mobile"]
  = Throw (Error (js "Expected absolute remote path, got: var/mobile/test.txt")).
Proof.
  assert (Hrel : Exists (fun p => startsWith p (js "/") = false)
                        [js "/etc/passwd"; js "var/mobile/test.txt"])
    by (apply Exists_cons_tl, Exists_cons_hd; reflexivity).
  destruct (ensureAllowedWritePaths_invalid_path_first
              [js "/etc/passwd"; js "var/mobile/test.txt"] [js "/var/mobile"] Hrel)
    as [before [v [after [_ [_ [_ [_ [_ Hindep]]]]]]]].
  rewrite <- (Hindep []). vm_compute. reflexivity.
Defined.

(** ** The execution entry points *)

Section DispatchFacts.

Variable ExecResult : Type.
Variable remote : transport -> jsstring -> option Z -> ExecResult.
Variable roots : list jsstring.

Let readCommand := execReadCommand ExecResult remote.
Let writeCommand := execWriteCommand ExecResult remote roots.

Lemma execReadCommand_denied c timeout t rule :
  matchDeniedPattern c = Some rule ->
  readCommand c timeout t
  = (Throw (Error (js "Blocked by denylist: " ++ reason rule)), t).
Proof.
  intros H. unfold readCommand, execReadCommand. rewrite H. reflexivity.
Qed.

Lemma execWriteCommand_denied c paths timeout t rule :
  matchDeniedPattern c = Some rule ->
  writeCommand c paths timeout t
  = (Throw (Error (js "Blocked by denylist: " ++ reason rule)), t).
Proof.
  intros H. unfold writeCommand, execWriteCommand. rewrite H. reflexivity.
Qed.

Lemma execReadCommand_write_like c timeout t :
  isLikelyWriteCommand c = true ->
  exists e, readCommand c timeout t = (Throw e, t).
Proof.
  intros H. unfold readCommand, execReadCommand.
  destruct (matchDeniedPattern c); rewrite ?H; eexists; reflexivity.
Qed.

Lemma execReadCommand_sends c timeout t :
  snd (readCommand c timeout t) <> t ->
  matchDeniedPattern c = None
  /\ isLikelyWriteCommand c = false
  /\ readCommand c timeout t
     = (Ok (remote t c timeout), t ++ [(c, timeout)]).
Proof.
  unfold readCommand, execReadCommand.
  destruct (matchDeniedPattern c); simpl; [congruence|].
  destruct (isLikelyWriteCommand c); simpl; [congruence|]. auto.
Qed.

Lemma execWriteCommand_sends c paths timeout t :
  snd (writeCommand c paths timeout t) <> t ->
  matchDeniedPattern c = None
  /\ (exists normalized, ensureAllowedWritePaths paths roots = Ok normalized)
  /\ writeCommand c paths timeout t
     = (Ok (remote t c timeout), t ++ [(c, timeout)]).
Proof.
  unfold writeCommand, execWriteCommand.
  destruct (matchDeniedPattern c); simpl; [congruence|].
  unfold bind, lift.
  destruct (ensureAllowedWritePaths paths roots); simpl; [|congruence].
  eauto.
Qed.

End DispatchFacts.

(** C2. Both entry points consult the denylist first: when
    [matchDeniedPattern c] is a rule, [execReadCommand] and, whatever the
    declared write paths and the configured roots are, [execWriteCommand]
    throw the denylist error of that rule and the transport has received
    nothing; [execReadCommand] also throws, with the transport untouched,
    when [isLikelyWriteCommand c] holds.  Conversely a call reaches the
    transport only for a command that no rule denies and, on the read-only
    entry point, that is not classified as a write. *)
Theorem denied_or_blocked_never_executes
    (ExecResult : Type) (remote : transport -> jsstring -> option Z -> ExecResult)
    (c : jsstring) (timeout : option Z) (t : transport) :
  (forall rule, matchDeniedPattern c = Some rule ->
     execReadCommand ExecResult remote c timeout t
     = (Throw (Error (js "Blocked by denylist: " ++ reason rule)), t)
     /\ forall roots writePaths,
          execWriteCommand ExecResult remote roots c writePaths timeout t
          = (Throw (Error (js "Blocked by denylist: " ++ reason rule)), t))
  /\ (isLikelyWriteCommand c = true ->
      exists e, execReadCommand ExecResult remote c timeout t = (Throw e, t))
  /\ (snd (execReadCommand ExecResult remote c timeout t) <> t ->
      matchDeniedPattern c = None /\ isLikelyWriteCommand c = false)
  /\ (forall roots writePaths,
        snd (execWriteCommand ExecResult remote roots c writePaths timeout t) <> t ->
        matchDeniedPattern c = None).
Proof.
  split; [|split; [|split]].
  - intros rule H. split.
    + apply execReadCommand_denied; exact H.
    + intros roots writePaths. apply execWriteCommand_denied; exact H.
  - apply execReadCommand_write_like.
  - intros H. destruct (execReadCommand_sends _ remote c timeout t H) as [? [? _]].
    auto.
  - intros roots writePaths H.
    destruct (execWriteCommand_sends _ remote roots c writePaths timeout t H)
      as [? _].
    auto.
Qed.

(** The denied command reboot, and the write-like command mkdir on the
    read-only entry point, on a transport that has received nothing. *)
Lemma denied_or_blocked_never_executes_example :
  execReadCommand unit (fun _ _ _ => tt) (js "reboot") None []
  = (Throw (Error (js "Blocked by denylist: Refuses remote reboot command.")), [])
  /\ execWriteCommand unit (fun _ _ _ => tt) [js "/var/mobile"] (js "reboot")
       [js "/var/mobile/a"] None []
     = (Throw (Error (js "Blocked by denylist: Refuses remote reboot command.")), [])
  /\ exists e,
       execReadCommand unit (fun _ _ _ => tt) (js "mkdir -p /var/mobile/test") None []
       = (Throw e, []).
Proof.
  destruct (denied_or_blocked_never_executes unit (fun _ _ _ => tt)
              (js "reboot") None []) as [Hdeny _].
  destruct (Hdeny (mkDenyPattern
                     (mkRegExp (seqs [WordBoundary; lit "reboot"; WordBoundary]) true)
                     (js "Refuses remote reboot command."))
                  ltac:(vm_compute; reflexivity)) as [Hr Hw].
  split; [exact Hr|]. split; [apply Hw|].
  destruct (denied_or_blocked_never_executes unit (fun _ _ _ => tt)
              (js "mkdir -p /var/mobile/test") None []) as [_ [Hwrite _]].
  apply Hwrite. vm_compute. reflexivity.
Defined.

(** ** Global replacement by a one-character pattern *)

Lemma charCodeAt_middle (pre post : jsstring) (c : code_unit) :
  charCodeAt (pre ++ c :: post) (jslength pre) = Some c.
Proof.
  unfold charCodeAt, jslength. rewrite length_app. simpl.
  destruct (Z.ltb_spec (Z.of_nat (length pre)) 0); [lia|].
  destruct (Z.leb_spec (Z.of_nat (length pre + S (length post)))
                       (Z.of_nat (length pre))); [lia|].
  simpl. rewrite Nat2Z.id, nth_error_app2 by lia.
  rewrite Nat.sub_diag. reflexivity.
Qed.

Lemma charCodeAt_end (s : jsstring) : charCodeAt s (jslength s) = None.
Proof.
  unfold charCodeAt. rewrite Z.leb_refl, orb_true_r. reflexivity.
Qed.

Lemma slice_middle (pre mid post : jsstring) :
  slice (pre ++ mid ++ post) (jslength pre) (jslength pre + jslength mid) = mid.
Proof.
  unfold slice, jslength. rewrite !length_app.
  destruct (Z.ltb_spec (Z.of_nat (length pre)) 0); [lia|].
  destruct (Z.ltb_spec (Z.of_nat (length pre) + Z.of_nat (length mid)) 0); [lia|].
  rewrite !Z.min_l by lia.
  replace (Z.to_nat (Z.of_nat (length pre))) with (length pre + 0)%nat by lia.
  rewrite skipn_app, skipn_all2 by lia.
  replace (length pre + 0 - length pre)%nat with 0%nat by lia. simpl.
  replace (Z.to_nat (Z.max (Z.of_nat (length pre) + Z.of_nat (length mid)
                            - Z.of_nat (length pre)) 0))
    with (length mid + 0)%nat by lia.
  rewrite firstn_app_2. simpl. apply app_nil_r.
Qed.

Lemma slice_one (pre post : jsstring) (c : code_unit) :
  slice (pre ++ c :: post) (jslength pre) (jslength pre + 1) = [c].
Proof. exact (slice_middle pre [c] post). Qed.

Lemma slice_past_end (s : jsstring) :
  slice s (jslength s) (jslength s + 1) = [].
Proof.
  unfold slice, jslength.
  destruct (Z.ltb_spec (Z.of_nat (length s)) 0); [lia|].
  rewrite skipn_all2 by lia. apply firstn_nil.
Qed.

Section OneCharacterPattern.

Variable re : RegExp.
Variable member : code_unit -> bool.
Variable replacement : jsstring -> jsstring.

(** The pattern matches exactly the one-character substrings whose
    character is in [member]. *)
Hypothesis match_one :
  forall input index,
    match_at re input index
    = match charCodeAt input index with
      | Some ch => if member ch then Some (index + 1) else None
      | None => None
      end.

Lemma replace_from_one_character (post pre : jsstring) (fuel : nat) :
  (length post + 2 <= fuel)%nat ->
  replace_from re replacement (pre ++ post) fuel (jslength pre)
  = flat_map (fun ch => if member ch then replacement [ch] else [ch]) post.
Proof.
  revert pre fuel. induction post as [|c post IH]; intros pre fuel Hfuel.
  - destruct fuel as [|[|fuel]]; [simpl in Hfuel; lia..|].
    rewrite app_nil_r. simpl.
    destruct (Z.ltb_spec (jslength pre) (jslength pre)); [lia|].
    rewrite match_one, charCodeAt_end, slice_past_end.
    destruct (Z.ltb_spec (jslength pre) (jslength pre + 1)); [|lia].
    reflexivity.
  - destruct fuel as [|fuel]; [simpl in Hfuel; lia|].
    simpl in Hfuel. cbn [replace_from flat_map].
    assert (Hlen : jslength (pre ++ c :: post) = jslength pre + 1 + jslength post).
    { unfold jslength. rewrite length_app. simpl. lia. }
    destruct (Z.ltb_spec (jslength (pre ++ c :: post)) (jslength pre)).
    { unfold jslength in *. lia. }
    rewrite match_one, charCodeAt_middle, slice_one.
    assert (Hnext : replace_from re replacement (pre ++ c :: post) fuel
                      (jslength pre + 1)
                    = flat_map (fun ch => if member ch then replacement [ch]
                                          else [ch]) post).
    { replace (pre ++ c :: post) with ((pre ++ [c]) ++ post)
        by (rewrite <- app_assoc; reflexivity).
      replace (jslength pre + 1) with (jslength (pre ++ [c]))
        by (unfold jslength; rewrite length_app; simpl; lia).
      apply IH. lia. }
    destruct (member c).
    + destruct (Z.eqb_spec (jslength pre + 1) (jslength pre)); [lia|].
      rewrite slice_one, Hnext. reflexivity.
    + rewrite Hnext. reflexivity.
Qed.

Lemma replace_global_one_character (input : jsstring) :
  replace_global re replacement input
  = flat_map (fun ch => if member ch then replacement [ch] else [ch]) input.
Proof.
  unfold replace_global.
  exact (replace_from_one_character input [] (length input + 2) (le_n _)).
Qed.

End OneCharacterPattern.

(** ** Shell quoting *)

Lemma quote_re_match (input : jsstring) (index : Z) :
  match_at quote_re input index
  = match charCodeAt input index with
    | Some ch => if N.eqb ch 39%N then Some (index + 1) else None
    | None => None
    end.
Proof.
  change (match_at quote_re input index)
    with (match charCodeAt input index with
          | Some ch =>
            if N.eqb (canonicalize false 39%N) (canonicalize false ch)
            then Some (index + 1) else None
          | None => None
          end).
  destruct (charCodeAt input index) as [ch|]; [|reflexivity].
  unfold canonicalize. cbn [andb]. rewrite (N.eqb_sym 39%N ch). reflexivity.
Qed.

Lemma shellQuote_requote (s : jsstring) :
  shellQuote s = 39%N :: Spec.requote_each s ++ [39%N].
Proof.
  unfold shellQuote.
  rewrite (replace_global_one_character quote_re (fun ch => N.eqb ch 39%N)
             _ quote_re_match).
  reflexivity.
Qed.

Lemma read_word_requote (s : jsstring) :
  PosixShell.read_word true (Spec.requote_each s ++ [39%N]) = Some s.
Proof.
  induction s as [|c s IH]; [reflexivity|].
  change (Spec.requote_each (c :: s))
    with ((if N.eqb c 39%N then [39%N; 92%N; 39%N; 39%N] else [c])
          ++ Spec.requote_each s).
  destruct (N.eqb_spec c 39%N) as [->|Hc].
  - simpl. simpl in IH. rewrite IH. reflexivity.
  - simpl. unfold PosixShell.SQUOTE.
    destruct (N.eqb_spec c 39%N); [contradiction|].
    simpl in IH. rewrite IH. reflexivity.
Qed.

(** C3. For every string [s], [shellQuote s] is [s] between two single
    quotes with every single quote of [s] replaced by the four characters
    quote, backslash, quote, quote; read by a POSIX shell as one word it
    yields [s] again, whatever [s] contains.  [shellQuote] of abc is abc
    between quotes, and [shellQuote] of the three characters a, quote, b is
    the eight characters quote a quote backslash quote quote b quote. *)
Theorem shellQuote_round_trip :
  (forall s : jsstring,
      shellQuote s = js "'" ++ Spec.requote_each s ++ js "'")
  /\ (forall s : jsstring,
        PosixShell.parse_single_word (shellQuote s) = Some s)
  /\ shellQuote (js "") = js "''"
  /\ shellQuote (js "abc") = js "'abc'"
  /\ shellQuote (js "a'b") = [39; 97; 39; 92; 39; 39; 98; 39]%N
  /\ PosixShell.parse_single_word
       (shellQuote ([32; 36; 96; 59; 10; 39; 92] ++ js "$(x)")%N)
     = Some ([32; 36; 96; 59; 10; 39; 92] ++ js "$(x)")%N.
Proof.
  split; [exact shellQuote_requote|].
  split; [|repeat split; vm_compute; reflexivity].
  intros s. rewrite shellQuote_requote.
  unfold PosixShell.parse_single_word.
  change (PosixShell.read_word false (39%N :: Spec.requote_each s ++ [39%N]))
    with (PosixShell.read_word true (Spec.requote_each s ++ [39%N])).
  apply read_word_requote.
Qed.

(** ** Remote-copy escaping *)

Lemma scp_class_members (ch : code_unit) :
  existsb (fun a => atom_has false a ch)
    (ClassChar 92%N :: ClassEsc esc_s :: ClassChar 34%N
     :: map ClassChar (js "'`$!#&*" ++ js "()[]{};<>?|~:"))
  = Spec.escaped_character ch.
Proof.
  apply eq_true_iff_eq.
  unfold Spec.escaped_character.
  cbn [existsb map app js list_ascii_of_string atom_has escape_has
       canonicalize andb N_of_ascii N_of_digits].
  cbv [N.add N.mul Pos.add Pos.mul Pos.succ].
  rewrite !orb_true_iff, !N.eqb_eq.
  intuition (subst; auto; try discriminate).
Qed.

Lemma scp_special_re_match (input : jsstring) (index : Z) :
  match_at scp_special_re input index
  = match charCodeAt input index with
    | Some ch => if Spec.escaped_character ch then Some (index + 1) else None
    | None => None
    end.
Proof.
  unfold match_at, scp_special_re.
  cbn [matcher pattern ignoreCase].
  destruct (charCodeAt input index) as [ch|]; [|reflexivity].
  rewrite scp_class_members. reflexivity.
Qed.

Lemma escapeScpRemotePath_escape_each (s : jsstring) :
  escapeScpRemotePath s = Spec.escape_each s.
Proof.
  unfold escapeScpRemotePath.
  rewrite (replace_global_one_character scp_special_re Spec.escaped_character
             _ scp_special_re_match).
  reflexivity.
Qed.

Lemma escape_each_unchanged (s : jsstring) :
  (forall c, In c s -> Spec.escaped_character c = false) ->
  Spec.escape_each s = s.
Proof.
  induction s as [|c s IH]; intros H; [reflexivity|].
  unfold Spec.escape_each in *. simpl.
  rewrite (H c (or_introl eq_refl)). simpl. f_equal.
  apply IH. intros x Hx. apply H. right. exact Hx.
Qed.

Lemma unescape_escape_each (s : jsstring) :
  unescape (Spec.escape_each s) = s.
Proof.
  induction s as [|c s IH]; [reflexivity|].
  unfold Spec.escape_each in *. cbn [flat_map].
  destruct (Spec.escaped_character c) eqn:E.
  - simpl. rewrite IH. reflexivity.
  - assert (Hc : N.eqb c 92%N = false).
    { destruct (N.eqb_spec c 92%N) as [->|]; [discriminate E|reflexivity]. }
    simpl. rewrite Hc, IH. reflexivity.
Qed.

(** C4. For every string [s], [escapeScpRemotePath s] is [s] with one
    backslash put before every backslash, whitespace character, double
    quote, single quote, backquote, dollar, exclamation mark, hash,
    ampersand, asterisk, parenthesis, square bracket, brace, semicolon,
    angle bracket, question mark, vertical bar, tilde and colon; every
    other character is kept as it is and no quote is put around the
    result: a string without listed characters is returned unchanged, the
    result never begins with a quote character, and dropping the inserted
    backslashes gives [s] back.  The path /tmp/file.deb is unchanged, the
    space of /tmp/my file.deb and the quote of /tmp/weird'file each get a
    backslash. *)
Theorem escapeScpRemotePath_backslash_each :
  (forall s : jsstring,
      escapeScpRemotePath s
      = flat_map (fun c => if Spec.escaped_character c then [92%N; c] else [c]) s)
  /\ (forall s : jsstring,
        (forall c, In c s -> Spec.escaped_character c = false) ->
        escapeScpRemotePath s = s)
  /\ (forall (s rest : jsstring) (c : code_unit),
        escapeScpRemotePath s = c :: rest -> c <> 39%N /\ c <> 34%N)
  /\ (forall s : jsstring, unescape (escapeScpRemotePath s) = s)
  /\ escapeScpRemotePath (js "/tmp/file.deb") = js "/tmp/file.deb"
  /\ escapeScpRemotePath (js "/tmp/my file.deb") = js "/tmp/my\ file.deb"
  /\ escapeScpRemotePath (js "/tmp/weird'file") = js "/tmp/weird\'file".
Proof.
  split; [exact escapeScpRemotePath_escape_each|].
  split; [intros s H; rewrite escapeScpRemotePath_escape_each;
          apply escape_each_unchanged; exact H|].
  split; [|split; [intros s; rewrite escapeScpRemotePath_escape_each;
                   apply unescape_escape_each
                  |repeat split; vm_compute; reflexivity]].
  intros s rest c. rewrite escapeScpRemotePath_escape_each.
  destruct s as [|x s]; [discriminate|].
  unfold Spec.escape_each. cbn [flat_map].
  destruct (Spec.escaped_character x) eqn:E; simpl; intros H; inversion H; subst.
  - split; discriminate.
  - split; intros ->; vm_compute in E; discriminate.
Qed.

(** ** Lexical resolution: the components kept so far *)

Lemma jslength_app (a b : jsstring) : jslength (a ++ b) = jslength a + jslength b.
Proof. unfold jslength. rewrite length_app. lia. Qed.

Lemma jslength_nonneg (a : jsstring) : 0 <= jslength a.
Proof. unfold jslength. lia. Qed.

Lemma jslength_zero (a : jsstring) : jslength a = 0 <-> a = [].
Proof.
  unfold jslength. destruct a; simpl; split; intros H; try reflexivity;
    try discriminate; lia.
Qed.

Lemma join_snoc (sep : jsstring) (l : list jsstring) (x : jsstring) :
  l <> [] -> join sep (l ++ [x]) = join sep l ++ sep ++ x.
Proof.
  induction l as [|a l IH]; intros H; [congruence|].
  destruct l as [|b l]; [reflexivity|].
  change (join sep ((a :: b :: l) ++ [x]))
    with (a ++ sep ++ join sep ((b :: l) ++ [x])).
  rewrite IH by discriminate.
  change (join sep (a :: b :: l)) with (a ++ sep ++ join sep (b :: l)).
  rewrite <- !app_assoc. reflexivity.
Qed.

Lemma joined_one (top : jsstring) : joined [top] = top.
Proof. reflexivity. Qed.

Lemma joined_more (top b : jsstring) (bs : list jsstring) :
  joined (top :: b :: bs) = joined (b :: bs) ++ CHAR_FORWARD_SLASH :: top.
Proof.
  unfold joined. cbn [rev].
  rewrite (join_snoc [CHAR_FORWARD_SLASH] (rev bs ++ [b]) top).
  - reflexivity.
  - destruct (rev bs); discriminate.
Qed.

Lemma joined_length_pos (b : jsstring) (bs : list jsstring) :
  Forall stored (b :: bs) -> 0 < jslength (joined (b :: bs)).
Proof.
  intros H. inversion H as [|? ? [Hb _] _]; subst.
  assert (0 < jslength b).
  { pose proof (jslength_nonneg b). pose proof (jslength_zero b).
    destruct (Z.eq_dec (jslength b) 0); [tauto|lia]. }
  destruct bs as [|c bs].
  - rewrite joined_one. assumption.
  - rewrite joined_more, jslength_app.
    pose proof (jslength_nonneg (joined (c :: bs))).
    unfold jslength at 2. simpl length. unfold jslength in *. lia.
Qed.

Lemma lastIndexOf_from_app (s r : jsstring) (c : code_unit) (i found : Z) :
  lastIndexOf_from (s ++ r) c i found
  = lastIndexOf_from r c (i + jslength s) (lastIndexOf_from s c i found).
Proof.
  revert i found. induction s as [|x s IH]; intros i found; simpl.
  - unfold jslength. simpl. rewrite Z.add_0_r. reflexivity.
  - rewrite IH. f_equal. unfold jslength. simpl length. lia.
Qed.

Lemma lastIndexOf_from_absent (s : jsstring) (c : code_unit) (i found : Z) :
  ~ In c s -> lastIndexOf_from s c i found = found.
Proof.
  revert i found. induction s as [|x s IH]; intros i found H; simpl.
  - reflexivity.
  - destruct (N.eqb_spec x c) as [->|_].
    + exfalso. apply H. left. reflexivity.
    + apply IH. intros Hin. apply H. right. exact Hin.
Qed.

Lemma lastIndexOf_absent (s : jsstring) (c : code_unit) :
  ~ In c s -> lastIndexOf s c = -1.
Proof. apply lastIndexOf_from_absent. Qed.

Lemma lastIndexOf_last (s t : jsstring) (c : code_unit) :
  ~ In c t -> lastIndexOf (s ++ c :: t) c = jslength s.
Proof.
  intros H. unfold lastIndexOf. rewrite lastIndexOf_from_app. simpl.
  rewrite N.eqb_refl. rewrite lastIndexOf_from_absent by exact H. lia.
Qed.

Lemma slice_prefix (a b : jsstring) : slice (a ++ b) 0 (jslength a) = a.
Proof. exact (slice_middle [] a b). Qed.

Lemma charCodeAt_last (a : jsstring) (y : code_unit) :
  charCodeAt (a ++ [y]) (jslength (a ++ [y]) - 1) = Some y.
Proof.
  replace (jslength (a ++ [y]) - 1) with (jslength a).
  - apply charCodeAt_middle.
  - rewrite jslength_app. unfold jslength. simpl. lia.
Qed.

Lemma charCodeAt_before_last (a : jsstring) (x y : code_unit) :
  charCodeAt (a ++ [x; y]) (jslength (a ++ [x; y]) - 2) = Some x.
Proof.
  replace (jslength (a ++ [x; y]) - 2) with (jslength a).
  - apply charCodeAt_middle.
  - rewrite jslength_app. unfold jslength. simpl. lia.
Qed.

Lemma all_dots_snoc (seg : jsstring) (c : code_unit) :
  all_dots (seg ++ [c]) = all_dots seg && N.eqb CHAR_DOT c.
Proof.
  unfold all_dots. rewrite forallb_app. simpl. rewrite andb_true_r.
  reflexivity.
Qed.

Lemma dots_count_snoc (seg : jsstring) (c : code_unit) :
  dots_count (seg ++ [c])
  = if N.eqb c CHAR_DOT && negb (dots_count seg =? -1)
    then dots_count seg + 1 else -1.
Proof.
  unfold dots_count. rewrite all_dots_snoc, jslength_app.
  rewrite (N.eqb_sym CHAR_DOT c).
  pose proof (jslength_nonneg seg).
  destruct (all_dots seg), (N.eqb c CHAR_DOT); simpl; try reflexivity.
  destruct (Z.eqb_spec (jslength seg) (-1)); [lia|reflexivity].
Qed.

Lemma all_dots_cons (a : code_unit) (seg : jsstring) :
  all_dots (a :: seg) = true <-> a = CHAR_DOT /\ all_dots seg = true.
Proof.
  unfold all_dots. cbn [forallb]. rewrite andb_true_iff, N.eqb_eq.
  intuition congruence.
Qed.

Lemma dots_count_one (seg : jsstring) : dots_count seg = 1 <-> seg = js ".".
Proof.
  split; [|intros ->; reflexivity].
  unfold dots_count. destruct (all_dots seg) eqn:E; [|discriminate].
  intros H. destruct seg as [|a [|b seg]]; unfold jslength in H;
    cbn [length] in H; try lia.
  apply all_dots_cons in E as [-> _]. reflexivity.
Qed.

Lemma dots_count_two (seg : jsstring) : dots_count seg = 2 <-> seg = js "..".
Proof.
  split; [|intros ->; reflexivity].
  unfold dots_count. destruct (all_dots seg) eqn:E; [|discriminate].
  intros H. destruct seg as [|a [|b [|c seg]]]; unfold jslength in H;
    cbn [length] in H; try lia.
  apply all_dots_cons in E as [-> E].
  apply all_dots_cons in E as [-> _]. reflexivity.
Qed.

Lemma is_dot_true (seg : jsstring) : Spec.is_dot seg = true <-> seg = js ".".
Proof. apply jsstring_eqb_eq. Qed.

Lemma is_dotdot_true (seg : jsstring) : Spec.is_dotdot seg = true <-> seg = js "..".
Proof. apply jsstring_eqb_eq. Qed.

(** ** The loop of [normalizeString] against lexical resolution *)

Lemma joined_top (top : jsstring) (below : list jsstring) :
  exists a, joined (top :: below) = a ++ top
            /\ (below = [] -> a = [])
            /\ (below <> [] -> a = joined below ++ [CHAR_FORWARD_SLASH]).
Proof.
  destruct below as [|b bs].
  - exists []. repeat split; auto. congruence.
  - exists (joined (b :: bs) ++ [CHAR_FORWARD_SLASH]).
    rewrite joined_more, <- app_assoc. repeat split; auto. congruence.
Qed.

Lemma last_is_dotdot_top (v : vars) (top : jsstring) (below : list jsstring) :
  res v = joined (top :: below) ->
  lastSegmentLength v = jslength top ->
  last_is_dotdot v = Spec.is_dotdot top.
Proof.
  intros Hres Hlen. unfold last_is_dotdot. rewrite Hres, Hlen.
  destruct (joined_top top below) as [a [-> _]].
  destruct top as [|x [|y [|z top]]].
  - change (jslength [] =? 2) with false. cbn [negb].
    rewrite orb_true_r. reflexivity.
  - change (jslength [x] =? 2) with false. cbn [negb].
    rewrite orb_true_r. cbn [orb negb].
    unfold Spec.is_dotdot. cbn [jsstring_eqb js map list_ascii_of_string].
    rewrite andb_false_r. reflexivity.
  - rewrite charCodeAt_before_last.
    replace (a ++ [x; y]) with ((a ++ [x]) ++ [y]) at 2 3
      by (rewrite <- app_assoc; reflexivity).
    rewrite charCodeAt_last.
    assert (Hl : (jslength (a ++ [x; y]) <? 2) = false).
    { apply Z.ltb_ge. rewrite jslength_app. pose proof (jslength_nonneg a).
      unfold jslength at 2. simpl. lia. }
    rewrite Hl. change (jslength [x; y] =? 2) with true.
    unfold Spec.is_dotdot, code_is. cbn [jsstring_eqb js map list_ascii_of_string negb orb].
    change (N_of_ascii "."%char) with CHAR_DOT.
    rewrite andb_true_r.
    destruct (N.eqb x CHAR_DOT), (N.eqb y CHAR_DOT); reflexivity.
  - assert (Hl : (jslength (x :: y :: z :: top) =? 2) = false).
    { apply Z.eqb_neq. unfold jslength. simpl length. lia. }
    rewrite Hl. cbn [negb]. rewrite orb_true_r. simpl.
    unfold Spec.is_dotdot. cbn [jsstring_eqb js map list_ascii_of_string].
    rewrite !andb_false_r. reflexivity.
Qed.

Lemma stored_dotdot : stored (js "..").
Proof.
  split; [discriminate|]. intros [H|[H|[]]]; discriminate.
Qed.

(** Removing the last component of [res], the first two inner branches of
    the [dots === 2] case. *)
Lemma pop_component (v fallback : vars) (top : jsstring)
    (below : list jsstring) (i : Z) (c : code_unit) :
  res v = joined (top :: below) ->
  Forall stored (top :: below) ->
  (if 2 <? jslength (res v) then
     if lastIndexOf (res v) CHAR_FORWARD_SLASH =? -1 then mkVars [] 0 i 0 c
     else
       mkVars (slice (res v) 0 (lastIndexOf (res v) CHAR_FORWARD_SLASH))
              (jslength (slice (res v) 0 (lastIndexOf (res v) CHAR_FORWARD_SLASH))
               - 1
               - lastIndexOf
                   (slice (res v) 0 (lastIndexOf (res v) CHAR_FORWARD_SLASH))
                   CHAR_FORWARD_SLASH)
              i 0 c
   else if negb (jslength (res v) =? 0) then mkVars [] 0 i 0 c
   else fallback)
  = mkVars (joined below) (top_length below) i 0 c.
Proof.
  intros Hres Hst. rewrite Hres.
  inversion Hst as [|? ? [Htop Hslash] Hbelow]; subst.
  assert (Hpos : 0 < jslength top).
  { pose proof (jslength_nonneg top). pose proof (jslength_zero top).
    destruct (Z.eq_dec (jslength top) 0); [tauto|lia]. }
  destruct below as [|b bs].
  - rewrite joined_one, (lastIndexOf_absent top _ Hslash).
    destruct (2 <? jslength top); [reflexivity|].
    destruct (Z.eqb_spec (jslength top) 0); [lia|reflexivity].
  - rewrite joined_more.
    pose proof (joined_length_pos b bs Hbelow) as Hb.
    rewrite (lastIndexOf_last _ top _ Hslash).
    rewrite jslength_app.
    assert (Hcons : jslength (CHAR_FORWARD_SLASH :: top) = 1 + jslength top)
      by (unfold jslength; simpl length; lia).
    rewrite Hcons.
    destruct (Z.ltb_spec 2 (jslength (joined (b :: bs)) + (1 + jslength top)));
      [|lia].
    destruct (Z.eqb_spec (jslength (joined (b :: bs))) (-1)); [lia|].
    rewrite slice_prefix. f_equal.
    inversion Hbelow as [|? ? [_ Hbslash] _]; subst.
    destruct bs as [|b2 bs2].
    + rewrite joined_one, (lastIndexOf_absent b _ Hbslash). simpl. lia.
    + rewrite joined_more, (lastIndexOf_last _ b _ Hbslash), jslength_app.
      unfold jslength at 2. simpl length. unfold top_length, jslength. lia.
Qed.

Lemma jslength_before_separator (pre cur : jsstring) (c : code_unit) :
  jslength (pre ++ cur ++ [c]) - 1 = jslength pre + jslength cur.
Proof. rewrite !jslength_app. unfold jslength at 3. simpl. lia. Qed.

Ltac rep_fields :=
  constructor; cbn [res lastSegmentLength lastSlash dots code];
  rewrite ?jslength_before_separator;
  auto; try (intros []); try reflexivity; try lia.

Lemma normalizeString_step_separator
    (path : jsstring) (allow : bool) (v : vars)
    (kept : list jsstring) (cur pre post : jsstring) :
  path = pre ++ cur ++ post ->
  rep kept cur pre v ->
  rep (Spec.resolve_step allow kept cur) []
      (pre ++ cur ++ [CHAR_FORWARD_SLASH])
      (normalizeString_step path allow (jslength pre + jslength cur) v
         CHAR_FORWARD_SLASH).
Proof.
  intros Hpath [Hres Hlen Hst Hsl Hd Hcur _].
  unfold normalizeString_step.
  cbn [res lastSegmentLength lastSlash dots code].
  change (isPosixPathSeparator CHAR_FORWARD_SLASH) with true. cbv iota.
  rewrite Hsl, Hd.
  pose proof (jslength_nonneg cur) as Hnn.
  destruct cur as [|c0 cur'] eqn:Ecur.
  { (* an empty segment *)
    change (jslength []) with 0 in *. rewrite Z.add_0_r, Z.eqb_refl.
    cbn [orb Spec.resolve_step].
    rep_fields. change (jslength []) with 0. lia. }
  rewrite <- Ecur in *.
  assert (Hlenpos : 0 < jslength cur).
  { rewrite Ecur. unfold jslength. simpl length. lia. }
  destruct (Z.eqb_spec (jslength pre - 1) (jslength pre + jslength cur - 1));
    [lia|].
  assert (Hstep : Spec.resolve_step allow kept cur
                  = if Spec.is_dot cur then kept
                    else if Spec.is_dotdot cur then
                      match kept with
                      | top :: below =>
                        if Spec.is_dotdot top
                        then (if allow then cur :: kept else kept)
                        else below
                      | [] => if allow then [cur] else []
                      end
                    else cur :: kept).
  { rewrite Ecur. reflexivity. }
  rewrite Hstep. clear Hstep. cbn [orb].
  destruct (Z.eqb_spec (dots_count cur) 1) as [H1|H1].
  { (* the segment is a single dot *)
    apply dots_count_one in H1. rewrite (proj2 (is_dot_true cur) H1).
    rep_fields. }
  assert (Hnd : Spec.is_dot cur = false).
  { destruct (Spec.is_dot cur) eqn:E; [|reflexivity].
    apply is_dot_true, dots_count_one in E. contradiction. }
  rewrite Hnd.
  destruct (Z.eqb_spec (dots_count cur) 2) as [H2|H2].
  - (* the segment is two dots *)
    apply dots_count_two in H2. rewrite (proj2 (is_dotdot_true cur) H2).
    destruct kept as [|top below].
    + rewrite Hres.
      change (jslength (joined []) <? 2) with true.
      change (2 <? jslength (joined [])) with false.
      change (jslength (joined []) =? 0) with true.
      cbn [orb negb]. unfold above_root.
      cbn [res lastSegmentLength lastSlash dots code]. rewrite ?Hres.
      change (0 <? jslength (joined [])) with false. cbv iota.
      rewrite H2.
      destruct allow; rep_fields.
      repeat constructor; apply stored_dotdot.
    + match goal with
      | |- context [if ?b then (if 2 <? _ then _ else _) else _] =>
        assert (Hb : b = negb (last_is_dotdot v))
          by (unfold last_is_dotdot; rewrite negb_involutive; reflexivity);
        rewrite Hb; clear Hb
      end.
      rewrite (last_is_dotdot_top v top below Hres Hlen).
      destruct (Spec.is_dotdot top) eqn:Etop; cbn [negb].
      * unfold above_root. cbn [res lastSegmentLength lastSlash dots code].
        rewrite H2, Hres.
        pose proof (joined_length_pos top below Hst).
        destruct (Z.ltb_spec 0 (jslength (joined (top :: below)))); [|lia].
        destruct allow; rep_fields.
        -- rewrite (joined_more (js "..") top below). reflexivity.
        -- constructor; [apply stored_dotdot|exact Hst].
      * cbv zeta.
        rewrite (pop_component v _ top below _ CHAR_FORWARD_SLASH Hres Hst).
        inversion Hst; subst. rep_fields.
  - (* an ordinary segment *)
    assert (Hndd : Spec.is_dotdot cur = false).
    { destruct (Spec.is_dotdot cur) eqn:E; [|reflexivity].
      apply is_dotdot_true, dots_count_two in E. contradiction. }
    rewrite Hndd.
    replace (jslength pre - 1 + 1) with (jslength pre) by lia.
    cbv zeta.
    rewrite Hpath, slice_middle, Hres.
    assert (Hnew : Forall stored (cur :: kept)).
    { constructor; [|exact Hst]. split; [|exact Hcur].
      rewrite Ecur. discriminate. }
    destruct kept as [|b bs].
    + change (0 <? jslength (joined [])) with false. cbv iota. rep_fields.
      cbn [top_length]. lia.
    + pose proof (joined_length_pos b bs Hst).
      destruct (Z.ltb_spec 0 (jslength (joined (b :: bs)))); [|lia].
      rep_fields.
      * rewrite joined_more. reflexivity.
      * cbn [top_length]. lia.
Qed.

Lemma normalizeString_step_other
    (path : jsstring) (allow : bool) (i : Z) (v : vars)
    (kept : list jsstring) (cur pre : jsstring) (c : code_unit) :
  c <> CHAR_FORWARD_SLASH ->
  rep kept cur pre v ->
  rep kept (cur ++ [c]) pre (normalizeString_step path allow i v c).
Proof.
  intros Hc [Hres Hlen Hst Hsl Hd Hcur _].
  assert (Hsep : isPosixPathSeparator c = false).
  { unfold isPosixPathSeparator. apply N.eqb_neq. exact Hc. }
  unfold normalizeString_step.
  cbn [res lastSegmentLength lastSlash dots code].
  rewrite Hsep, Hd.
  assert (Hin : ~ In CHAR_FORWARD_SLASH (cur ++ [c])).
  { intros H. apply in_app_or in H as [H|[H|[]]]; [auto|congruence]. }
  pose proof (dots_count_snoc cur c) as Hsnoc.
  destruct (N.eqb c CHAR_DOT && negb (dots_count cur =? -1));
    constructor; cbn [res lastSegmentLength lastSlash dots code]; auto;
    intros H; congruence.
Qed.

Lemma components_plain (seg : jsstring) :
  ~ In Spec.SLASH seg -> Spec.components seg = [seg].
Proof.
  induction seg as [|c seg IH]; intros H; [reflexivity|].
  cbn [Spec.components].
  destruct (N.eqb_spec c Spec.SLASH) as [->|_].
  - exfalso. apply H. left. reflexivity.
  - rewrite IH; [reflexivity|]. intros Hin. apply H. right. exact Hin.
Qed.

Lemma components_separator (seg rest : jsstring) :
  ~ In Spec.SLASH seg ->
  Spec.components (seg ++ Spec.SLASH :: rest) = seg :: Spec.components rest.
Proof.
  induction seg as [|c seg IH]; intros H.
  - reflexivity.
  - cbn [Spec.components app].
    destruct (N.eqb_spec c Spec.SLASH) as [->|_].
    + exfalso. apply H. left. reflexivity.
    + rewrite IH; [reflexivity|]. intros Hin. apply H. right. exact Hin.
Qed.

Lemma nth_middle_Z (pre post : jsstring) (c : code_unit) :
  nth (Z.to_nat (jslength pre)) (pre ++ c :: post) 0%N = c.
Proof.
  unfold jslength. rewrite Nat2Z.id. apply nth_middle.
Qed.

Lemma for_indices_resolves (path : jsstring) (allow : bool) (post : jsstring) :
  forall (pre cur : jsstring) (kept : list jsstring) (v : vars),
    path = pre ++ cur ++ post ->
    rep kept cur pre v ->
    res (for_indices path allow
           (map Z.of_nat (seq (length pre + length cur) (S (length post)))) v)
    = joined (fold_left (Spec.resolve_step allow)
                        (Spec.components (cur ++ post)) kept).
Proof.
  induction post as [|c post IH]; intros pre cur kept v Hpath Hrep.
  - cbn [length seq map for_indices]. unfold normalizeString_body.
    assert (Hi : Z.of_nat (length pre + length cur) = jslength path).
    { rewrite Hpath, app_nil_r. unfold jslength. rewrite length_app. lia. }
    rewrite Hi, Z.ltb_irrefl, app_nil_r.
    destruct (isPosixPathSeparator (code v)) eqn:Ecode.
    + rewrite (rep_code _ _ _ _ Hrep Ecode). cbn.
      apply (rep_res _ _ _ _ Hrep).
    + rewrite (components_plain cur (rep_cur _ _ _ _ Hrep)).
      cbn [fold_left].
      replace (jslength path) with (jslength pre + jslength cur)
        by (rewrite <- Hi; unfold jslength; lia).
      apply (rep_res _ _ _ _
               (normalizeString_step_separator path allow v kept cur pre []
                  Hpath Hrep)).
  - cbn [length]. rewrite <- cons_seq. cbn [map for_indices].
    unfold normalizeString_body.
    assert (Hi : Z.of_nat (length pre + length cur) = jslength (pre ++ cur)).
    { unfold jslength. rewrite length_app. reflexivity. }
    assert (Hlt : (Z.of_nat (length pre + length cur) <? jslength path) = true).
    { apply Z.ltb_lt. rewrite Hpath. unfold jslength. rewrite !length_app.
      simpl length. lia. }
    rewrite Hlt, Hi.
    assert (Hnth : nth (Z.to_nat (jslength (pre ++ cur))) path 0%N = c).
    { rewrite Hpath, app_assoc. apply nth_middle_Z. }
    rewrite Hnth.
    destruct (N.eqb_spec c CHAR_FORWARD_SLASH) as [->|Hc].
    + rewrite jslength_app.
      pose proof (normalizeString_step_separator path allow v kept cur pre
                    (CHAR_FORWARD_SLASH :: post) Hpath Hrep) as Hnext.
      pose proof (components_separator cur post (rep_cur _ _ _ _ Hrep)) as Hsplit.
      change Spec.SLASH with CHAR_FORWARD_SLASH in Hsplit.
      rewrite Hsplit. cbn [fold_left].
      specialize (IH (pre ++ cur ++ [CHAR_FORWARD_SLASH]) [] _ _
                     ltac:(rewrite Hpath, <- !app_assoc; reflexivity) Hnext).
      rewrite !length_app in IH. cbn [length app] in IH.
      replace (length pre + (length cur + 1) + 0)%nat
        with (S (length pre + length cur)) in IH by lia.
      exact IH.
    + pose proof (normalizeString_step_other path allow
                    (jslength (pre ++ cur)) v kept cur pre c Hc Hrep) as Hnext.
      specialize (IH pre (cur ++ [c]) kept _
                     ltac:(rewrite Hpath, <- !app_assoc; reflexivity) Hnext).
      rewrite length_app in IH. cbn [length] in IH.
      replace (length pre + (length cur + 1))%nat
        with (S (length pre + length cur)) in IH by lia.
      rewrite <- app_assoc in IH. exact IH.
Qed.

(** The loop keeps exactly the lexically resolved components. *)
Lemma normalizeString_resolves (path : jsstring) (allow : bool) :
  normalizeString path allow
  = join [Spec.SLASH] (Spec.resolve allow (Spec.components path)).
Proof.
  unfold normalizeString, indices_upto.
  apply (for_indices_resolves path allow path [] [] []); [reflexivity|].
  constructor; cbn; auto.
Qed.

(** ** [path.posix.normalize] on absolute paths *)

Lemma components_no_separator (p : jsstring) :
  Forall no_separator (Spec.components p).
Proof.
  induction p as [|c p IH]; cbn [Spec.components].
  - constructor; [intros []|constructor].
  - destruct (N.eqb_spec c Spec.SLASH) as [->|Hc].
    + constructor; [intros []|exact IH].
    + destruct (Spec.components p) as [|seg segs].
      * constructor; [|constructor]. intros [H|[]]. congruence.
      * inversion IH; subst. constructor; [|assumption].
        intros [H|H]; [congruence|contradiction].
Qed.

Lemma plain_stored (seg : jsstring) : Spec.plain_component seg -> stored seg.
Proof. intros [H1 [_ [_ H2]]]. split; assumption. Qed.

Lemma resolve_step_plain (kept : list jsstring) (seg : jsstring) :
  Forall Spec.plain_component kept ->
  no_separator seg ->
  Forall Spec.plain_component (Spec.resolve_step false kept seg).
Proof.
  intros Hk Hs. unfold Spec.resolve_step.
  destruct seg as [|c seg]; [exact Hk|].
  destruct (Spec.is_dot (c :: seg)) eqn:Ed; [exact Hk|].
  destruct (Spec.is_dotdot (c :: seg)) eqn:Edd.
  - destruct kept as [|top below]; [constructor|].
    destruct (Spec.is_dotdot top); [exact Hk|].
    inversion Hk; assumption.
  - constructor; [|exact Hk]. repeat split.
    + discriminate.
    + intros H. apply is_dot_true in H. congruence.
    + intros H. apply is_dotdot_true in H. congruence.
    + exact Hs.
Qed.

Lemma fold_resolve_plain (segs : list jsstring) :
  forall kept,
    Forall Spec.plain_component kept ->
    Forall no_separator segs ->
    Forall Spec.plain_component
           (fold_left (Spec.resolve_step false) segs kept).
Proof.
  induction segs as [|seg segs IH]; intros kept Hk Hs; [exact Hk|].
  inversion Hs; subst. cbn [fold_left].
  apply IH; [apply resolve_step_plain|]; assumption.
Qed.

Lemma resolve_plain (p : jsstring) :
  Forall Spec.plain_component (Spec.resolve false (Spec.components p)).
Proof.
  unfold Spec.resolve. apply Forall_rev.
  apply fold_resolve_plain; [constructor|apply components_no_separator].
Qed.

Lemma join_length_pos (kept : list jsstring) :
  Forall stored kept -> kept <> [] -> 0 < jslength (join [Spec.SLASH] kept).
Proof.
  intros Hst Hne.
  assert (H : Forall stored (rev kept)) by (apply Forall_rev; exact Hst).
  destruct (rev kept) as [|top below] eqn:E.
  - apply (f_equal (@rev _)) in E. rewrite rev_involutive in E.
    simpl in E. contradiction.
  - pose proof (joined_length_pos top below H) as Hpos.
    unfold joined in Hpos. rewrite <- E, rev_involutive in Hpos. exact Hpos.
Qed.

Lemma trailing_separator (p : jsstring) :
  code_is (charCodeAt p (jslength p - 1)) CHAR_FORWARD_SLASH
  = Spec.ends_with_slash p.
Proof.
  unfold Spec.ends_with_slash.
  destruct p as [|c p] using rev_ind; [reflexivity|].
  rewrite charCodeAt_last, rev_app_distr. reflexivity.
Qed.

Lemma absolute_cons (p : jsstring) :
  absolute p <-> exists rest, p = CHAR_FORWARD_SLASH :: rest.
Proof. unfold absolute. rewrite startsWith_prefix. reflexivity. Qed.

(** On an absolute path Node's function computes the lexical resolution. *)
Lemma normalize_absolute (p : jsstring) :
  absolute p -> normalize p = Spec.resolve_absolute p.
Proof.
  intros Habs. apply absolute_cons in Habs as [rest ->].
  unfold normalize, Spec.resolve_absolute.
  rewrite trailing_separator.
  change (jslength (CHAR_FORWARD_SLASH :: rest) =? 0)
    with (Z.pos (Pos.of_succ_nat (length rest)) =? 0).
  cbn [Z.eqb]. cbv iota.
  change (code_is (charCodeAt (CHAR_FORWARD_SLASH :: rest) 0) CHAR_FORWARD_SLASH)
    with true.
  cbn [negb]. rewrite normalizeString_resolves.
  pose proof (resolve_plain (CHAR_FORWARD_SLASH :: rest)) as Hplain.
  destruct (Spec.resolve false (Spec.components (CHAR_FORWARD_SLASH :: rest)))
    as [|k ks] eqn:E.
  - reflexivity.
  - assert (Hpos : 0 < jslength (join [Spec.SLASH] (k :: ks))).
    { apply join_length_pos; [|discriminate].
      eapply Forall_impl; [|exact Hplain]. apply plain_stored. }
    destruct (Z.eqb_spec (jslength (join [Spec.SLASH] (k :: ks))) 0); [lia|].
    destruct (Spec.ends_with_slash (CHAR_FORWARD_SLASH :: rest)).
    + reflexivity.
    + rewrite app_nil_r. reflexivity.
Qed.

(** ** Resolving a resolved path again *)

Lemma components_join (kept : list jsstring) :
  kept <> [] ->
  Forall no_separator kept ->
  Spec.components (join [Spec.SLASH] kept) = kept
  /\ forall rest,
       Spec.components (join [Spec.SLASH] kept ++ Spec.SLASH :: rest)
       = kept ++ Spec.components rest.
Proof.
  induction kept as [|k ks IH]; intros Hne Hns; [congruence|].
  inversion Hns as [|? ? Hk Hks]; subst.
  destruct ks as [|k2 ks].
  - cbn [join app]. split.
    + apply components_plain. exact Hk.
    + intros rest. apply components_separator. exact Hk.
  - destruct (IH ltac:(discriminate) Hks) as [IH1 IH2].
    change (join [Spec.SLASH] (k :: k2 :: ks))
      with (k ++ [Spec.SLASH] ++ join [Spec.SLASH] (k2 :: ks)).
    split.
    + change (k ++ [Spec.SLASH] ++ join [Spec.SLASH] (k2 :: ks))
        with (k ++ Spec.SLASH :: join [Spec.SLASH] (k2 :: ks)).
      rewrite (components_separator k _ Hk), IH1. reflexivity.
    + intros rest. rewrite <- !app_assoc.
      change (k ++ [Spec.SLASH] ++ join [Spec.SLASH] (k2 :: ks)
                ++ Spec.SLASH :: rest)
        with (k ++ Spec.SLASH
                :: (join [Spec.SLASH] (k2 :: ks) ++ Spec.SLASH :: rest)).
      rewrite (components_separator k _ Hk), IH2. reflexivity.
Qed.

Lemma resolve_step_keeps_plain (kept : list jsstring) (seg : jsstring) :
  Spec.plain_component seg ->
  Spec.resolve_step false kept seg = seg :: kept.
Proof.
  intros [H1 [H2 [H3 _]]]. unfold Spec.resolve_step.
  destruct seg as [|c seg]; [congruence|].
  destruct (Spec.is_dot (c :: seg)) eqn:Ed.
  { apply is_dot_true in Ed. congruence. }
  destruct (Spec.is_dotdot (c :: seg)) eqn:Edd.
  { apply is_dotdot_true in Edd. congruence. }
  reflexivity.
Qed.

Lemma fold_resolve_keeps_plain (segs : list jsstring) :
  forall kept,
    Forall Spec.plain_component segs ->
    fold_left (Spec.resolve_step false) segs kept = rev segs ++ kept.
Proof.
  induction segs as [|seg segs IH]; intros kept H; [reflexivity|].
  inversion H; subst. cbn [fold_left rev].
  rewrite resolve_step_keeps_plain by assumption.
  rewrite IH by assumption. rewrite <- app_assoc. reflexivity.
Qed.

Lemma fold_resolve_app (allow : bool) (a b kept : list jsstring) :
  fold_left (Spec.resolve_step allow) (a ++ b) kept
  = fold_left (Spec.resolve_step allow) b
      (fold_left (Spec.resolve_step allow) a kept).
Proof. apply fold_left_app. Qed.

Lemma join_last_not_separator (kept : list jsstring) :
  kept <> [] ->
  Forall stored kept ->
  exists a y, join [Spec.SLASH] kept = a ++ [y] /\ y <> Spec.SLASH.
Proof.
  induction kept as [|k ks IH]; intros Hne Hst; [congruence|].
  inversion Hst as [|? ? [Hk Hslash] Hks]; subst.
  destruct ks as [|k2 ks].
  - cbn [join]. destruct k as [|c k] using rev_ind; [congruence|].
    exists k, c. split; [reflexivity|].
    intros ->. apply Hslash. apply in_or_app. right. left. reflexivity.
  - destruct (IH ltac:(discriminate) Hks) as [a [y [E Hy]]].
    exists (k ++ [Spec.SLASH] ++ a), y. split; [|exact Hy].
    change (join [Spec.SLASH] (k :: k2 :: ks))
      with (k ++ [Spec.SLASH] ++ join [Spec.SLASH] (k2 :: ks)).
    rewrite E, <- !app_assoc. reflexivity.
Qed.

Lemma ends_with_slash_snoc (a : jsstring) (y : code_unit) :
  Spec.ends_with_slash (a ++ [y]) = N.eqb y Spec.SLASH.
Proof. unfold Spec.ends_with_slash. rewrite rev_app_distr. reflexivity. Qed.

Lemma resolve_absolute_idempotent (p : jsstring) :
  Spec.resolve_absolute (Spec.resolve_absolute p) = Spec.resolve_absolute p.
Proof.
  unfold Spec.resolve_absolute at 2 3.
  pose proof (resolve_plain p) as Hplain.
  destruct (Spec.resolve false (Spec.components p)) as [|k ks] eqn:E.
  - reflexivity.
  - set (kept := k :: ks) in *.
    assert (Hne : kept <> []) by discriminate.
    assert (Hns : Forall no_separator kept).
    { eapply Forall_impl; [|exact Hplain]. intros seg [_ [_ [_ H]]]. exact H. }
    assert (Hst : Forall stored kept).
    { eapply Forall_impl; [|exact Hplain]. apply plain_stored. }
    destruct (components_join kept Hne Hns) as [C1 C2].
    destruct (join_last_not_separator kept Hne Hst) as [a [y [Ej Hy]]].
    unfold Spec.resolve_absolute.
    destruct (Spec.ends_with_slash p).
    + (* the trailing separator is kept *)
      assert (Hc : Spec.components (Spec.SLASH :: join [Spec.SLASH] kept ++ [Spec.SLASH])
                   = [] :: kept ++ [[]]).
      { cbn [Spec.components]. rewrite N.eqb_refl. rewrite C2. reflexivity. }
      rewrite Hc. unfold Spec.resolve. cbn [fold_left Spec.resolve_step].
      rewrite fold_resolve_app, (fold_resolve_keeps_plain kept [] Hplain).
      cbn [fold_left Spec.resolve_step]. rewrite app_nil_r, rev_involutive.
      assert (He : Spec.ends_with_slash
                     (Spec.SLASH :: join [Spec.SLASH] kept ++ [Spec.SLASH]) = true).
      { rewrite app_comm_cons, ends_with_slash_snoc. apply N.eqb_refl. }
      rewrite He. reflexivity.
    + rewrite app_nil_r.
      assert (Hc : Spec.components (Spec.SLASH :: join [Spec.SLASH] kept)
                   = [] :: kept).
      { cbn [Spec.components]. rewrite N.eqb_refl. rewrite C1. reflexivity. }
      rewrite Hc. unfold Spec.resolve. cbn [fold_left Spec.resolve_step].
      rewrite (fold_resolve_keeps_plain kept [] Hplain).
      rewrite app_nil_r, rev_involutive.
      assert (He : Spec.ends_with_slash (Spec.SLASH :: join [Spec.SLASH] kept)
                   = false).
      { rewrite Ej, app_comm_cons, ends_with_slash_snoc.
        apply N.eqb_neq. exact Hy. }
      rewrite He, app_nil_r. reflexivity.
Qed.

Lemma resolve_absolute_absolute (p : jsstring) :
  absolute (Spec.resolve_absolute p).
Proof.
  apply absolute_cons. unfold Spec.resolve_absolute.
  destruct (Spec.resolve false (Spec.components p)); eexists; reflexivity.
Qed.

(** C6. [normalizeRemotePath p] throws the invalid-path error exactly when
    [p] does not start with the separator.  For [p] starting with it, the
    result is the lexically resolved absolute path, computed from the
    characters of [p] alone: the root followed by the components that
    remain after dropping empty components and single dots and letting a
    double dot remove the component before it (or nothing at the root),
    joined by single separators; no remaining component is empty, a dot,
    a double dot, or holds a separator; a trailing separator of [p] is
    kept when components remain.  The path /var/mobile/../mobile/a.txt
    gives /var/mobile/a.txt, and var/mobile/test.txt is rejected. *)
Theorem normalizeRemotePath_lexical :
  (forall (p : jsstring) (e : error),
      normalizeRemotePath p = Throw e
      <-> startsWith p (js "/") = false /\ e = InvalidPath p)
  /\ (forall p : jsstring,
        startsWith p (js "/") = true ->
        let kept := Spec.resolve false (Spec.components p) in
        normalizeRemotePath p
        = Ok (js "/" ++ join (js "/") kept
              ++ (if Spec.ends_with_slash p && negb (length kept =? 0)%nat
                  then js "/" else []))
        /\ Forall Spec.plain_component kept)
  /\ normalizeRemotePath (js "/var/mobile/../mobile/a.txt")
     = Ok (js "/var/mobile/a.txt")
  /\ normalizeRemotePath (js "/a/.//b/../../../c/")
     = Ok (js "/c/")
  /\ normalizeRemotePath (js "var/mobile/test.txt")
     = Throw (Error (js "Expected absolute remote path, got: var/mobile/test.txt")).
Proof.
  split; [|split; [|repeat split; vm_compute; reflexivity]].
  - intros p e. unfold normalizeRemotePath.
    destruct (startsWith p (js "/")); cbn [negb]; split.
    + discriminate.
    + intros [H _]. discriminate.
    + intros H. split; congruence.
    + intros [_ ->]. reflexivity.
  - intros p Habs kept.
    rewrite (normalizeRemotePath_absolute p Habs), (normalize_absolute p Habs).
    split; [|apply resolve_plain].
    unfold Spec.resolve_absolute. fold kept.
    destruct kept as [|k ks].
    + rewrite andb_false_r. reflexivity.
    + cbn [length Nat.eqb negb]. rewrite andb_true_r. reflexivity.
Qed.

(** The path with a dot-dot component normalizes as the specification
    says. *)
Lemma normalizeRemotePath_lexical_example :
  normalizeRemotePath (js "/var/mobile/../mobile/a.txt")
  = Ok (js "/var/mobile/a.txt").
Proof.
  destruct normalizeRemotePath_lexical as [_ [Hres _]].
  destruct (Hres (js "/var/mobile/../mobile/a.txt") eq_refl) as [-> _].
  vm_compute. reflexivity.
Defined.

(** C9. Remote-path normalization is idempotent: for every [p] starting
    with the separator, [normalizeRemotePath p] succeeds with a path [q],
    and normalizing [q] again succeeds with [q]. *)
Theorem normalizeRemotePath_idempotent (p : jsstring)
    (Habs : startsWith p (js "/") = true) :
  exists q,
    normalizeRemotePath p = Ok q
    /\ normalizeRemotePath q = Ok q.
Proof.
  exists (Spec.resolve_absolute p).
  rewrite (normalizeRemotePath_absolute p Habs), (normalize_absolute p Habs).
  split; [reflexivity|].
  rewrite (normalizeRemotePath_absolute _ (resolve_absolute_absolute p)).
  rewrite (normalize_absolute _ (resolve_absolute_absolute p)).
  rewrite resolve_absolute_idempotent. reflexivity.
Qed.

Lemma normalizeRemotePath_idempotent_example :
  exists q,
    normalizeRemotePath (js "/var/mobile/../mobile//./a.txt/") = Ok q
    /\ normalizeRemotePath q = Ok q.
Proof.
  apply (normalizeRemotePath_idempotent (js "/var/mobile/../mobile//./a.txt/")).
  reflexivity.
Defined.

(** ** The matcher: the bound of the quantifier loop is never reached *)

Section MatcherFacts.

Variable ic : bool.
Variable input : jsstring.

Lemma charCodeAt_Some (s : jsstring) (x : Z) (ch : code_unit) :
  charCodeAt s x = Some ch -> 0 <= x < jslength s.
Proof.
  unfold charCodeAt.
  destruct (Z.ltb_spec x 0); [discriminate|].
  destruct (Z.leb_spec (jslength s) x); [discriminate|]. lia.
Qed.

Lemma agree_after_step (x : Z) (k k' : Z -> option Z) (ch : code_unit) :
  agree_after input x k k' ->
  charCodeAt input x = Some ch ->
  k (x + 1) = k' (x + 1).
Proof.
  intros H Hch. apply charCodeAt_Some in Hch. apply H. lia.
Qed.

Lemma agree_after_later (x y : Z) (k k' : Z -> option Z) :
  agree_after input x k k' ->
  x <= y <= Z.max x (jslength input) ->
  agree_after input y k k'.
Proof. intros H Hy z Hz. apply H. lia. Qed.

Lemma empty_check_agree (x : Z) (k k' : Z -> option Z) :
  (forall y, x < y <= jslength input -> k y = k' y) ->
  agree_after input x (empty_check x k) (empty_check x k').
Proof.
  intros H y Hy. unfold empty_check.
  destruct (Z.eqb_spec y x); [reflexivity|]. apply H. lia.
Qed.

Lemma repeat_matcher_local (body : Z -> (Z -> option Z) -> option Z)
    (fuel : nat) :
  local input body ->
  forall x k k',
    agree_after input x k k' ->
    repeat_matcher body k fuel x = repeat_matcher body k' fuel x.
Proof.
  intros Hbody. induction fuel as [|fuel IH]; intros x k k' H; cbn.
  - apply H. lia.
  - rewrite (H x) by lia. f_equal.
    apply Hbody, empty_check_agree. intros y Hy.
    apply IH. apply (agree_after_later x); [exact H|lia].
Qed.

Lemma matcher_local (r : regex) : local input (matcher ic r input).
Proof.
  induction r; intros x k k' H; cbn [matcher].
  - apply H. lia.
  - destruct (charCodeAt input x) eqn:E; [|reflexivity].
    rewrite (agree_after_step x k k' _ H E). reflexivity.
  - destruct (charCodeAt input x) eqn:E; [|reflexivity].
    rewrite (agree_after_step x k k' _ H E). reflexivity.
  - destruct (charCodeAt input x) eqn:E; [|reflexivity].
    rewrite (agree_after_step x k k' _ H E). reflexivity.
  - rewrite (H x) by lia. reflexivity.
  - rewrite (H x) by lia. reflexivity.
  - apply IHr1. intros y Hy. apply IHr2.
    apply (agree_after_later x); assumption.
  - rewrite (IHr1 x k k' H), (IHr2 x k k' H). reflexivity.
  - apply IHr. exact H.
  - rewrite (H x) by lia. f_equal.
    apply IHr, empty_check_agree. intros y Hy. apply H. lia.
  - apply repeat_matcher_local; assumption.
  - apply IHr. intros y Hy.
    apply repeat_matcher_local; [exact IHr|].
    apply (agree_after_later x); assumption.
Qed.

(** More fuel than characters left changes nothing. *)
Lemma repeat_matcher_fuel (body : Z -> (Z -> option Z) -> option Z)
    (k : Z -> option Z) :
  local input body ->
  forall fuel1 fuel2 x,
    jslength input - x < Z.of_nat fuel1 ->
    jslength input - x < Z.of_nat fuel2 ->
    (0 < fuel1)%nat -> (0 < fuel2)%nat ->
    repeat_matcher body k fuel1 x = repeat_matcher body k fuel2 x.
Proof.
  intros Hbody. induction fuel1 as [|fuel1 IH]; intros fuel2 x H1 H2 P1 P2;
    [lia|].
  destruct fuel2 as [|fuel2]; [lia|]. cbn. f_equal.
  apply Hbody, empty_check_agree. intros y Hy.
  apply IH; lia.
Qed.

(** The equation of RepeatMatcher for the star: one iteration that
    consumes something followed by the star again, or else the
    continuation. *)
Lemma matcher_star_unfold (r : regex) (x : Z) (k : Z -> option Z) :
  0 <= x ->
  matcher ic (Star r) input x k
  = orElse (matcher ic r input x
              (fun y => if y =? x then None
                        else matcher ic (Star r) input y k))
           (k x).
Proof.
  intros Hx.
  change (matcher ic (Star r) input x k)
    with (orElse (matcher ic r input x
                    (empty_check x
                       (repeat_matcher (matcher ic r input) k (length input))))
                 (k x)).
  f_equal. apply matcher_local. intros y Hy. unfold empty_check.
  destruct (Z.eqb_spec y x) as [|Hne]; [reflexivity|].
  change (matcher ic (Star r) input y k)
    with (repeat_matcher (matcher ic r input) k (S (length input)) y).
  apply repeat_matcher_fuel; [apply matcher_local|unfold jslength in *; lia..].
Qed.

Lemma matcher_plus_unfold (r : regex) (x : Z) (k : Z -> option Z) :
  matcher ic (Plus r) input x k
  = matcher ic r input x (fun y => matcher ic (Star r) input y k).
Proof. reflexivity. Qed.

End MatcherFacts.

(** ** [path.posix.normalize] on every path *)

Lemma resolve_step_stored (allow : bool) (kept : list jsstring) (seg : jsstring) :
  Forall stored kept ->
  no_separator seg ->
  Forall stored (Spec.resolve_step allow kept seg).
Proof.
  intros Hk Hs. unfold Spec.resolve_step.
  destruct seg as [|c seg]; [exact Hk|].
  destruct (Spec.is_dot (c :: seg)); [exact Hk|].
  destruct (Spec.is_dotdot (c :: seg)).
  - destruct kept as [|top below].
    + destruct allow; repeat constructor; [discriminate|exact Hs].
    + destruct (Spec.is_dotdot top).
      * destruct allow; [|exact Hk].
        constructor; [|exact Hk]. split; [discriminate|exact Hs].
      * inversion Hk; assumption.
  - constructor; [|exact Hk]. split; [discriminate|exact Hs].
Qed.

Lemma resolve_stored (allow : bool) (p : jsstring) :
  Forall stored (Spec.resolve allow (Spec.components p)).
Proof.
  unfold Spec.resolve. apply Forall_rev.
  assert (H : forall segs kept,
             Forall stored kept -> Forall no_separator segs ->
             Forall stored (fold_left (Spec.resolve_step allow) segs kept)).
  { induction segs as [|seg segs IH]; intros kept Hk Hs; [exact Hk|].
    inversion Hs; subst. cbn [fold_left].
    apply IH; [apply resolve_step_stored|]; assumption. }
  apply H; [constructor|apply components_no_separator].
Qed.

Lemma resolve_step_push (allow : bool) (kept : list jsstring) (seg : jsstring) :
  Spec.plain_component seg ->
  Spec.resolve_step allow kept seg = seg :: kept.
Proof.
  intros [H1 [H2 [H3 _]]]. unfold Spec.resolve_step.
  destruct seg as [|c seg]; [congruence|].
  destruct (Spec.is_dot (c :: seg)) eqn:Ed.
  { apply is_dot_true in Ed. congruence. }
  destruct (Spec.is_dotdot (c :: seg)) eqn:Edd.
  { apply is_dotdot_true in Edd. congruence. }
  reflexivity.
Qed.

Lemma fold_resolve_push (allow : bool) (segs : list jsstring) :
  forall kept,
    Forall Spec.plain_component segs ->
    fold_left (Spec.resolve_step allow) segs kept = rev segs ++ kept.
Proof.
  induction segs as [|seg segs IH]; intros kept H; [reflexivity|].
  inversion H; subst. cbn [fold_left rev].
  rewrite resolve_step_push by assumption.
  rewrite IH by assumption. rewrite <- app_assoc. reflexivity.
Qed.

Lemma resolve_step_dotdot (allow : bool) (kept : list jsstring) :
  Spec.resolve_step allow kept (js "..")
  = match kept with
    | top :: below =>
      if Spec.is_dotdot top then (if allow then js ".." :: kept else kept)
      else below
    | [] => if allow then [js ".."] else []
    end.
Proof. reflexivity. Qed.

Lemma resolve_step_climbing (rel : bool) (kept : list jsstring) (seg : jsstring) :
  climbing rel kept ->
  no_separator seg ->
  climbing rel (Spec.resolve_step rel kept seg).
Proof.
  intros [k [plains [-> [Hp Hk]]]] Hs.
  destruct seg as [|c seg'] eqn:Eseg; [exists k, plains; auto|].
  rewrite <- Eseg in *.
  destruct (Spec.is_dot seg) eqn:Ed.
  { apply is_dot_true in Ed. rewrite Ed. exists k, plains; auto. }
  destruct (Spec.is_dotdot seg) eqn:Edd.
  - apply is_dotdot_true in Edd. rewrite Edd, resolve_step_dotdot.
    destruct plains as [|top plains].
    + cbn [app]. destruct k as [|k].
      * cbn [repeat]. destruct rel.
        -- exists 1%nat, []. repeat split; auto. discriminate.
        -- exists 0%nat, []. repeat split; auto.
      * cbn [repeat].
        change (Spec.is_dotdot (js "..")) with true. cbv iota.
        destruct rel.
        -- exists (S (S k)), []. repeat split; auto. discriminate.
        -- exists (S k), []. repeat split; auto.
    + inversion Hp as [|? ? Htop Hrest]; subst. cbn [app].
      assert (Hnd : Spec.is_dotdot top = false).
      { destruct (Spec.is_dotdot top) eqn:E; [|reflexivity].
        apply is_dotdot_true in E. destruct Htop as [_ [_ [H _]]]. congruence. }
      rewrite Hnd. exists k, plains. auto.
  - assert (Hplain : Spec.plain_component seg).
    { repeat split.
      + rewrite Eseg. discriminate.
      + intros H. apply is_dot_true in H. congruence.
      + intros H. apply is_dotdot_true in H. congruence.
      + exact Hs. }
    rewrite resolve_step_push by exact Hplain.
    exists k, (seg :: plains). repeat split; auto.
Qed.

Lemma resolve_climbing (rel : bool) (p : jsstring) :
  exists (k : nat) (plains : list jsstring),
    Spec.resolve rel (Spec.components p) = repeat (js "..") k ++ plains
    /\ Forall Spec.plain_component plains
    /\ (rel = false -> k = 0%nat).
Proof.
  assert (H : forall segs kept,
             climbing rel kept -> Forall no_separator segs ->
             climbing rel (fold_left (Spec.resolve_step rel) segs kept)).
  { induction segs as [|seg segs IH]; intros kept Hk Hs; [exact Hk|].
    inversion Hs; subst. cbn [fold_left].
    apply IH; [apply resolve_step_climbing|]; assumption. }
  destruct (H (Spec.components p) [])
    as [k [plains [E [Hp Hk]]]].
  - exists 0%nat, []. repeat split; auto.
  - apply components_no_separator.
  - exists k, (rev plains). unfold Spec.resolve.
    rewrite E, rev_app_distr, rev_repeat. repeat split; auto.
    apply Forall_rev. exact Hp.
Qed.

Lemma fold_resolve_ups (k j : nat) :
  fold_left (Spec.resolve_step true) (repeat (js "..") k) (repeat (js "..") j)
  = repeat (js "..") (k + j).
Proof.
  revert j. induction k as [|k IH]; intros j; [reflexivity|].
  cbn [repeat fold_left]. rewrite resolve_step_dotdot.
  destruct j as [|j].
  - change (fold_left (Spec.resolve_step true) (repeat (js "..") k)
              (repeat (js "..") 1)
            = repeat (js "..") (S k + 0)).
    rewrite (IH 1%nat). f_equal. lia.
  - change (fold_left (Spec.resolve_step true) (repeat (js "..") k)
              (repeat (js "..") (S (S j)))
            = repeat (js "..") (S k + S j)).
    rewrite (IH (S (S j))). f_equal. lia.
Qed.

(** Resolving resolved components keeps them. *)
Lemma resolve_resolved (rel : bool) (k : nat) (plains extra : list jsstring) :
  Forall Spec.plain_component plains ->
  (rel = false -> k = 0%nat) ->
  (extra = [] \/ extra = [[]]) ->
  Spec.resolve rel (repeat (js "..") k ++ plains ++ extra)
  = repeat (js "..") k ++ plains.
Proof.
  intros Hp Hk Hextra. unfold Spec.resolve.
  rewrite !fold_left_app.
  assert (Hups : fold_left (Spec.resolve_step rel) (repeat (js "..") k) []
                 = repeat (js "..") k).
  { destruct rel.
    - pose proof (fold_resolve_ups k 0) as H. cbn [repeat] in H.
      rewrite H. f_equal. lia.
    - rewrite (Hk eq_refl). reflexivity. }
  rewrite Hups, (fold_resolve_push rel plains _ Hp).
  assert (Hlast : fold_left (Spec.resolve_step rel) extra
                    (rev plains ++ repeat (js "..") k)
                  = rev plains ++ repeat (js "..") k).
  { destruct Hextra as [->| ->]; reflexivity. }
  rewrite Hlast, rev_app_distr, rev_involutive, rev_repeat. reflexivity.
Qed.

Lemma plain_no_separator (seg : jsstring) :
  Spec.plain_component seg -> no_separator seg.
Proof. intros [_ [_ [_ H]]]. exact H. Qed.

(** Node's function computes the lexical resolution of every path. *)
Lemma normalize_resolve_any (p : jsstring) : normalize p = resolve_any p.
Proof.
  destruct p as [|c rest]; [reflexivity|].
  unfold normalize, resolve_any.
  rewrite trailing_separator.
  change (jslength (c :: rest) =? 0)
    with (Z.pos (Pos.of_succ_nat (length rest)) =? 0).
  cbn [Z.eqb]. cbv iota.
  change (code_is (charCodeAt (c :: rest) 0) CHAR_FORWARD_SLASH)
    with (N.eqb c Spec.SLASH).
  rewrite normalizeString_resolves.
  set (abs := N.eqb c Spec.SLASH).
  pose proof (resolve_stored (negb abs) (c :: rest)) as Hst.
  destruct (Spec.resolve (negb abs) (Spec.components (c :: rest)))
    as [|k ks] eqn:E.
  - reflexivity.
  - assert (Hpos : 0 < jslength (join [Spec.SLASH] (k :: ks)))
      by (apply join_length_pos; [exact Hst|discriminate]).
    destruct (Z.eqb_spec (jslength (join [Spec.SLASH] (k :: ks))) 0); [lia|].
    destruct abs, (Spec.ends_with_slash (c :: rest)); cbn [app];
      rewrite ?app_nil_r; reflexivity.
Qed.

Lemma resolve_any_cons (p : jsstring) (c : code_unit) (tl : jsstring) :
  p = c :: tl ->
  resolve_any p
  = match Spec.resolve (negb (N.eqb c Spec.SLASH)) (Spec.components p) with
    | [] => if N.eqb c Spec.SLASH then js "/"
            else if Spec.ends_with_slash p then js "./" else js "."
    | kept =>
      (if N.eqb c Spec.SLASH then [Spec.SLASH] else [])
      ++ join [Spec.SLASH] kept
      ++ (if Spec.ends_with_slash p then [Spec.SLASH] else [])
    end.
Proof. intros ->. reflexivity. Qed.

Lemma resolve_any_idempotent (p : jsstring) :
  resolve_any (resolve_any p) = resolve_any p.
Proof.
  destruct p as [|c rest]; [reflexivity|].
  unfold resolve_any at 2 3.
  set (p := c :: rest). set (abs := N.eqb c Spec.SLASH).
  destruct (resolve_climbing (negb abs) p) as [k [plains [E [Hp Hk]]]].
  pose proof (resolve_stored (negb abs) p) as Hst.
  rewrite E in *.
  destruct (repeat (js "..") k ++ plains) as [|k0 ks] eqn:Ekept.
  { destruct abs; [reflexivity|].
    destruct (Spec.ends_with_slash p); reflexivity. }
  rewrite <- Ekept in *.
  set (kept := repeat (js "..") k ++ plains) in *.
  assert (Hne : kept <> []) by (rewrite Ekept; discriminate).
  assert (Hns : Forall no_separator kept).
  { eapply Forall_impl; [|exact Hst]. intros seg [_ H]. exact H. }
  destruct (components_join kept Hne Hns) as [C1 C2].
  destruct (join_last_not_separator kept Hne Hst) as [a [y [Ej Hy]]].
  (* the first character of the joined components is not a separator *)
  assert (Hfirst : exists c0 tl, join [Spec.SLASH] kept = c0 :: tl
                                 /\ c0 <> Spec.SLASH).
  { rewrite Ekept in Hst |- *. inversion Hst as [|? ? [Hk0 Hk0s] _]; subst.
    destruct k0 as [|c0 k0]; [congruence|].
    exists c0. destruct ks; cbn [join app]; eexists; (split; [reflexivity|]);
      intros ->; apply Hk0s; left; reflexivity. }
  destruct Hfirst as [c0 [tl [Ehd Hc0]]].
  remember (Spec.ends_with_slash p) as t eqn:Et. clear Et.
  assert (Hends : forall pre,
             Spec.ends_with_slash
               (pre ++ join [Spec.SLASH] kept ++ (if t then [Spec.SLASH] else []))
             = t).
  { intros pre. destruct t.
    - rewrite !app_assoc, ends_with_slash_snoc. apply N.eqb_refl.
    - rewrite app_nil_r, Ej, app_assoc, ends_with_slash_snoc.
      apply N.eqb_neq. exact Hy. }
  assert (Hcomp : Spec.components
                    (join [Spec.SLASH] kept ++ (if t then [Spec.SLASH] else []))
                  = kept ++ (if t then [[]] else [])).
  { destruct t; [apply C2|]. rewrite !app_nil_r. exact C1. }
  assert (Hextra : (if t then [[]] else []) = @nil jsstring
                   \/ (if t then [[]] else []) = [@nil code_unit])
    by (destruct t; [right|left]; reflexivity).
  destruct abs eqn:Eabs.
  - (* absolute *)
    cbn [app]. unfold resolve_any.
    rewrite N.eqb_refl. cbn [negb].
    change (Spec.SLASH :: join [Spec.SLASH] kept ++ (if t then [Spec.SLASH] else []))
      with ([Spec.SLASH] ++ join [Spec.SLASH] kept ++ (if t then [Spec.SLASH] else [])).
    rewrite (Hends [Spec.SLASH]).
    cbn [app Spec.components]. rewrite N.eqb_refl, Hcomp.
    assert (Hres : Spec.resolve false ([] :: kept ++ (if t then [[]] else []))
                   = kept).
    { unfold Spec.resolve. cbn [fold_left Spec.resolve_step].
      pose proof (resolve_resolved false k plains _ Hp Hk Hextra) as H.
      unfold Spec.resolve in H. unfold kept. rewrite <- app_assoc. exact H. }
    rewrite Hres, Ekept, <- Ekept. reflexivity.
  - (* relative *)
    cbn [app].
    assert (Hhead : join [Spec.SLASH] kept ++ (if t then [Spec.SLASH] else [])
                    = c0 :: (tl ++ (if t then [Spec.SLASH] else [])))
      by (rewrite Ehd; reflexivity).
    rewrite (resolve_any_cons _ c0 _ Hhead).
    assert (Hc0' : N.eqb c0 Spec.SLASH = false) by (apply N.eqb_neq; exact Hc0).
    rewrite Hc0'. cbn [negb].
    pose proof (Hends []) as He. cbn [app] in He. rewrite He, Hcomp.
    assert (Hres : Spec.resolve true (kept ++ (if t then [[]] else [])) = kept).
    { unfold kept. rewrite <- app_assoc.
      apply resolve_resolved; auto. }
    rewrite Hres, Ekept, <- Ekept. reflexivity.
Qed.

(** [path.posix.normalize] is idempotent on every string, relative paths
    and the empty string included. *)
Lemma normalize_idempotent (p : jsstring) :
  normalize (normalize p) = normalize p.
Proof.
  rewrite !normalize_resolve_any. apply resolve_any_idempotent.
Qed.

(** ** The configured list of roots *)

Lemma existsb_jsstring_In (v : jsstring) (l : list jsstring) :
  existsb (jsstring_eqb v) l = true <-> In v l.
Proof.
  rewrite existsb_exists. split.
  - intros [x [Hin H]]. apply jsstring_eqb_eq in H. subst. exact Hin.
  - intros H. exists v. split; [exact H|apply jsstring_eqb_refl].
Qed.

Lemma Set_spread_In (values : list jsstring) :
  forall seen x, In x (Set_spread seen values) <-> In x seen \/ In x values.
Proof.
  induction values as [|v values IH]; intros seen x; cbn [Set_spread].
  - simpl. tauto.
  - rewrite IH. destruct (existsb (jsstring_eqb v) seen) eqn:E.
    + apply existsb_jsstring_In in E. simpl. split.
      * intros [H|H]; auto.
      * intros [H|[<-|H]]; auto.
    + rewrite in_app_iff. simpl. tauto.
Qed.

Lemma Set_spread_NoDup (values : list jsstring) :
  forall seen, NoDup seen -> NoDup (Set_spread seen values).
Proof.
  induction values as [|v values IH]; intros seen H; cbn [Set_spread].
  - exact H.
  - apply IH. destruct (existsb (jsstring_eqb v) seen) eqn:E; [exact H|].
    apply NoDup_app; [exact H|repeat constructor; intros []|].
    intros x Hx [Hv|[]]. rewrite <- Hv in Hx.
    assert (existsb (jsstring_eqb v) seen = true)
      by (apply existsb_jsstring_In; exact Hx).
    congruence.
Qed.

Lemma Set_spread_distinct (values : list jsstring) :
  forall seen, NoDup (seen ++ values) -> Set_spread seen values = seen ++ values.
Proof.
  induction values as [|v values IH]; intros seen H; cbn [Set_spread].
  - rewrite app_nil_r. reflexivity.
  - assert (Hv : existsb (jsstring_eqb v) seen = false).
    { destruct (existsb (jsstring_eqb v) seen) eqn:E; [|reflexivity].
      apply existsb_jsstring_In in E. apply NoDup_remove_2 in H.
      exfalso. apply H. apply in_or_app. left. exact E. }
    rewrite Hv. rewrite IH.
    + rewrite <- app_assoc. reflexivity.
    + rewrite <- app_assoc. exact H.
Qed.

Lemma normalizePathList_In (paths : list jsstring) (q : jsstring) :
  In q (normalizePathList paths) <-> exists r, In r paths /\ q = normalize r.
Proof.
  unfold normalizePathList. rewrite Set_spread_In, in_map_iff. split.
  - intros [[]|[r [<- Hr]]]. eauto.
  - intros [r [Hr ->]]. right. eauto.
Qed.

(** X1. The list of roots the configuration keeps holds each normalized
    root once, holds nothing else, and building it again from itself
    gives the same list. *)
Theorem normalizePathList_canonical (paths : list jsstring) :
  NoDup (normalizePathList paths)
  /\ (forall q, In q (normalizePathList paths)
                <-> exists r, In r paths /\ q = normalize r)
  /\ normalizePathList (normalizePathList paths) = normalizePathList paths.
Proof.
  assert (Hnd : NoDup (normalizePathList paths)).
  { apply Set_spread_NoDup. constructor. }
  split; [exact Hnd|]. split; [apply normalizePathList_In|].
  unfold normalizePathList at 1.
  assert (Hfix : map normalize (normalizePathList paths) = normalizePathList paths).
  { rewrite <- (map_id (normalizePathList paths)) at 2.
    apply map_ext_in. intros q Hq.
    apply normalizePathList_In in Hq as [r [_ ->]]. apply normalize_idempotent. }
  rewrite Hfix. apply (Set_spread_distinct _ []). exact Hnd.
Qed.

(** X2. Normalizing and deduplicating the configured roots changes no
    answer of the allowlist: a path is within the kept list exactly when
    it is within the list as it was written. *)
Theorem normalizePathList_same_allowlist (p : jsstring) (roots : list jsstring) :
  pathWithinRoots p (normalizePathList roots) = pathWithinRoots p roots.
Proof.
  apply eq_true_iff_eq. rewrite !pathWithinRoots_iff. split.
  - intros [q [Hq Hb]]. apply normalizePathList_In in Hq as [r [Hr ->]].
    rewrite normalize_idempotent in Hb. eauto.
  - intros [r [Hr Hb]]. exists (normalize r). split.
    + apply normalizePathList_In. eauto.
    + rewrite normalize_idempotent. exact Hb.
Qed.

(** ** A root that ends with a separator *)

Lemma single_separators_double (a b : jsstring) :
  single_separators (a ++ Spec.SLASH :: Spec.SLASH :: b) = false.
Proof.
  induction a as [|x a IH]; [reflexivity|].
  destruct a as [|y a].
  - cbn [app single_separators] in *. rewrite IH. apply andb_false_r.
  - change (single_separators ((x :: y :: a) ++ Spec.SLASH :: Spec.SLASH :: b))
      with (negb (N.eqb x Spec.SLASH && N.eqb y Spec.SLASH)
            && single_separators ((y :: a) ++ Spec.SLASH :: Spec.SLASH :: b)).
    rewrite IH. apply andb_false_r.
Qed.

Lemma single_separators_cons (c d : code_unit) (s : jsstring) :
  c <> Spec.SLASH \/ d <> Spec.SLASH ->
  single_separators (c :: d :: s) = single_separators (d :: s).
Proof.
  intros H.
  change (single_separators (c :: d :: s))
    with (negb (N.eqb c Spec.SLASH && N.eqb d Spec.SLASH)
          && single_separators (d :: s)).
  destruct (N.eqb_spec c Spec.SLASH), (N.eqb_spec d Spec.SLASH);
    try reflexivity.
  destruct H; contradiction.
Qed.

(** A component in front of a string that has single separators only and
    does not begin with one. *)
Lemma single_separators_component (seg rest : jsstring) :
  ~ In Spec.SLASH seg ->
  single_separators rest = true ->
  (forall tl, rest <> Spec.SLASH :: Spec.SLASH :: tl) ->
  single_separators (seg ++ rest) = true.
Proof.
  intros Hs Hr Hd. induction seg as [|c seg IH]; [exact Hr|].
  assert (Hc : c <> Spec.SLASH) by (intros ->; apply Hs; left; reflexivity).
  assert (Hs' : ~ In Spec.SLASH seg) by (intros H; apply Hs; right; exact H).
  specialize (IH Hs').
  destruct (seg ++ rest) as [|d s] eqn:E.
  - cbn [app]. rewrite E. reflexivity.
  - cbn [app]. rewrite E, single_separators_cons by (left; exact Hc).
    exact IH.
Qed.

Lemma single_separators_join (kept : list jsstring) (trail : jsstring) :
  Forall stored kept ->
  kept <> [] ->
  trail = [] \/ trail = [Spec.SLASH] ->
  single_separators (join [Spec.SLASH] kept ++ trail) = true
  /\ exists c tl, join [Spec.SLASH] kept ++ trail = c :: tl /\ c <> Spec.SLASH.
Proof.
  intros Hst Hne Htrail.
  induction kept as [|k ks IH]; [congruence|].
  inversion Hst as [|? ? [Hk Hks] Hrest]; subst.
  assert (Hhead : forall rest, exists c tl, k ++ rest = c :: tl /\ c <> Spec.SLASH).
  { intros rest. destruct k as [|c k]; [congruence|].
    exists c, (k ++ rest). split; [reflexivity|].
    intros ->. apply Hks. left. reflexivity. }
  destruct ks as [|k2 ks].
  - cbn [join]. split; [|apply Hhead].
    apply single_separators_component; [exact Hks| |].
    + destruct Htrail as [->| ->]; reflexivity.
    + intros tl. destruct Htrail as [->| ->]; discriminate.
  - destruct (IH Hrest ltac:(discriminate)) as [IH1 [c [tl [Ec Hc]]]].
    change (join [Spec.SLASH] (k :: k2 :: ks))
      with (k ++ [Spec.SLASH] ++ join [Spec.SLASH] (k2 :: ks)).
    rewrite <- !app_assoc. split; [|apply Hhead].
    apply single_separators_component; [exact Hks| |].
    + cbn [app]. rewrite Ec.
      rewrite single_separators_cons by (right; exact Hc).
      rewrite <- Ec. exact IH1.
    + intros tl'. cbn [app]. rewrite Ec. intros H. inversion H. congruence.
Qed.

Lemma resolve_absolute_single_separators (p : jsstring) :
  single_separators (Spec.resolve_absolute p) = true.
Proof.
  unfold Spec.resolve_absolute.
  pose proof (resolve_stored false p) as Hst.
  destruct (Spec.resolve false (Spec.components p)) as [|k ks] eqn:E;
    [reflexivity|].
  destruct (single_separators_join (k :: ks)
              (if Spec.ends_with_slash p then [Spec.SLASH] else [])
              Hst ltac:(discriminate)
              ltac:(destruct (Spec.ends_with_slash p); auto))
    as [H [c [tl [Ec Hc]]]].
  refine (eq_trans
            (f_equal (fun x => single_separators (Spec.SLASH :: x)) Ec) _).
  rewrite single_separators_cons by (right; exact Hc).
  rewrite <- Ec. exact H.
Qed.

Lemma ends_with_slash_split (s : jsstring) :
  Spec.ends_with_slash s = true -> exists a, s = a ++ [Spec.SLASH].
Proof.
  destruct s as [|y s] using rev_ind; [discriminate|].
  rewrite ends_with_slash_snoc. intros H. apply N.eqb_eq in H. subst.
  eauto.
Qed.

(** X3. A root whose normalized form ends with the separator (the root
    directory itself, or a root written with a trailing separator) admits
    a normalized remote path only if the path is that form exactly:
    nothing beneath such a root is within it. *)
Theorem root_ending_with_separator (root p q : jsstring)
    (Hq : normalizeRemotePath p = Ok q)
    (Hroot : Spec.ends_with_slash (normalize root) = true) :
  pathWithinRoots q [root] = true <-> q = normalize root.
Proof.
  assert (Habs : absolute p).
  { unfold absolute. unfold normalizeRemotePath in Hq.
    destruct (startsWith p (js "/")); [reflexivity|discriminate]. }
  rewrite (normalizeRemotePath_absolute p Habs), (normalize_absolute p Habs) in Hq.
  injection Hq as <-.
  rewrite pathWithinRoots_iff. split.
  - intros [r [[<-|[]] [H|[rest H]]]]; [exact H|exfalso].
    apply ends_with_slash_split in Hroot as [a Ea].
    rewrite Ea, <- app_assoc in H. cbn [app js map list_ascii_of_string] in H.
    pose proof (resolve_absolute_single_separators p) as Hs.
    rewrite H in Hs.
    change (N_of_ascii "/"%char) with Spec.SLASH in Hs.
    rewrite single_separators_double in Hs. discriminate.
  - intros H. exists root. split; [left; reflexivity|left; exact H].
Qed.

(** With the root directory as the only root, a path beneath it is
    refused. *)
Lemma root_ending_with_separator_example :
  pathWithinRoots (js "/var/mobile") [js "/"] = false
  /\ pathWithinRoots (js "/") [js "/"] = true.
Proof.
  pose proof (root_ending_with_separator (js "/") (js "/var/../var/mobile")
                (js "/var/mobile") eq_refl eq_refl) as H.
  split; [|reflexivity].
  destruct (pathWithinRoots (js "/var/mobile") [js "/"]); [|reflexivity].
  destruct H as [H _]. specialize (H eq_refl). discriminate H.
Defined.

(** ** Reading lists from the environment *)

Lemma trimStart_blank (s : jsstring) : blank s -> trimStart s = [].
Proof.
  unfold blank. induction s as [|x s IH]; [reflexivity|].
  cbn [forallb trimStart]. intros H. apply andb_true_iff in H as [-> H].
  apply IH. exact H.
Qed.

Lemma trimStart_app_blank (pad s : jsstring) :
  blank pad -> trimStart (pad ++ s) = trimStart s.
Proof.
  unfold blank. induction pad as [|x pad IH]; [reflexivity|].
  cbn [forallb app trimStart]. intros H. apply andb_true_iff in H as [-> H].
  apply IH. exact H.
Qed.

Lemma trimStart_fixed (x : code_unit) (s : jsstring) :
  RegExp.isWhiteSpace x = false -> trimStart (x :: s) = x :: s.
Proof. intros H. cbn [trimStart]. rewrite H. reflexivity. Qed.

Lemma trimStart_idempotent (s : jsstring) : trimStart (trimStart s) = trimStart s.
Proof.
  induction s as [|x s IH]; [reflexivity|].
  cbn [trimStart]. destruct (RegExp.isWhiteSpace x) eqn:E; [exact IH|].
  cbn [trimStart]. rewrite E. reflexivity.
Qed.

Lemma trimStart_suffix (s : jsstring) : exists pad, blank pad /\ s = pad ++ trimStart s.
Proof.
  induction s as [|x s [pad [Hp E]]]; [exists []; split; reflexivity|].
  cbn [trimStart]. destruct (RegExp.isWhiteSpace x) eqn:Ex.
  - exists (x :: pad). split.
    + unfold blank in *. cbn [forallb]. rewrite Ex, Hp. reflexivity.
    + cbn [app]. rewrite <- E. reflexivity.
  - exists []. split; reflexivity.
Qed.

Lemma blank_rev (s : jsstring) : blank s -> blank (rev s).
Proof.
  unfold blank. rewrite !forallb_forall. intros H x Hx.
  apply H, in_rev. exact Hx.
Qed.

Lemma blank_app (a b : jsstring) : blank a -> blank b -> blank (a ++ b).
Proof. unfold blank. rewrite forallb_app. intros -> ->. reflexivity. Qed.

Lemma trimStart_head (s : jsstring) (x : code_unit) (tl : jsstring) :
  trimStart s = x :: tl -> RegExp.isWhiteSpace x = false.
Proof.
  induction s as [|y s IH]; [discriminate|].
  cbn [trimStart]. destruct (RegExp.isWhiteSpace y) eqn:E; [exact IH|].
  intros H. inversion H; subst. exact E.
Qed.

Lemma trimStart_last (s hd : jsstring) (x : code_unit) :
  RegExp.isWhiteSpace x = false ->
  trimStart (s ++ [x]) = trimStart s ++ [x]
  /\ (trimStart s = [] -> trimStart (s ++ [x]) = [x]).
Proof.
  intros Hx. induction s as [|y s [IH1 IH2]].
  - cbn [app trimStart]. rewrite Hx. split; reflexivity.
  - cbn [app trimStart]. destruct (RegExp.isWhiteSpace y); [split; assumption|].
    split; [reflexivity|discriminate].
Qed.

Lemma trim_decompose (s : jsstring) :
  exists pad1 pad2,
    blank pad1 /\ blank pad2 /\ s = pad1 ++ trim s ++ pad2 /\ trimmed (trim s).
Proof.
  unfold trim.
  destruct (trimStart_suffix s) as [pad1 [Hp1 E1]].
  destruct (trimStart_suffix (rev (trimStart s))) as [pad2 [Hp2 E2]].
  exists pad1, (rev pad2). split; [exact Hp1|]. split; [apply blank_rev; exact Hp2|].
  split.
  - rewrite <- rev_app_distr, <- E2, rev_involutive. exact E1.
  - split.
    + intros x tl H.
      (* the first character survives the second pass, so the first pass
         left it *)
      assert (Hrev : rev (trimStart s) = pad2 ++ rev (x :: tl)).
      { rewrite E2 at 1. f_equal. rewrite <- H, rev_involutive. reflexivity. }
      apply (f_equal (@rev _)) in Hrev.
      rewrite rev_involutive, rev_app_distr, rev_involutive in Hrev.
      cbn [app] in Hrev. apply (trimStart_head s x _ Hrev).
    + intros x hd H.
      apply (f_equal (@rev _)) in H.
      rewrite rev_involutive, rev_app_distr in H. cbn [rev app] in H.
      apply (trimStart_head _ x _ H).
Qed.

Lemma trim_padded (pad1 pad2 e : jsstring) :
  blank pad1 -> blank pad2 -> trimmed e ->
  trim (pad1 ++ e ++ pad2) = e.
Proof.
  intros H1 H2 [Hhead Hlast]. unfold trim.
  rewrite trimStart_app_blank by exact H1.
  destruct e as [|x e].
  - cbn [app]. rewrite (trimStart_blank pad2 H2). reflexivity.
  - pose proof (Hhead x e eq_refl) as Hx.
    cbn [app]. rewrite trimStart_fixed by exact Hx.
    change (x :: e ++ pad2) with ((x :: e) ++ pad2).
    rewrite rev_app_distr.
    rewrite trimStart_app_blank by (apply blank_rev; exact H2).
    destruct (rev (x :: e)) as [|y r] eqn:Er.
    { apply (f_equal (@length _)) in Er. rewrite length_rev in Er. discriminate. }
    assert (Hy : RegExp.isWhiteSpace y = false).
    { apply (Hlast y (rev r)).
      rewrite <- (rev_involutive (x :: e)), Er. reflexivity. }
    rewrite trimStart_fixed by exact Hy.
    rewrite <- Er. apply rev_involutive.
Qed.

Lemma trim_trimmed (e : jsstring) : trimmed e -> trim e = e.
Proof.
  intros H. pose proof (trim_padded [] [] e eq_refl eq_refl H) as E.
  rewrite app_nil_r in E. exact E.
Qed.

Lemma trim_idempotent (s : jsstring) : trim (trim s) = trim s.
Proof.
  destruct (trim_decompose s) as [_ [_ [_ [_ [_ H]]]]].
  apply trim_trimmed. exact H.
Qed.

Lemma trim_fixed_trimmed (e : jsstring) : trim e = e -> trimmed e.
Proof.
  intros H. destruct (trim_decompose e) as [_ [_ [_ [_ [_ Ht]]]]].
  rewrite H in Ht. exact Ht.
Qed.

Lemma split_pieces_no_separator (c : code_unit) (s : jsstring) :
  Forall (fun piece => ~ In c piece) (split c s).
Proof.
  induction s as [|x s IH]; cbn [split].
  - constructor; [intros []|constructor].
  - destruct (N.eqb_spec x c) as [->|Hx].
    + constructor; [intros []|exact IH].
    + destruct (split c s) as [|piece pieces].
      * constructor; [|constructor]. intros [H|[]]. congruence.
      * inversion IH; subst. constructor; [|assumption].
        intros [H|H]; [congruence|contradiction].
Qed.

Lemma split_plain (c : code_unit) (piece : jsstring) :
  ~ In c piece -> split c piece = [piece].
Proof.
  induction piece as [|x piece IH]; intros H; [reflexivity|].
  cbn [split]. destruct (N.eqb_spec x c) as [->|_].
  - exfalso. apply H. left. reflexivity.
  - rewrite IH; [reflexivity|]. intros Hin. apply H. right. exact Hin.
Qed.

Lemma split_separator (c : code_unit) (piece rest : jsstring) :
  ~ In c piece -> split c (piece ++ c :: rest) = piece :: split c rest.
Proof.
  induction piece as [|x piece IH]; intros H.
  - cbn [app split]. rewrite N.eqb_refl. reflexivity.
  - cbn [split app]. destruct (N.eqb_spec x c) as [->|_].
    + exfalso. apply H. left. reflexivity.
    + rewrite IH; [reflexivity|]. intros Hin. apply H. right. exact Hin.
Qed.

Lemma trim_no_separator (c : code_unit) (s : jsstring) :
  ~ In c s -> ~ In c (trim s).
Proof.
  intros H Hin. apply H.
  destruct (trim_decompose s) as [pad1 [pad2 [_ [_ [E _]]]]].
  rewrite E. apply in_or_app. right. apply in_or_app. left. exact Hin.
Qed.

Lemma truthy_nonempty (s : jsstring) : truthy s = true <-> s <> [].
Proof. destruct s; simpl; split; congruence. Qed.

Section EnvironmentFacts.

Variable process_env : jsstring -> option jsstring.

Lemma env_cases (name : jsstring) (fallback : option jsstring) :
  match process_env name with
  | None => env process_env name fallback = fallback
  | Some value =>
    (blank value -> env process_env name fallback = fallback)
    /\ (~ blank value ->
        env process_env name fallback = Some (trim value)
        /\ trim value <> [])
  end.
Proof.
  unfold env. destruct (process_env name) as [value|]; [|reflexivity].
  split.
  - intros Hb. unfold trim. rewrite (trimStart_blank value Hb). reflexivity.
  - intros Hnb.
    destruct (trim_decompose value) as [pad1 [pad2 [H1 [H2 [E _]]]]].
    destruct (jsstring_eqb (trim value) []) eqn:Eq.
    + apply jsstring_eqb_eq in Eq. exfalso. apply Hnb.
      rewrite E, Eq. cbn [app]. apply blank_app; assumption.
    + apply jsstring_eqb_neq in Eq. split; [reflexivity|exact Eq].
Qed.

(** X4. [env] returns the fallback exactly when the variable is unset or
    holds white space only; otherwise it returns the value without the
    white space around it, which is then not empty and has none left to
    remove. *)
Theorem env_unset_or_trimmed (name : jsstring) (fallback : option jsstring) :
  match process_env name with
  | None => env process_env name fallback = fallback
  | Some value =>
    (blank value -> env process_env name fallback = fallback)
    /\ (~ blank value ->
        exists pad1 pad2 v,
          env process_env name fallback = Some v
          /\ value = pad1 ++ v ++ pad2
          /\ blank pad1 /\ blank pad2
          /\ v <> [] /\ trimmed v /\ trim v = v)
  end.
Proof.
  unfold env. destruct (process_env name) as [value|]; [|reflexivity].
  destruct (trim_decompose value) as [pad1 [pad2 [H1 [H2 [E Ht]]]]].
  split.
  - intros Hb. unfold trim. rewrite (trimStart_blank value Hb). reflexivity.
  - intros Hnb.
    destruct (jsstring_eqb (trim value) []) eqn:Eq.
    + apply jsstring_eqb_eq in Eq. exfalso. apply Hnb.
      rewrite E, Eq. cbn [app]. apply blank_app; assumption.
    + apply jsstring_eqb_neq in Eq.
      exists pad1, pad2, (trim value). repeat split; auto; try apply Ht.
      apply trim_idempotent.
Qed.

(** X5. When the variable holds something other than white space, every
    entry of [envList] is a piece of the value between commas with the
    white space around it removed: no entry is empty, holds a comma, or
    begins or ends with white space.  The list may be empty (every piece
    blank), and only an unset or blank variable gives the fallback. *)
Theorem envList_entries_clean (name : jsstring) (fallback : list jsstring) :
  match process_env name with
  | None => envList process_env name fallback = fallback
  | Some value =>
    (blank value -> envList process_env name fallback = fallback)
    /\ (~ blank value ->
        envList process_env name fallback
        = filter truthy (map trim (split COMMA (trim value)))
        /\ Forall clean_entry (envList process_env name fallback))
  end.
Proof.
  pose proof (env_cases name None) as Henv.
  unfold envList. destruct (process_env name) as [value|] eqn:Ev.
  - destruct Henv as [Hblank Hset]. split.
    + intros Hb. rewrite (Hblank Hb). reflexivity.
    + intros Hnb. destruct (Hset Hnb) as [Eenv Hv].
      rewrite Eenv. destruct (trim value) as [|x v] eqn:Et; [congruence|].
      cbn [truthy negb]. split; [reflexivity|].
      apply Forall_forall. intros e He.
      apply filter_In in He as [He Hne].
      apply in_map_iff in He as [piece [<- Hpiece]].
      pose proof (split_pieces_no_separator COMMA (x :: v)) as Hall.
      rewrite Forall_forall in Hall. specialize (Hall piece Hpiece).
      repeat split.
      * apply truthy_nonempty. exact Hne.
      * apply trim_no_separator. exact Hall.
      * apply trim_idempotent.
  - rewrite Henv. reflexivity.
Qed.

End EnvironmentFacts.

Lemma blank_no_comma (pad : jsstring) : blank pad -> ~ In COMMA pad.
Proof.
  unfold blank. rewrite forallb_forall. intros H Hin.
  specialize (H COMMA Hin). discriminate H.
Qed.

Lemma clean_entry_trimmed (e : jsstring) : clean_entry e -> trimmed e.
Proof. intros [_ [_ H]]. apply trim_fixed_trimmed. exact H. Qed.

(** Splitting a comma-separated list and trimming the pieces gives the
    entries back, whatever white space surrounds the commas. *)
Lemma trim_split_join (pad1 pad2 : jsstring) (rest : list jsstring) :
  blank pad1 -> blank pad2 ->
  forall pad0 first,
    blank pad0 ->
    Forall clean_entry (first :: rest) ->
    map trim (split COMMA (pad0 ++ join (pad1 ++ COMMA :: pad2) (first :: rest)))
    = first :: rest.
Proof.
  intros H1 H2. induction rest as [|e rest IH]; intros pad0 first H0 Hall;
    inversion Hall as [|? ? Hfirst Hrest]; subst.
  - cbn [join]. rewrite split_plain.
    + cbn [map]. f_equal.
      rewrite <- (app_nil_r first) at 1.
      apply trim_padded; [exact H0|reflexivity|].
      apply clean_entry_trimmed. exact Hfirst.
    + intros H. apply in_app_or in H as [H|H].
      * exact (blank_no_comma pad0 H0 H).
      * destruct Hfirst as [_ [Hc _]]. contradiction.
  - change (join (pad1 ++ COMMA :: pad2) (first :: e :: rest))
      with (first ++ (pad1 ++ COMMA :: pad2)
            ++ join (pad1 ++ COMMA :: pad2) (e :: rest)).
    replace (pad0 ++ first ++ (pad1 ++ COMMA :: pad2)
             ++ join (pad1 ++ COMMA :: pad2) (e :: rest))
      with ((pad0 ++ first ++ pad1)
            ++ COMMA :: (pad2 ++ join (pad1 ++ COMMA :: pad2) (e :: rest)))
      by (rewrite <- !app_assoc; reflexivity).
    rewrite split_separator.
    + cbn [map]. rewrite (IH pad2 e H2 Hrest). f_equal.
      apply trim_padded; [exact H0|exact H1|].
      apply clean_entry_trimmed. exact Hfirst.
    + intros H. apply in_app_or in H as [H|H].
      * exact (blank_no_comma pad0 H0 H).
      * apply in_app_or in H as [H|H].
        -- destruct Hfirst as [_ [Hc _]]. contradiction.
        -- exact (blank_no_comma pad1 H1 H).
Qed.

Lemma last_cons_default {A : Type} (l : list A) (e d : A) :
  last (e :: l) d = last l e.
Proof.
  destruct l as [|x l]; [reflexivity|].
  change (last (e :: x :: l) d) with (last (x :: l) d).
  revert x. induction l as [|y l IH]; intros x; [reflexivity|].
  change (last (x :: y :: l) d) with (last (y :: l) d).
  change (last (x :: y :: l) e) with (last (y :: l) e).
  apply IH.
Qed.

Lemma last_In {A : Type} (l : list A) (d : A) : In (last l d) (d :: l).
Proof.
  revert d. induction l as [|x l IH]; intros d; [left; reflexivity|].
  rewrite last_cons_default. right. apply IH.
Qed.

Lemma join_last_entry (sep : jsstring) (entries : list jsstring) :
  forall first, exists a,
    join sep (first :: entries) = a ++ last entries first.
Proof.
  induction entries as [|e entries IH]; intros first.
  - exists []. reflexivity.
  - destruct (IH e) as [a Ea].
    exists (first ++ sep ++ a).
    change (join sep (first :: e :: entries))
      with (first ++ sep ++ join sep (e :: entries)).
    rewrite Ea, <- !app_assoc, last_cons_default. reflexivity.
Qed.

Lemma trimmed_join (sep : jsstring) (first : jsstring) (rest : list jsstring) :
  Forall clean_entry (first :: rest) ->
  trimmed (join sep (first :: rest)).
Proof.
  intros Hall. split.
  - intros x tl H. inversion Hall as [|? ? Hfirst _]; subst.
    destruct (clean_entry_trimmed first Hfirst) as [Hhead _].
    destruct first as [|y first]; [destruct Hfirst as [Hne _]; congruence|].
    assert (Hx : x = y).
    { destruct rest; cbn [join app] in H; inversion H; reflexivity. }
    subst. apply (Hhead y first eq_refl).
  - intros x hd H.
    destruct (join_last_entry sep rest first) as [a Ea].
    assert (Hlast : clean_entry (last rest first)).
    { rewrite Forall_forall in Hall. apply Hall, last_In. }
    destruct (clean_entry_trimmed _ Hlast) as [_ Hend].
    destruct (last rest first) as [|z l] using rev_ind.
    { destruct Hlast as [Hne _]. congruence. }
    rewrite H, app_assoc in Ea. apply app_inj_tail in Ea as [_ ->].
    apply (Hend z l eq_refl).
Qed.

(** X6. A list of entries that are not empty, hold no comma and have no
    white space around them is read back by [envList] exactly, in order,
    from the entries written with commas between them, whatever white
    space surrounds the commas and the whole value. *)
Theorem envList_round_trip
    (process_env : jsstring -> option jsstring)
    (name : jsstring) (fallback : list jsstring)
    (pad0 pad1 pad2 pad3 : jsstring) (first : jsstring) (rest : list jsstring)
    (Hpads : blank pad0 /\ blank pad1 /\ blank pad2 /\ blank pad3)
    (Hclean : Forall clean_entry (first :: rest))
    (Hset : process_env name
            = Some (pad0 ++ join (pad1 ++ COMMA :: pad2) (first :: rest) ++ pad3)) :
  envList process_env name fallback = first :: rest.
Proof.
  destruct Hpads as [H0 [H1 [H2 H3]]].
  set (value := join (pad1 ++ COMMA :: pad2) (first :: rest)) in *.
  assert (Htrim : trim (pad0 ++ value ++ pad3) = value).
  { apply trim_padded; [exact H0|exact H3|]. apply trimmed_join. exact Hclean. }
  assert (Hne : value <> []).
  { inversion Hclean as [|? ? [Hf _] _]; subst. unfold value.
    destruct first as [|y first]; [congruence|].
    destruct rest; cbn [join app]; discriminate. }
  unfold envList, env. rewrite Hset, Htrim.
  destruct (jsstring_eqb value []) eqn:E.
  { apply jsstring_eqb_eq in E. contradiction. }
  destruct value as [|v0 value'] eqn:Ev; [congruence|].
  cbn [truthy negb]. rewrite <- Ev.
  pose proof (trim_split_join pad1 pad2 rest H1 H2 [] first eq_refl Hclean) as Hs.
  cbn [app] in Hs. fold value in Hs. rewrite Hs.
  apply forallb_filter_id. apply forallb_forall. intros e He.
  rewrite Forall_forall in Hclean. destruct (Hclean e He) as [Hn _].
  apply truthy_nonempty. exact Hn.
Qed.

Lemma envList_round_trip_example :
  envList (fun _ => Some (js "  /var/mobile, /tmp, /usr/local "))
          (js "IPHONE_ALLOWED_WRITE_ROOTS") []
  = [js "/var/mobile"; js "/tmp"; js "/usr/local"].
Proof.
  apply (envList_round_trip _ _ [] (js "  ") [] (js " ") (js " ")
           (js "/var/mobile") [js "/tmp"; js "/usr/local"]).
  - repeat split; reflexivity.
  - repeat constructor; try discriminate; try reflexivity;
      intros H; vm_compute in H; intuition discriminate.
  - reflexivity.
Defined.

(** ** When the entry points execute *)

Lemma absolute_or_first_relative (ps : list jsstring) :
  Forall absolute ps
  \/ Exists (fun p => startsWith p (js "/") = false) ps.
Proof.
  induction ps as [|p ps [IH|IH]].
  - left. constructor.
  - destruct (startsWith p (js "/")) eqn:E.
    + left. constructor; assumption.
    + right. apply Exists_cons_hd. exact E.
  - right. apply Exists_cons_tl. exact IH.
Qed.

Lemma ensureAllowedWritePaths_Ok (ps R l : list jsstring) :
  ensureAllowedWritePaths ps R = Ok l
  <-> Forall absolute ps
      /\ l = map normalize ps
      /\ Forall (fun p => pathWithinRoots (normalize p) R = true) ps.
Proof.
  destruct (absolute_or_first_relative ps) as [Habs|Hrel].
  - unfold ensureAllowedWritePaths.
    rewrite (map_normalize_absolute ps Habs).
    fold (outside_roots R).
    destruct (filter (outside_roots R) (map normalize ps)) as [|d ds] eqn:Ef.
    + change (0 <? Z.of_nat (length (@nil jsstring))) with false. cbv iota.
      assert (Hin : Forall (fun p => pathWithinRoots (normalize p) R = true) ps).
      { apply Forall_forall. intros p Hp.
        pose proof (proj1 (filter_nil_iff _ _) Ef (normalize p)
                      (in_map normalize ps p Hp)) as H.
        unfold outside_roots in H. apply negb_false_iff in H. exact H. }
      split.
      * intros H. injection H as <-. auto.
      * intros [_ [-> _]]. reflexivity.
    + change (0 <? Z.of_nat (length (d :: ds))) with true. cbv iota.
      split; [discriminate|]. intros [_ [_ Hall]]. exfalso.
      assert (Hd : In d (filter (outside_roots R) (map normalize ps)))
        by (rewrite Ef; left; reflexivity).
      apply filter_In in Hd as [Hd Hout].
      apply in_map_iff in Hd as [p [<- Hp]].
      rewrite Forall_forall in Hall. specialize (Hall p Hp).
      unfold outside_roots in Hout. rewrite Hall in Hout. discriminate.
  - destruct (first_relative ps Hrel) as [before [v [after [-> [Hb Hv]]]]].
    unfold ensureAllowedWritePaths.
    rewrite (map_normalize_first_relative before after v Hb Hv).
    split; [discriminate|]. intros [Habs _]. exfalso.
    apply Forall_app in Habs as [_ Habs]. inversion Habs as [|? ? Hv' _]; subst.
    unfold absolute in Hv'. congruence.
Qed.

(** X7. [execReadCommand] hands a command to the transport exactly when
    no denial rule matches it and it is not classified as a write;
    [execWriteCommand] exactly when no denial rule matches it, every
    declared path is absolute and every normalized declared path is
    within the configured roots.  In that case the transport receives
    the command once, unchanged, whatever the declared paths are; in
    every other case the call throws and the transport receives
    nothing. *)
Theorem entry_points_execute_exactly_when
    (ExecResult : Type) (remote : transport -> jsstring -> option Z -> ExecResult)
    (roots : list jsstring) (c : jsstring) (writePaths : list jsstring)
    (timeout : option Z) (t : transport) :
  let sent := (Ok (remote t c timeout), t ++ [(c, timeout)]) in
  let read := execReadCommand ExecResult remote c timeout t in
  let write := execWriteCommand ExecResult remote roots c writePaths timeout t in
  let write_allowed :=
    matchDeniedPattern c = None
    /\ Forall absolute writePaths
    /\ Forall (fun p => pathWithinRoots (normalize p) roots = true) writePaths in
  (read = sent \/ exists e, read = (Throw e, t))
  /\ (read = sent <-> matchDeniedPattern c = None /\ isLikelyWriteCommand c = false)
  /\ (write = sent \/ exists e, write = (Throw e, t))
  /\ (write = sent <-> write_allowed).
Proof.
  intros sent read write write_allowed.
  assert (Hneq : forall e, (Throw e, t) <> sent).
  { intros e H. discriminate H. }
  unfold read, write, write_allowed, sent, execReadCommand, execWriteCommand.
  destruct (matchDeniedPattern c) as [rule|].
  - repeat split; try (right; eexists; reflexivity);
      try discriminate; intros [H _]; discriminate H.
  - destruct (isLikelyWriteCommand c).
    + split; [right; eexists; reflexivity|].
      split; [split; [discriminate|intros [_ H]; discriminate H]|].
      unfold bind, lift.
      destruct (ensureAllowedWritePaths writePaths roots) as [l|e] eqn:E.
      * apply ensureAllowedWritePaths_Ok in E as [Ha [_ Hw]].
        split; [left; reflexivity|]. split; auto.
      * split; [right; eexists; reflexivity|].
        split; [discriminate|]. intros [_ [Ha Hw]].
        assert (ensureAllowedWritePaths writePaths roots
                = Ok (map normalize writePaths))
          by (apply ensureAllowedWritePaths_Ok; auto).
        congruence.
    + split; [left; reflexivity|]. split; [split; auto|].
      unfold bind, lift.
      destruct (ensureAllowedWritePaths writePaths roots) as [l|e] eqn:E.
      * apply ensureAllowedWritePaths_Ok in E as [Ha [_ Hw]].
        split; [left; reflexivity|]. split; auto.
      * split; [right; eexists; reflexivity|].
        split; [discriminate|]. intros [_ [Ha Hw]].
        assert (ensureAllowedWritePaths writePaths roots
                = Ok (map normalize writePaths))
          by (apply ensureAllowedWritePaths_Ok; auto).
        congruence.
Qed.

(** ** Local paths *)

Lemma components_app_separator (a b : jsstring) :
  Spec.components (a ++ Spec.SLASH :: b)
  = Spec.components a ++ Spec.components b.
Proof.
  induction a as [|x a IH].
  - cbn [app Spec.components]. rewrite N.eqb_refl. reflexivity.
  - cbn [app Spec.components]. rewrite IH.
    destruct (N.eqb x Spec.SLASH); [reflexivity|].
    destruct (Spec.components a) as [|seg segs] eqn:E; [|reflexivity].
    destruct a; cbn [Spec.components] in E; [discriminate|].
    destruct (N.eqb c Spec.SLASH); [discriminate|].
    destruct (Spec.components a); discriminate.
Qed.

Lemma resolve_trailing_empty (allow : bool) (segs : list jsstring) :
  Spec.resolve allow (segs ++ [[]]) = Spec.resolve allow segs.
Proof. unfold Spec.resolve. rewrite fold_left_app. reflexivity. Qed.

Lemma startsWith_slash (p : jsstring) :
  startsWith p (js "/") = code_is (charCodeAt p 0) CHAR_FORWARD_SLASH.
Proof. destruct p as [|c p]; [reflexivity|]. cbn. apply andb_true_r. Qed.

Lemma startsWith_app_slash (a b : jsstring) :
  startsWith a (js "/") = true -> startsWith (a ++ b) (js "/") = true.
Proof. destruct a as [|c a]; [discriminate|]. cbn. auto. Qed.

(** With an absolute working directory, [path.resolve] of one argument is
    the root followed by the resolved components of the anchored path,
    without a trailing separator. *)
Lemma resolve_one (cwd value : jsstring) :
  absolute cwd ->
  LocalPath.resolve cwd [value]
  = js "/" ++ join [Spec.SLASH]
                   (Spec.resolve false (Spec.components (anchored cwd value))).
Proof.
  intros Hcwd. unfold LocalPath.resolve, anchored.
  cbn [rev app LocalPath.resolve_loop].
  assert (Hcwd0 : (jslength cwd =? 0) = false).
  { apply absolute_cons in Hcwd as [rest ->]. reflexivity. }
  assert (Hcwd1 : code_is (charCodeAt cwd 0) CHAR_FORWARD_SLASH = true).
  { rewrite <- startsWith_slash. exact Hcwd. }
  destruct value as [|c value'] eqn:Ev.
  - (* the empty argument is skipped *)
    change (jslength [] =? 0) with true. cbv iota.
    rewrite Hcwd0, Hcwd1. cbn [negb].
    rewrite normalizeString_resolves.
    change (startsWith [] (js "/")) with false. cbv iota. reflexivity.
  - rewrite <- Ev.
    assert (Hv0 : (jslength value =? 0) = false) by (rewrite Ev; reflexivity).
    rewrite Hv0, <- startsWith_slash.
    destruct (startsWith value (js "/")) eqn:Eabs.
    + cbn [LocalPath.resolve_loop negb].
      rewrite normalizeString_resolves, app_nil_r.
      change (js "/") with [Spec.SLASH].
      rewrite components_app_separator.
      change (Spec.components []) with [@nil code_unit].
      rewrite resolve_trailing_empty. reflexivity.
    + cbn [LocalPath.resolve_loop]. rewrite Hcwd0, Hcwd1. cbn [negb].
      rewrite normalizeString_resolves, app_nil_r.
      change (js "/") with [Spec.SLASH].
      replace (cwd ++ [Spec.SLASH] ++ value ++ [Spec.SLASH])
        with ((cwd ++ [Spec.SLASH] ++ value) ++ Spec.SLASH :: [])
        by (rewrite <- !app_assoc; reflexivity).
      rewrite components_app_separator.
      change (Spec.components []) with [@nil code_unit].
      rewrite resolve_trailing_empty. reflexivity.
Qed.

Lemma resolve_one_idempotent (cwd value : jsstring) :
  absolute cwd ->
  LocalPath.resolve cwd [LocalPath.resolve cwd [value]]
  = LocalPath.resolve cwd [value].
Proof.
  intros Hcwd. rewrite !(resolve_one cwd _ Hcwd).
  set (kept := Spec.resolve false (Spec.components (anchored cwd value))).
  assert (Hplain : Forall Spec.plain_component kept) by apply resolve_plain.
  unfold anchored. change (startsWith (js "/" ++ join [Spec.SLASH] kept) (js "/"))
    with true. cbv iota.
  f_equal. f_equal.
  destruct kept as [|k ks] eqn:Ek; [reflexivity|]. rewrite <- Ek in *.
  assert (Hne : kept <> []) by (rewrite Ek; discriminate).
  assert (Hns : Forall no_separator kept).
  { eapply Forall_impl; [|exact Hplain]. apply plain_no_separator. }
  destruct (components_join kept Hne Hns) as [C1 _].
  change (js "/" ++ join [Spec.SLASH] kept)
    with (Spec.SLASH :: join [Spec.SLASH] kept).
  cbn [Spec.components]. rewrite N.eqb_refl, C1.
  pose proof (resolve_resolved false 0 kept [] Hplain (fun _ => eq_refl)
                (or_introl eq_refl)) as H.
  cbn [repeat app] in H. rewrite app_nil_r in H.
  unfold Spec.resolve in *. cbn [fold_left Spec.resolve_step]. exact H.
Qed.

Lemma localPathWithinRoots_iff (cwd q : jsstring) (roots : list jsstring) :
  localPathWithinRoots cwd q roots = true
  <-> exists r, In r roots /\ on_boundary q (LocalPath.resolve cwd [r]).
Proof.
  unfold localPathWithinRoots, on_boundary. rewrite existsb_exists.
  split; intros [r [Hin H]]; exists r; split; auto.
  - apply orb_true_iff in H as [H|H].
    + left; apply jsstring_eqb_eq; exact H.
    + right. apply startsWith_prefix in H as [rest ->].
      exists rest. rewrite <- app_assoc. reflexivity.
  - apply orb_true_iff. destruct H as [->|[rest ->]].
    + left; apply jsstring_eqb_refl.
    + right. rewrite app_assoc. apply startsWith_app.
Qed.

Lemma resolve_one_absolute (cwd cwd' value : jsstring) :
  absolute cwd -> absolute cwd' -> absolute value ->
  LocalPath.resolve cwd' [value] = LocalPath.resolve cwd [value].
Proof.
  intros Hcwd Hcwd' Hvalue.
  rewrite (resolve_one cwd value Hcwd), (resolve_one cwd' value Hcwd').
  unfold anchored. unfold absolute in Hvalue. rewrite Hvalue. reflexivity.
Qed.

Lemma localPathWithinRoots_absolute_roots
    (cwd cwd' target : jsstring) (roots : list jsstring) :
  absolute cwd -> absolute cwd' -> Forall absolute roots ->
  localPathWithinRoots cwd' target roots = localPathWithinRoots cwd target roots.
Proof.
  intros Hcwd Hcwd' Hroots. unfold localPathWithinRoots.
  induction Hroots as [|r roots Hr _ IH]; [reflexivity|].
  cbn [existsb]. rewrite IH.
  rewrite (resolve_one_absolute cwd cwd' r Hcwd Hcwd' Hr). reflexivity.
Qed.

(** X8. With an absolute working directory, [ensureAllowedLocalPath]
    returns a path only if that path is the lexically resolved form of
    the argument anchored at the working directory: absolute, made of
    components none of which is empty, a dot or a double dot, with no
    trailing separator, and equal to a resolved root or continuing one
    after a separator.  In every other case it throws an error whose
    message is the fixed text, the roots as given joined by a comma and
    a space, and that resolved form.  The resolved form of an absolute
    argument does not depend on the working directory, and when every
    root is absolute as well, neither does the outcome. *)
Theorem ensureAllowedLocalPath_resolved_within
    (cwd pathname : jsstring) (roots : list jsstring)
    (Hcwd : startsWith cwd (js "/") = true) :
  let kept := Spec.resolve false (Spec.components (anchored cwd pathname)) in
  let q := js "/" ++ join (js "/") kept in
  Forall Spec.plain_component kept
  /\ (ensureAllowedLocalPath cwd pathname roots = Ok q
      \/ ensureAllowedLocalPath cwd pathname roots
         = Throw (Error (js "Local path blocked. Allowed local roots: "
                         ++ join (js ", ") roots
                         ++ js ". Blocked: " ++ q)))
  /\ (ensureAllowedLocalPath cwd pathname roots = Ok q
      <-> exists r, In r roots
                    /\ (q = normalizeLocalPath cwd r
                        \/ exists rest,
                             q = normalizeLocalPath cwd r ++ js "/" ++ rest))
  /\ normalizeLocalPath cwd q = q
  /\ (startsWith pathname (js "/") = true ->
      forall cwd', startsWith cwd' (js "/") = true ->
        normalizeLocalPath cwd' pathname = q
        /\ (Forall absolute roots ->
            ensureAllowedLocalPath cwd' pathname roots
            = ensureAllowedLocalPath cwd pathname roots)).
Proof.
  intros kept q.
  assert (Hq : normalizeLocalPath cwd pathname = q)
    by (apply resolve_one; exact Hcwd).
  split; [apply resolve_plain|].
  unfold ensureAllowedLocalPath. rewrite Hq.
  split; [|split; [|split]].
  - destruct (localPathWithinRoots cwd q roots); auto.
  - destruct (localPathWithinRoots cwd q roots) eqn:E; cbn [negb].
    + split; [intros _|reflexivity].
      apply localPathWithinRoots_iff in E. exact E.
    + split; [discriminate|]. intros H.
      apply localPathWithinRoots_iff in H. congruence.
  - rewrite <- Hq. apply resolve_one_idempotent. exact Hcwd.
  - intros Habs cwd' Hcwd'.
    assert (Hq' : normalizeLocalPath cwd' pathname = q).
    { unfold normalizeLocalPath.
      rewrite (resolve_one cwd' pathname Hcwd'). unfold q, kept, anchored.
      rewrite Habs. reflexivity. }
    split; [exact Hq'|]. intros Hroots. rewrite Hq'.
    rewrite (localPathWithinRoots_absolute_roots cwd cwd' q roots
               Hcwd Hcwd' Hroots).
    reflexivity.
Qed.

(** A path that climbs out of the root with double dots is blocked, one
    that stays inside is returned resolved; with a relative root the
    same absolute path is accepted from one working directory and
    blocked from another. *)
Lemma ensureAllowedLocalPath_resolved_within_example :
  ensureAllowedLocalPath (js "/home/dev/mcp") (js "artifacts/../../secret")
    [js "/home/dev/mcp"; js "/tmp"]
  = Throw (Error (js "Local path blocked. Allowed local roots: /home/dev/mcp, /tmp. Blocked: /home/dev/secret"))
  /\ ensureAllowedLocalPath (js "/home/dev/mcp") (js "artifacts/./a/../b.png")
       [js "/home/dev/mcp"; js "/tmp"]
     = Ok (js "/home/dev/mcp/artifacts/b.png")
  /\ ensureAllowedLocalPath (js "/home/me") (js "/home/me/artifacts/x")
       [js "artifacts"]
     = Ok (js "/home/me/artifacts/x")
  /\ ensureAllowedLocalPath (js "/tmp") (js "/home/me/artifacts/x")
       [js "artifacts"]
     = Throw (Error (js "Local path blocked. Allowed local roots: artifacts. Blocked: /home/me/artifacts/x")).
Proof.
  destruct (ensureAllowedLocalPath_resolved_within (js "/home/dev/mcp")
              (js "artifacts/../../secret") [js "/home/dev/mcp"; js "/tmp"]
              eq_refl)
    as [_ [[H|H] _]].
  - vm_compute in H. discriminate H.
  - split; [rewrite H; vm_compute; reflexivity|].
    repeat split; vm_compute; reflexivity.
Defined.

(** ** The runner *)

Section RunnerFacts.

Import Ssh.

Variable config : SshConfig.
Variable cwd : jsstring.
Variable Number_toString : Z -> jsstring.
Variable outcome : list spawn -> spawn -> RawExecResult.

Lemma to_double_exact (n : Z) : Z.abs n <= 2 ^ 53 -> to_double n = n.
Proof.
  intros Hn. unfold to_double. cbv zeta.
  destruct (Z.leb_spec (Z.log2 (Z.abs n) - 52) 0) as [He|He]; [reflexivity|].
  assert (Hlog : Z.log2 (Z.abs n) <= 53).
  { rewrite <- (Z.log2_pow2 53) by lia. apply Z.log2_le_mono. exact Hn. }
  assert (Hpos : 0 < Z.abs n).
  { destruct (Z.eq_dec (Z.abs n) 0) as [E|E]; [|lia].
    rewrite E in He. cbn in He. lia. }
  assert (E53 : Z.log2 (Z.abs n) = 53) by lia.
  assert (Ha : Z.abs n = 2 ^ 53).
  { pose proof (Z.log2_spec (Z.abs n) Hpos) as [Hlo _].
    rewrite E53 in Hlo. lia. }
  rewrite E53, Ha.
  destruct (Z.abs_eq_or_opp n) as [E|E]; rewrite E in Ha.
  - rewrite Ha. reflexivity.
  - assert (En : n = - 2 ^ 53) by lia. rewrite En. reflexivity.
Qed.

(** Within the exact range the timeout handed to a process is the
    exact product. *)
Lemma timeout_ms_exact (timeoutSec : option Z) :
  timeout_exact config timeoutSec = true ->
  timeout_ms config timeoutSec = timeout_seconds config timeoutSec * 1000.
Proof.
  unfold timeout_exact, timeout_ms. intros H. apply Z.leb_le in H.
  apply to_double_exact. lia.
Qed.

(** What one call of [execWithOptionalSshPass] starts, and what it does
    to the cache. *)
Lemma execWithOptionalSshPass_cases (command : jsstring) (args : list jsstring)
    (timeout : Z) (batchMode : bool) (r : runner) :
  forall result r',
    execWithOptionalSshPass config outcome command args timeout batchMode r
    = (result, r') ->
    if batchMode || negb (set (password config)) then
      spawned r' = spawned r ++ [mkSpawn command args timeout]
      /\ sshpassAvailableCache r' = sshpassAvailableCache r
      /\ result = outcome (spawned r) (mkSpawn command args timeout)
    else
      match sshpassAvailableCache r with
      | Some true =>
        spawned r' = spawned r ++ [with_password config command args timeout]
        /\ sshpassAvailableCache r' = Some true
      | Some false =>
        spawned r' = spawned r
        /\ sshpassAvailableCache r' = Some false
        /\ result = sshpass_missing
      | None =>
        (spawned r'
         = spawned r ++ [probe; with_password config command args timeout]
         /\ sshpassAvailableCache r' = Some true)
        \/ (spawned r' = spawned r ++ [probe]
            /\ sshpassAvailableCache r' = Some false
            /\ result = sshpass_missing)
      end.
Proof.
  intros result r'. unfold execWithOptionalSshPass.
  destruct (batchMode || negb (set (password config))).
  - unfold execFileSafe. cbn. intros H. inversion H; subst. cbn. auto.
  - unfold hasSshpass, execFileSafe.
    destruct (sshpassAvailableCache r) as [[|]|] eqn:Ec.
    + cbn. intros H. inversion H; subst. cbn. auto.
    + cbn. intros H. inversion H; subst. cbn. auto.
    + cbv zeta.
      destruct (raw_exitCode (outcome (spawned r)
                                (mkSpawn (js "sshpass") [js "-V"] 3000)) =? 0);
        cbn [negb spawned sshpassAvailableCache]; intros H; inversion H; subst;
        cbn [spawned sshpassAvailableCache].
      * left. rewrite <- app_assoc. auto.
      * right. auto.
Qed.

Lemma with_password_ends_with_command (base : list jsstring)
    (prog command : jsstring) (timeout : Z) :
  ends_with_command config command
    (with_password config prog (base ++ [target config; command]) timeout).
Proof.
  exists ([js "-p"; value_of (password config); prog] ++ base).
  unfold with_password. cbn [argv]. rewrite <- app_assoc. reflexivity.
Qed.

(** X9. For a timeout that doubles hold exactly, every process that
    [execRemote] starts, other than the probe for [sshpass], has the
    remote command as its last argument, unchanged and in one piece,
    right after the user-at-host target: the first process is always
    [ssh] in batch mode, with the seconds times 1000 as its timeout, at
    most two more follow, and each of those is the probe or [sshpass]
    carrying the same [ssh] call. *)
Theorem execRemote_command_verbatim
    (command : jsstring) (timeoutSec : option Z) (r : runner) :
  timeout_exact config timeoutSec = true ->
  exists rest,
    spawned (snd (execRemote config Number_toString outcome command timeoutSec r))
    = spawned r
      ++ mkSpawn (js "ssh")
           (sshBaseArgs config Number_toString true
            ++ [target config; command])
           (timeout_seconds config timeoutSec * 1000)
         :: rest
    /\ (length rest <= 2)%nat
    /\ Forall (fun s => s = probe
                        \/ (program s = js "sshpass"
                            /\ ends_with_command config command s))
              rest.
Proof.
  intros Hexact. rewrite <- (timeout_ms_exact timeoutSec Hexact).
  unfold execRemote, runSshCommand.
  destruct (execWithOptionalSshPass config outcome (js "ssh")
              (sshBaseArgs config Number_toString true ++ [target config; command])
              (timeout_ms config timeoutSec) true r) as [kr r1] eqn:Ekey.
  apply execWithOptionalSshPass_cases in Ekey.
  cbn [orb] in Ekey. destruct Ekey as [Hs1 [Hc1 _]].
  destruct (ok (as_result kr true)
            || negb (shouldTryPassword config (stderr (as_result kr true)))) eqn:Estop.
  - exists []. cbn [snd]. rewrite Hs1. repeat split; auto.
  - destruct (execWithOptionalSshPass config outcome (js "ssh")
                (sshBaseArgs config Number_toString false ++ [target config; command])
                (timeout_ms config timeoutSec) false r1) as [pr r2] eqn:Epw.
    apply execWithOptionalSshPass_cases in Epw.
    cbn [snd].
    assert (Hset : set (password config) = true).
    { apply orb_false_iff in Estop as [_ H]. apply negb_false_iff in H.
      unfold shouldTryPassword in H.
      destruct (set (password config)); [reflexivity|discriminate]. }
    rewrite Hset in Epw. cbn [orb negb] in Epw.
    pose proof (with_password_ends_with_command
                  (sshBaseArgs config Number_toString false) (js "ssh")
                  command (timeout_ms config timeoutSec)) as Hcarry.
    destruct (sshpassAvailableCache r1) as [[|]|].
    + destruct Epw as [Hs2 _]. eexists. rewrite Hs2, Hs1, <- app_assoc.
      split; [reflexivity|]. split; [cbn; lia|].
      constructor; [|constructor].
      right. split; [reflexivity|exact Hcarry].
    + destruct Epw as [Hs2 _]. exists []. rewrite Hs2, Hs1. auto.
    + destruct Epw as [[Hs2 _]|[Hs2 _]]; eexists; rewrite Hs2, Hs1, <- app_assoc;
        (split; [reflexivity|]); (split; [cbn; lia|]).
      * constructor; [left; reflexivity|]. constructor; [|constructor].
        right. split; [reflexivity|exact Hcarry].
      * constructor; [left; reflexivity|constructor].
Qed.

(** X10. For a timeout that doubles hold exactly, [execRemote] goes
    beyond the key attempt exactly when a password is configured, the
    key attempt did not exit with 0, and its standard error names an
    authentication failure.  Otherwise exactly one process is started,
    with the seconds times 1000 as its timeout, the cache is untouched
    and the result is that of the key attempt, marked with the key
    mode; in the fallback the result is marked with the password
    mode. *)
Theorem execRemote_password_only_after_auth_failure
    (command : jsstring) (timeoutSec : option Z) (r : runner) :
  timeout_exact config timeoutSec = true ->
  let key := mkSpawn (js "ssh")
               (sshBaseArgs config Number_toString true
                ++ [target config; command])
               (timeout_seconds config timeoutSec * 1000) in
  let first := outcome (spawned r) key in
  let out := execRemote config Number_toString outcome command timeoutSec r in
  let fallback :=
    set (password config) = true
    /\ raw_exitCode first <> 0
    /\ RegExp.test auth_failure_re (raw_stderr first) = true in
  (~ fallback ->
   out = (as_result first true,
          mkRunner (sshpassAvailableCache r) (spawned r ++ [key])))
  /\ (fallback -> authMode (fst out) = js "password")
  /\ (spawned (snd out) <> spawned r ++ [key] -> fallback).
Proof.
  intros Hexact. rewrite <- (timeout_ms_exact timeoutSec Hexact).
  intros key first out fallback.
  assert (Hkey : runSshCommand config Number_toString outcome command
                   (timeout_ms config timeoutSec) true r
                 = (as_result first true,
                    mkRunner (sshpassAvailableCache r) (spawned r ++ [key]))).
  { unfold runSshCommand, execWithOptionalSshPass. cbn [orb].
    unfold execFileSafe. reflexivity. }
  assert (Hdec : (ok (as_result first true)
                  || negb (shouldTryPassword config (stderr (as_result first true)))
                  = false) <-> fallback).
  { unfold fallback, shouldTryPassword, as_result. cbn [ok stderr].
    rewrite orb_false_iff, negb_false_iff, Z.eqb_neq.
    destruct (set (password config)); cbn [negb]; split.
    - intros [H1 H2]. auto.
    - intros [_ [H1 H2]]. auto.
    - intros [_ H]. discriminate.
    - intros [H _]. discriminate. }
  unfold out, execRemote. rewrite Hkey.
  destruct (ok (as_result first true)
            || negb (shouldTryPassword config (stderr (as_result first true))))
    eqn:Estop.
  - assert (Hnf : ~ fallback) by (intros H; apply Hdec in H; discriminate).
    split; [reflexivity|]. split; [contradiction|].
    cbn [snd spawned]. congruence.
  - assert (Hf : fallback) by (apply Hdec; reflexivity).
    split; [contradiction|]. split; [|auto]. intros _.
    unfold runSshCommand.
    destruct (execWithOptionalSshPass config outcome (js "ssh") _ _ false _).
    reflexivity.
Qed.

End RunnerFacts.

Lemma execRemote_command_verbatim_example :
  Ssh.timeout_exact
    (Ssh.mkSshConfig (js "10.0.0.9") (js "root") 22 None (Some (js "alpine"))
       5 30 (js "accept-new") (js "/home/me/.ssh/known_hosts"))
    (Some 60)
  = true
  /\ exists rest,
       Ssh.spawned
         (snd (Ssh.execRemote
                 (Ssh.mkSshConfig (js "10.0.0.9") (js "root") 22 None
                    (Some (js "alpine")) 5 30 (js "accept-new")
                    (js "/home/me/.ssh/known_hosts"))
                 decimal
                 (fun _ _ =>
                    Ssh.mkRaw [] (js "Permission denied (publickey).") 255 None)
                 (js "uname -a") (Some 60) (Ssh.mkRunner None [])))
       = Ssh.spawned (Ssh.mkRunner None [])
         ++ Ssh.mkSpawn (js "ssh")
              (Ssh.sshBaseArgs
                 (Ssh.mkSshConfig (js "10.0.0.9") (js "root") 22 None
                    (Some (js "alpine")) 5 30 (js "accept-new")
                    (js "/home/me/.ssh/known_hosts"))
                 decimal true
               ++ [js "root@10.0.0.9"; js "uname -a"])
              (60 * 1000)
            :: rest
       /\ (length rest <= 2)%nat
       /\ Forall (fun s => s = Ssh.probe
                           \/ (Ssh.program s = js "sshpass"
                               /\ Ssh.ends_with_command
                                    (Ssh.mkSshConfig (js "10.0.0.9") (js "root")
                                       22 None (Some (js "alpine")) 5 30
                                       (js "accept-new")
                                       (js "/home/me/.ssh/known_hosts"))
                                    (js "uname -a") s))
                 rest.
Proof.
  split; [reflexivity|].
  apply (execRemote_command_verbatim
           (Ssh.mkSshConfig (js "10.0.0.9") (js "root") 22 None
              (Some (js "alpine")) 5 30 (js "accept-new")
              (js "/home/me/.ssh/known_hosts"))
           decimal
           (fun _ _ =>
              Ssh.mkRaw [] (js "Permission denied (publickey).") 255 None)
           (js "uname -a") (Some 60) (Ssh.mkRunner None [])).
  reflexivity.
Defined.

Lemma execRemote_password_only_after_auth_failure_example :
  Ssh.timeout_exact
    (Ssh.mkSshConfig (js "10.0.0.9") (js "root") 22 None (Some (js "alpine"))
       5 30 (js "accept-new") (js "/home/me/.ssh/known_hosts"))
    None
  = true
  /\ Ssh.authMode
       (fst (Ssh.execRemote
               (Ssh.mkSshConfig (js "10.0.0.9") (js "root") 22 None
                  (Some (js "alpine")) 5 30 (js "accept-new")
                  (js "/home/me/.ssh/known_hosts"))
               decimal
               (fun _ _ =>
                  Ssh.mkRaw [] (js "Permission denied (publickey).") 255 None)
               (js "uname -a") None (Ssh.mkRunner None [])))
     = js "password".
Proof.
  split; [reflexivity|].
  destruct (execRemote_password_only_after_auth_failure
              (Ssh.mkSshConfig (js "10.0.0.9") (js "root") 22 None
                 (Some (js "alpine")) 5 30 (js "accept-new")
                 (js "/home/me/.ssh/known_hosts"))
              decimal
              (fun _ _ =>
                 Ssh.mkRaw [] (js "Permission denied (publickey).") 255 None)
              (js "uname -a") None (Ssh.mkRunner None []))
    as [_ [Hfallback _]]; [reflexivity|].
  apply Hfallback. split; [reflexivity|]. split; [discriminate|].
  vm_compute. reflexivity.
Defined.

(** ** The cache of the [sshpass] probe *)

Section ProbeFacts.

Import Ssh.

Variable config : SshConfig.
Variable cwd : jsstring.
Variable Number_toString : Z -> jsstring.
Variable outcome : list spawn -> spawn -> RawExecResult.

Lemma probe_count_app (a b : list spawn) :
  probe_count (a ++ b) = (probe_count a + probe_count b)%nat.
Proof. unfold probe_count. rewrite filter_app, length_app. reflexivity. Qed.

Lemma probes_at_most_once_refl (r : runner) : probes_at_most_once r r.
Proof.
  exists []. rewrite app_nil_r. split; [reflexivity|].
  destruct (sshpassAvailableCache r); auto.
Qed.

Lemma probes_at_most_once_trans (r1 r2 r3 : runner) :
  probes_at_most_once r1 r2 ->
  probes_at_most_once r2 r3 ->
  probes_at_most_once r1 r3.
Proof.
  intros [n1 [E1 H1]] [n2 [E2 H2]]. exists (n1 ++ n2).
  split; [rewrite E2, E1, app_assoc; reflexivity|].
  rewrite probe_count_app.
  destruct (sshpassAvailableCache r1) as [b|].
  - destruct H1 as [C1 P1]. rewrite C1 in H2. destruct H2 as [C2 P2].
    split; [exact C2|lia].
  - destruct H1 as [[C1 P1]|[b [C1 P1]]]; rewrite C1 in H2.
    + destruct H2 as [[C2 P2]|[b [C2 P2]]].
      * left. split; [exact C2|lia].
      * right. exists b. split; [exact C2|lia].
    + destruct H2 as [C2 P2]. right. exists b. split; [exact C2|lia].
Qed.

Lemma execWithOptionalSshPass_probes (prog : jsstring) (args : list jsstring)
    (timeout : Z) (batchMode : bool) (r r' : runner) (result : RawExecResult) :
  jsstring_eqb prog (js "sshpass") = false ->
  execWithOptionalSshPass config outcome prog args timeout batchMode r
  = (result, r') ->
  probes_at_most_once r r'.
Proof.
  intros Hprog H. apply execWithOptionalSshPass_cases in H.
  unfold probes_at_most_once.
  assert (Hplain : probe_count [mkSpawn prog args timeout] = 0%nat).
  { unfold probe_count. cbn [filter]. unfold is_probe. cbn [program].
    rewrite Hprog. reflexivity. }
  assert (Hpw : probe_count [with_password config prog args timeout] = 0%nat)
    by reflexivity.
  assert (Hboth : probe_count [probe; with_password config prog args timeout]
                  = 1%nat) by reflexivity.
  destruct (batchMode || negb (set (password config))).
  - destruct H as [Hs [Hc _]]. eexists. split; [exact Hs|].
    rewrite Hc. destruct (sshpassAvailableCache r); auto.
  - destruct (sshpassAvailableCache r) as [[|]|].
    + destruct H as [Hs Hc]. eexists. split; [exact Hs|].
      split; [exact Hc|exact Hpw].
    + destruct H as [Hs [Hc _]]. exists []. rewrite app_nil_r.
      split; [exact Hs|]. split; [exact Hc|reflexivity].
    + destruct H as [[Hs Hc]|[Hs [Hc _]]]; eexists; (split; [exact Hs|]);
        right; eexists; (split; [exact Hc|reflexivity]).
Qed.

Lemma runSshCommand_probes (command : jsstring) (timeout : Z) (batchMode : bool)
    (r : runner) :
  probes_at_most_once r
    (snd (runSshCommand config Number_toString outcome command timeout batchMode r)).
Proof.
  unfold runSshCommand.
  destruct (execWithOptionalSshPass config outcome (js "ssh") _ timeout batchMode r)
    as [result r'] eqn:E.
  apply execWithOptionalSshPass_probes in E; [exact E|reflexivity].
Qed.

Lemma runScp_probes (pathArgs : list jsstring) (timeout : Z) (batchMode : bool)
    (r : runner) :
  probes_at_most_once r
    (snd (runScp config Number_toString outcome pathArgs timeout batchMode r)).
Proof.
  unfold runScp.
  destruct (execWithOptionalSshPass config outcome (js "scp") _ timeout batchMode r)
    as [result r'] eqn:E.
  apply execWithOptionalSshPass_probes in E; [exact E|reflexivity].
Qed.

(** The shape shared by [execRemote], [copyFromRemote] and
    [copyToRemote]: a key attempt, then perhaps a password attempt. *)
Lemma two_attempts_probes (run : bool -> R ExecResult) (r : runner) :
  (forall b r0, probes_at_most_once r0 (snd (run b r0))) ->
  probes_at_most_once r
    (snd (let (keyAttempt, r1) := run true r in
          if ok keyAttempt
             || negb (shouldTryPassword config (stderr keyAttempt))
          then (keyAttempt, r1)
          else run false r1)).
Proof.
  intros Hrun. pose proof (Hrun true r) as H1.
  destruct (run true r) as [keyAttempt r1]. cbn [snd] in H1.
  destruct (ok keyAttempt || negb (shouldTryPassword config (stderr keyAttempt))).
  - exact H1.
  - apply (probes_at_most_once_trans r r1); [exact H1|apply Hrun].
Qed.

(** X11. The answer of the probe for [sshpass] is remembered: a call of
    [execRemote], [copyFromRemote] or [copyToRemote] that finds the cache
    filled leaves it as it is and starts no probe, one that finds it
    empty starts at most one probe and fills the cache with its answer
    if it does.  The same then holds of any sequence of such calls, so a
    runner probes at most once. *)
Theorem sshpass_probed_at_most_once :
  (forall command timeoutSec r,
      probes_at_most_once r
        (snd (execRemote config Number_toString outcome command timeoutSec r)))
  /\ (forall remotePath localPath timeoutSec r,
        probes_at_most_once r
          (snd (copyFromRemote config cwd Number_toString outcome
                  remotePath localPath timeoutSec r)))
  /\ (forall localPath remotePath timeoutSec r,
        probes_at_most_once r
          (snd (copyToRemote config cwd Number_toString outcome
                  localPath remotePath timeoutSec r)))
  /\ (forall r, probes_at_most_once r r)
  /\ (forall r1 r2 r3,
        probes_at_most_once r1 r2 -> probes_at_most_once r2 r3 ->
        probes_at_most_once r1 r3).
Proof.
  split; [|split; [|split; [|split]]].
  - intros command timeoutSec r. unfold execRemote.
    apply (two_attempts_probes
             (runSshCommand config Number_toString outcome command
                (timeout_ms config timeoutSec))).
    intros b r0. apply runSshCommand_probes.
  - intros remotePath localPath timeoutSec r. unfold copyFromRemote.
    apply (two_attempts_probes
             (runScp config Number_toString outcome
                [remoteSpec config remotePath; LocalPath.resolve cwd [localPath]]
                (timeout_ms config timeoutSec))).
    intros b r0. apply runScp_probes.
  - intros localPath remotePath timeoutSec r. unfold copyToRemote.
    apply (two_attempts_probes
             (runScp config Number_toString outcome
                [LocalPath.resolve cwd [localPath]; remoteSpec config remotePath]
                (timeout_ms config timeoutSec))).
    intros b r0. apply runScp_probes.
  - apply probes_at_most_once_refl.
  - apply probes_at_most_once_trans.
Qed.

End ProbeFacts.

(** ** The escaped remote-copy path, read by the remote shell *)

Lemma special_unquoted_escaped (c : code_unit) :
  PosixShell.special_unquoted c = true ->
  Spec.escaped_character c = true \/ lost_by_escape c = true.
Proof.
  unfold PosixShell.special_unquoted.
  cbn [existsb app js map list_ascii_of_string].
  rewrite !orb_true_iff, !N.eqb_eq.
  intros H.
  repeat (destruct H as [H|H]; [subst c; vm_compute; auto|]).
  discriminate H.
Qed.

Lemma escape_each_cons (c : code_unit) (s : jsstring) :
  Spec.escape_each (c :: s)
  = (if Spec.escaped_character c then [92%N; c] else [c]) ++ Spec.escape_each s.
Proof. reflexivity. Qed.

Lemma read_word_escaped_character (c : code_unit) (rest : jsstring) :
  Spec.escaped_character c = true ->
  PosixShell.read_word false (92%N :: c :: rest)
  = if N.eqb c 10%N then PosixShell.read_word false rest
    else option_map (cons c) (PosixShell.read_word false rest).
Proof. reflexivity. Qed.

Lemma read_word_plain_character (c : code_unit) (rest : jsstring) :
  Spec.escaped_character c = false ->
  PosixShell.read_word false (c :: rest)
  = if PosixShell.special_unquoted c then None
    else option_map (cons c) (PosixShell.read_word false rest).
Proof.
  intros H. cbn [PosixShell.read_word].
  assert (Hq : N.eqb c PosixShell.SQUOTE = false).
  { destruct (N.eqb_spec c PosixShell.SQUOTE) as [->|]; [discriminate H|reflexivity]. }
  assert (Hb : N.eqb c PosixShell.BACKSLASH = false).
  { destruct (N.eqb_spec c PosixShell.BACKSLASH) as [->|]; [discriminate H|reflexivity]. }
  rewrite Hq, Hb. reflexivity.
Qed.

Lemma read_word_escape_each (s : jsstring) :
  (forall c, In c s -> lost_by_escape c = false) ->
  PosixShell.read_word false (Spec.escape_each s) = Some s.
Proof.
  induction s as [|c s IH]; intros H; [reflexivity|].
  assert (Hc : lost_by_escape c = false) by (apply H; left; reflexivity).
  assert (Hs : forall x, In x s -> lost_by_escape x = false)
    by (intros x Hx; apply H; right; exact Hx).
  rewrite escape_each_cons.
  destruct (Spec.escaped_character c) eqn:E; cbn [app].
  - rewrite (read_word_escaped_character c _ E).
    assert (Hn : N.eqb c 10%N = false).
    { unfold lost_by_escape in Hc. apply orb_false_iff in Hc as [Hc _].
      apply orb_false_iff in Hc as [Hc _]. exact Hc. }
    rewrite Hn, (IH Hs). reflexivity.
  - rewrite (read_word_plain_character c _ E).
    destruct (PosixShell.special_unquoted c) eqn:Es.
    + apply special_unquoted_escaped in Es as [Es|Es]; congruence.
    + rewrite (IH Hs). reflexivity.
Qed.

Lemma read_word_escape_each_newline (a b : jsstring) :
  PosixShell.read_word false (Spec.escape_each (a ++ 10%N :: b))
  = PosixShell.read_word false (Spec.escape_each (a ++ b)).
Proof.
  induction a as [|c a IH]; [reflexivity|].
  cbn [app]. rewrite !escape_each_cons.
  destruct (Spec.escaped_character c) eqn:E; cbn [app].
  - rewrite !(read_word_escaped_character c _ E), IH. reflexivity.
  - rewrite !(read_word_plain_character c _ E), IH. reflexivity.
Qed.

(** X12. Read as one word by a POSIX shell, the output of
    [escapeScpRemotePath] gives the path back when the path holds no
    newline (and neither of the two characters the reader refuses
    unquoted).  A newline in the path is lost: the backslash put before
    it makes the shell drop both, so the path arrives without it. *)
Theorem escapeScpRemotePath_read_by_shell :
  (forall s : jsstring,
      (forall c, In c s -> lost_by_escape c = false) ->
      PosixShell.parse_single_word (escapeScpRemotePath s) = Some s)
  /\ (forall a b : jsstring,
        PosixShell.parse_single_word (escapeScpRemotePath (a ++ 10%N :: b))
        = PosixShell.parse_single_word (escapeScpRemotePath (a ++ b))).
Proof.
  unfold PosixShell.parse_single_word. split.
  - intros s H. rewrite escapeScpRemotePath_escape_each.
    apply read_word_escape_each. exact H.
  - intros a b. rewrite !escapeScpRemotePath_escape_each.
    apply read_word_escape_each_newline.
Qed.

(** A path with spaces and quotes arrives whole; one with a newline
    arrives as the path without it. *)
Lemma escapeScpRemotePath_read_by_shell_example :
  PosixShell.parse_single_word (escapeScpRemotePath (js "/tmp/my 'odd' file.deb"))
  = Some (js "/tmp/my 'odd' file.deb")
  /\ PosixShell.parse_single_word
       (escapeScpRemotePath (js "/tmp/a" ++ 10%N :: js "b"))
     = Some (js "/tmp/ab").
Proof.
  destruct escapeScpRemotePath_read_by_shell as [Hkeep Hdrop].
  split.
  - apply Hkeep. intros c Hc. vm_compute in Hc.
    repeat (destruct Hc as [<-|Hc]; [reflexivity|]). destruct Hc.
  - rewrite Hdrop. apply Hkeep. intros c Hc. vm_compute in Hc.
    repeat (destruct Hc as [<-|Hc]; [reflexivity|]). destruct Hc.
Defined.

(** ** Reading the commands of the file tools *)

Import ShellTokens.

Lemma lex_open_quote (cur : pending) (rest : jsstring) :
  lex false cur (39%N :: rest) = lex true (extend cur [] true) rest.
Proof. reflexivity. Qed.

Lemma lex_close_quote (cur : pending) (rest : jsstring) :
  lex true cur (39%N :: rest) = lex false cur rest.
Proof. reflexivity. Qed.

Lemma lex_quoted_character (c : code_unit) (w : jsstring) (rest : jsstring) :
  c <> 39%N ->
  lex true (Some (w, true)) (c :: rest) = lex true (Some (w ++ [c], true)) rest.
Proof.
  intros Hc. cbn [lex]. apply N.eqb_neq in Hc. rewrite Hc. reflexivity.
Qed.

(** Inside single quotes every character up to the closing quote is
    kept. *)
Lemma lex_single_plain (p : jsstring) :
  ~ In 39%N p ->
  forall w rest,
    lex true (Some (w, true)) (p ++ 39%N :: rest)
    = lex false (Some (w ++ p, true)) rest.
Proof.
  induction p as [|c p IH]; intros Hq w rest.
  - cbn [app]. rewrite lex_close_quote, app_nil_r. reflexivity.
  - cbn [app]. rewrite lex_quoted_character.
    + rewrite IH.
      * rewrite <- app_assoc. reflexivity.
      * intros Hin. apply Hq. right. exact Hin.
    + intros ->. apply Hq. left. reflexivity.
Qed.

(** The body [shellQuote] writes between its quotes is read back as the
    value, whatever the value holds. *)
Lemma lex_requote_each (s : jsstring) :
  forall w rest,
    lex true (Some (w, true)) (Spec.requote_each s ++ 39%N :: rest)
    = lex false (Some (w ++ s, true)) rest.
Proof.
  induction s as [|c s IH]; intros w rest.
  - cbn [Spec.requote_each flat_map app]. rewrite lex_close_quote, app_nil_r.
    reflexivity.
  - change (Spec.requote_each (c :: s))
      with ((if N.eqb c 39%N then [39%N; 92%N; 39%N; 39%N] else [c])
            ++ Spec.requote_each s).
    destruct (N.eqb c 39%N) eqn:Hc.
    + apply N.eqb_eq in Hc. subst c.
      change (lex true (Some (w, true))
                (([39%N; 92%N; 39%N; 39%N] ++ Spec.requote_each s)
                 ++ 39%N :: rest))
        with (lex true (Some ((w ++ [39%N]) ++ [], true))
                (Spec.requote_each s ++ 39%N :: rest)).
      rewrite app_nil_r, IH, <- app_assoc. reflexivity.
    + apply N.eqb_neq in Hc.
      change (([c] ++ Spec.requote_each s) ++ 39%N :: rest)
        with (c :: Spec.requote_each s ++ 39%N :: rest).
      rewrite lex_quoted_character by exact Hc.
      rewrite IH, <- app_assoc. reflexivity.
Qed.

(** A value quoted by [shellQuote] adds exactly the value to the word
    being read, and marks the word as quoted. *)
Lemma lex_shellQuote (cur : pending) (s rest : jsstring) :
  lex false cur (shellQuote s ++ rest) = lex false (extend cur s true) rest.
Proof.
  rewrite shellQuote_requote.
  change ((39%N :: Spec.requote_each s ++ [39%N]) ++ rest)
    with (39%N :: (Spec.requote_each s ++ [39%N]) ++ rest).
  rewrite <- app_assoc. cbn [app]. rewrite lex_open_quote.
  destruct cur as [[w q]|]; cbn [extend].
  - rewrite app_nil_r, orb_true_r, lex_requote_each. reflexivity.
  - rewrite lex_requote_each. reflexivity.
Qed.

Lemma lex_ordinary_character (c : code_unit) (cur : pending) (rest : jsstring) :
  ordinary c = true ->
  lex false cur (c :: rest) = lex false (extend cur [c] false) rest.
Proof.
  unfold ordinary. intros H. apply negb_true_iff in H.
  repeat (apply orb_false_iff in H; destruct H as [H ?]).
  cbn [lex]. rewrite H.
  repeat match goal with E : _ = false |- _ => rewrite E; clear E end.
  reflexivity.
Qed.

(** Ordinary characters only extend the word being read. *)
Lemma lex_ordinary (ds : jsstring) :
  forallb ordinary ds = true ->
  ds <> [] ->
  forall cur rest,
    lex false cur (ds ++ rest) = lex false (extend cur ds false) rest.
Proof.
  induction ds as [|d ds IH]; intros Hall Hne cur rest; [congruence|].
  cbn [forallb] in Hall. apply andb_true_iff in Hall. destruct Hall as [Hd Hds].
  cbn [app]. rewrite lex_ordinary_character by exact Hd.
  destruct ds as [|d' ds'].
  - reflexivity.
  - rewrite IH by (exact Hds || discriminate).
    destruct cur as [[w q]|]; cbn [extend].
    + rewrite <- app_assoc, orb_false_r. reflexivity.
    + reflexivity.
Qed.

(** ** Paths that normalisation leaves alone *)

Lemma resolve_absolute_canonical (kept : list jsstring) :
  kept <> [] ->
  Forall Spec.plain_component kept ->
  Spec.resolve_absolute (Spec.SLASH :: join [Spec.SLASH] kept)
  = Spec.SLASH :: join [Spec.SLASH] kept.
Proof.
  intros Hne Hplain.
  assert (Hsep : Forall no_separator kept).
  { eapply Forall_impl; [|exact Hplain]. intros seg. apply plain_no_separator. }
  assert (Hcomp : Spec.components (Spec.SLASH :: join [Spec.SLASH] kept)
                  = [] :: kept).
  { change (Spec.SLASH :: join [Spec.SLASH] kept)
      with ([] ++ Spec.SLASH :: join [Spec.SLASH] kept).
    rewrite components_separator by (intros []).
    destruct (components_join kept Hne Hsep) as [-> _]. reflexivity. }
  assert (Hres : Spec.resolve false ([] :: kept) = kept).
  { unfold Spec.resolve. cbn [fold_left Spec.resolve_step].
    rewrite fold_resolve_push by exact Hplain.
    rewrite app_nil_r. apply rev_involutive. }
  assert (Hend : Spec.ends_with_slash (Spec.SLASH :: join [Spec.SLASH] kept)
                 = false).
  { destruct (join_last_not_separator kept Hne) as [a [y [E Hy]]].
    - eapply Forall_impl; [|exact Hplain]. intros seg. apply plain_stored.
    - rewrite E.
      change (Spec.SLASH :: a ++ [y]) with ((Spec.SLASH :: a) ++ [y]).
      rewrite ends_with_slash_snoc. apply N.eqb_neq. exact Hy. }
  unfold Spec.resolve_absolute. rewrite Hcomp, Hres, Hend, app_nil_r.
  destruct kept; [congruence|reflexivity].
Qed.

Lemma resolve_absolute_canonical_slash (kept : list jsstring) :
  kept <> [] ->
  Forall Spec.plain_component kept ->
  Spec.resolve_absolute (Spec.SLASH :: join [Spec.SLASH] kept ++ [Spec.SLASH])
  = Spec.SLASH :: join [Spec.SLASH] kept ++ [Spec.SLASH].
Proof.
  intros Hne Hplain.
  assert (Hsep : Forall no_separator kept).
  { eapply Forall_impl; [|exact Hplain]. intros seg. apply plain_no_separator. }
  assert (Hcomp : Spec.components
                    (Spec.SLASH :: join [Spec.SLASH] kept ++ [Spec.SLASH])
                  = [] :: kept ++ [[]]).
  { change (Spec.SLASH :: join [Spec.SLASH] kept ++ [Spec.SLASH])
      with ([] ++ Spec.SLASH :: join [Spec.SLASH] kept ++ [Spec.SLASH]).
    rewrite components_separator by (intros []).
    destruct (components_join kept Hne Hsep) as [_ ->]. reflexivity. }
  assert (Hres : Spec.resolve false ([] :: kept ++ [[]]) = kept).
  { unfold Spec.resolve. cbn [fold_left Spec.resolve_step].
    rewrite fold_left_app. cbn [fold_left Spec.resolve_step].
    rewrite fold_resolve_push by exact Hplain.
    rewrite app_nil_r. apply rev_involutive. }
  assert (Hend : Spec.ends_with_slash
                   (Spec.SLASH :: join [Spec.SLASH] kept ++ [Spec.SLASH])
                 = true).
  { change (Spec.SLASH :: join [Spec.SLASH] kept ++ [Spec.SLASH])
      with ((Spec.SLASH :: join [Spec.SLASH] kept) ++ [Spec.SLASH]).
    rewrite ends_with_slash_snoc. reflexivity. }
  unfold Spec.resolve_absolute. rewrite Hcomp, Hres, Hend.
  destruct kept; [congruence|reflexivity].
Qed.

Lemma resolve_absolute_canonical_form (p : jsstring) :
  canonical (Spec.resolve_absolute p).
Proof.
  unfold Spec.resolve_absolute.
  pose proof (resolve_plain p) as Hplain.
  destruct (Spec.resolve false (Spec.components p)) as [|k ks] eqn:E.
  - left. reflexivity.
  - right. exists (k :: ks). split; [discriminate|]. split; [exact Hplain|].
    destruct (Spec.ends_with_slash p); [right|left].
    + reflexivity.
    + rewrite app_nil_r. reflexivity.
Qed.

Lemma normalizeRemotePath_canonical (p : jsstring) :
  canonical p -> normalizeRemotePath p = Ok p.
Proof.
  intros [->|[kept [Hne [Hplain [->| ->]]]]].
  - reflexivity.
  - rewrite normalizeRemotePath_absolute by reflexivity.
    rewrite normalize_absolute by reflexivity.
    f_equal. apply resolve_absolute_canonical; assumption.
  - rewrite normalizeRemotePath_absolute by reflexivity.
    rewrite normalize_absolute by reflexivity.
    f_equal. apply resolve_absolute_canonical_slash; assumption.
Qed.

Lemma normalizeRemotePath_Ok (p q : jsstring) :
  normalizeRemotePath p = Ok q ->
  absolute p /\ q = Spec.resolve_absolute p.
Proof.
  unfold normalizeRemotePath. intros H.
  destruct (startsWith p (js "/")) eqn:Habs; [|discriminate].
  cbn [negb] in H. split; [exact Habs|].
  rewrite <- normalize_absolute by exact Habs. congruence.
Qed.

(** X18 ([normalizeRemotePath]): every path it returns is canonical:
    the root alone, or the root followed by components separated by
    single slashes, none of them empty, [.] or [..], with or without a
    slash at the end.  The canonical paths are exactly the ones it
    returns as they are given. *)
Theorem normalizeRemotePath_fixed_points :
  (forall p q, normalizeRemotePath p = Ok q -> canonical q)
  /\ (forall p, normalizeRemotePath p = Ok p <-> canonical p).
Proof.
  assert (Himage : forall p q, normalizeRemotePath p = Ok q -> canonical q).
  { intros p q H. apply normalizeRemotePath_Ok in H. destruct H as [_ ->].
    apply resolve_absolute_canonical_form. }
  split; [exact Himage|]. intros p. split.
  - apply Himage.
  - apply normalizeRemotePath_canonical.
Qed.

Lemma digit_ordinary (k : N) : (k < 10)%N -> ordinary (48 + k)%N = true.
Proof.
  intros H.
  destruct k as [|p]; [reflexivity|].
  do 4 (destruct p as [p|p|]; try reflexivity; try lia).
Qed.

Lemma decimal_digits_ordinary (fuel : nat) :
  forall n acc,
    forallb ordinary acc = true ->
    forallb ordinary (decimal_digits fuel n acc) = true.
Proof.
  induction fuel as [|fuel IH]; intros n acc Hacc; cbn [decimal_digits].
  - exact Hacc.
  - assert (Hacc' : forallb ordinary ((48 + n mod 10)%N :: acc) = true).
    { cbn [forallb]. rewrite Hacc, digit_ordinary; [reflexivity|].
      apply N.mod_lt. discriminate. }
    destruct (n / 10 =? 0)%N.
    + exact Hacc'.
    + apply IH. exact Hacc'.
Qed.

Lemma decimal_digits_nonempty (fuel : nat) :
  forall n acc, acc <> [] -> decimal_digits fuel n acc <> [].
Proof.
  induction fuel as [|fuel IH]; intros n acc Hacc; cbn [decimal_digits].
  - exact Hacc.
  - destruct (n / 10 =? 0)%N; [discriminate|]. apply IH. discriminate.
Qed.

Lemma decimal_ordinary (n : Z) : forallb ordinary (decimal n) = true.
Proof. apply decimal_digits_ordinary. reflexivity. Qed.

Lemma decimal_nonempty (n : Z) : decimal n <> [].
Proof.
  unfold decimal. cbn [decimal_digits].
  destruct (Z.to_N n / 10 =? 0)%N; [discriminate|].
  apply decimal_digits_nonempty. discriminate.
Qed.

(** A number written by a template literal is read as part of one
    unquoted word. *)
Lemma lex_decimal (n : Z) (cur : pending) (rest : jsstring) :
  lex false cur (decimal n ++ rest)
  = lex false (extend cur (decimal n) false) rest.
Proof. apply lex_ordinary; [apply decimal_ordinary | apply decimal_nonempty]. Qed.

Lemma lex_shellQuote_last (cur : pending) (s : jsstring) :
  lex false cur (shellQuote s) = emit (extend cur s true) (Some []).
Proof.
  rewrite <- (app_nil_r (shellQuote s)), lex_shellQuote.
  destruct cur as [[w q]|]; reflexivity.
Qed.

Lemma lex_decimal_last (n : Z) (cur : pending) :
  lex false cur (decimal n) = emit (extend cur (decimal n) false) (Some []).
Proof.
  rewrite <- (app_nil_r (decimal n)) at 1. rewrite lex_decimal.
  destruct cur as [[w q]|]; reflexivity.
Qed.

Lemma octal_mode_ordinary (mode : jsstring) :
  octal_mode mode = true -> forallb ordinary mode = true /\ mode <> [].
Proof.
  unfold octal_mode. intros H.
  apply andb_true_iff in H. destruct H as [H _].
  apply andb_true_iff in H. destruct H as [Hall Hlen].
  split.
  - apply forallb_forall. intros c Hc.
    rewrite forallb_forall in Hall. specialize (Hall c Hc).
    unfold between in Hall. apply andb_true_iff in Hall.
    destruct Hall as [Hlo Hhi].
    apply N.leb_le in Hlo, Hhi.
    replace c with (48 + (c - 48))%N by lia.
    apply digit_ordinary. lia.
  - intros ->. cbn in Hlen. discriminate.
Qed.

(** Rewriting with the reading lemmas, evaluating the fixed text in
    between. *)
Ltac read_command :=
  repeat (first
    [ rewrite lex_shellQuote
    | rewrite lex_decimal
    | rewrite lex_shellQuote_last
    | rewrite lex_decimal_last
    | progress cbn -[shellQuote decimal] ]).

(** X13 ([iphone_write_file]): whatever the directory, the content and
    the path hold, the shell reads the write command as the same
    thirteen tokens: [mkdir -p DIR && printf %s CONTENT > PATH && chmod
    MODE PATH], with the directory, the content and the path each one
    quoted word equal to the value.  No character of the content or of
    the path can end its argument or start a command. *)
Theorem writeFileCommand_tokens (dir content remotePath mode : jsstring) :
  octal_mode mode = true ->
  tokens (writeFileCommand dir content remotePath mode)
  = Some [ Word (js "mkdir") false; Word (js "-p") false; Word dir true;
           Operator (js "&&");
           Word (js "printf") false; Word (js "%s") true; Word content true;
           Operator (js ">"); Word remotePath true;
           Operator (js "&&");
           Word (js "chmod") false; Word mode false; Word remotePath true ].
Proof.
  intros Hmode. apply octal_mode_ordinary in Hmode.
  destruct Hmode as [Hall Hne].
  unfold tokens, writeFileCommand.
  rewrite <- !app_assoc.
  read_command.
  rewrite (lex_ordinary mode Hall Hne).
  read_command. reflexivity.
Qed.

Lemma writeFileCommand_tokens_example :
  octal_mode (js "0644") = true
  /\ tokens (writeFileCommand (js "/var/mobile") (js "a'; reboot #")
               (js "/var/mobile/it's") (js "0644"))
     = Some [ Word (js "mkdir") false; Word (js "-p") false;
              Word (js "/var/mobile") true; Operator (js "&&");
              Word (js "printf") false; Word (js "%s") true;
              Word (js "a'; reboot #") true;
              Operator (js ">"); Word (js "/var/mobile/it's") true;
              Operator (js "&&");
              Word (js "chmod") false; Word (js "0644") false;
              Word (js "/var/mobile/it's") true ].
Proof.
  split; [reflexivity|].
  apply (writeFileCommand_tokens (js "/var/mobile") (js "a'; reboot #")
           (js "/var/mobile/it's") (js "0644")).
  reflexivity.
Defined.

Lemma lex_single_plain_some (p : jsstring) (w rest : jsstring) :
  ~ In 39%N p ->
  lex true (Some (w, true)) (p ++ 39%N :: rest)
  = lex false (Some (w ++ p, true)) rest.
Proof. intros H. apply lex_single_plain. exact H. Qed.

(** X14 ([iphone_list_dir]): the five lines of the command are joined
    by spaces, with no separator before [else] or [fi], so the shell
    reads [else] as an argument of [head], like [echo] and its message
    after it, and [fi] as an argument of [exit].  For a path without a
    single quote the tokens are the ones below, and the only reserved
    words recognised are [if] and [then]: the [if] is never closed. *)
Theorem listDirCommand_if_not_closed
    (remotePath : jsstring) (show_hidden : bool) (max_entries : Z) :
  ~ In 39%N remotePath ->
  1 <= max_entries <= 2000 ->
  exists toks,
    tokens (listDirCommand remotePath show_hidden max_entries) = Some toks
    /\ toks
       = [ Word (js "if") false; Word (js "[") false; Word (js "-d") false;
           Word remotePath true; Word (js "]") false; Operator (js ";");
           Word (js "then") false;
           Word (js "ls") false;
           Word (if show_hidden then js "-la" else js "-l") false;
           Word remotePath true; Operator (js "|");
           Word (js "head") false; Word (js "-n") false;
           Word (decimal max_entries) false;
           Word (js "else") false;
           Word (js "echo") false;
           Word (js "Directory not found: " ++ remotePath) true;
           Operator (js ">&"); Word (js "2") false; Operator (js ";");
           Word (js "exit") false; Word (js "2") false;
           Word (js "fi") false ]
    /\ reserved_words true toks = [js "if"; js "then"].
Proof.
  intros Hq _. eexists. split; [|split; [reflexivity|]].
  - unfold tokens, listDirCommand.
    cbn [join]. rewrite <- !app_assoc.
    destruct show_hidden;
      read_command; rewrite (lex_single_plain remotePath Hq);
      read_command; reflexivity.
  - destruct show_hidden; reflexivity.
Qed.

Lemma listDirCommand_if_not_closed_example :
  ~ In 39%N (js "/var/mobile")
  /\ 1 <= 200 <= 2000
  /\ exists toks,
       tokens (listDirCommand (js "/var/mobile") true 200) = Some toks
       /\ toks
          = [ Word (js "if") false; Word (js "[") false; Word (js "-d") false;
              Word (js "/var/mobile") true; Word (js "]") false;
              Operator (js ";"); Word (js "then") false;
              Word (js "ls") false; Word (js "-la") false;
              Word (js "/var/mobile") true; Operator (js "|");
              Word (js "head") false; Word (js "-n") false;
              Word (decimal 200) false;
              Word (js "else") false;
              Word (js "echo") false;
              Word (js "Directory not found: " ++ js "/var/mobile") true;
              Operator (js ">&"); Word (js "2") false; Operator (js ";");
              Word (js "exit") false; Word (js "2") false;
              Word (js "fi") false ]
       /\ reserved_words true toks = [js "if"; js "then"].
Proof.
  assert (Hq : ~ In 39%N (js "/var/mobile")).
  { cbn. intros H. repeat (destruct H as [H|H]; [discriminate|]). exact H. }
  split; [exact Hq|]. split; [lia|].
  apply (listDirCommand_if_not_closed (js "/var/mobile") true 200 Hq). lia.
Defined.

(** X15 ([iphone_read_file]): for a path without a single quote the
    shell reads either command as a complete [if ... then ... else ...
    fi], with the path one quoted word wherever it stands; the text
    encoding reads the file with [head -c MAX_BYTES], the base64
    encoding with [base64] piped into [tr]. *)
Theorem readFileCommand_tokens
    (remotePath : jsstring) (base64 : bool) (max_bytes : Z) :
  ~ In 39%N remotePath ->
  1 <= max_bytes <= 1000000 ->
  exists toks,
    tokens (readFileCommand remotePath base64 max_bytes) = Some toks
    /\ toks
       = [ Word (js "if") false; Word (js "[") false; Word (js "-f") false;
           Word remotePath true; Word (js "]") false; Operator (js ";");
           Word (js "then") false ]
         ++ (if base64 then
               [ Word (js "base64") false; Operator (js "<");
                 Word remotePath true; Operator (js "|");
                 Word (js "tr") false; Word (js "-d") false;
                 Word (js "\n") true ]
             else
               [ Word (js "head") false; Word (js "-c") false;
                 Word (decimal max_bytes) false; Word remotePath true ])
         ++ [ Operator (js ";"); Word (js "else") false;
              Word (js "echo") false;
              Word (js "File not found: " ++ remotePath) true;
              Operator (js ">&"); Word (js "2") false; Operator (js ";");
              Word (js "exit") false; Word (js "2") false;
              Operator (js ";"); Word (js "fi") false ]
    /\ reserved_words true toks = [js "if"; js "then"; js "else"; js "fi"].
Proof.
  intros Hq _. eexists. split; [|split; [reflexivity|]].
  - unfold tokens, readFileCommand.
    destruct base64;
      read_command; rewrite (lex_single_plain remotePath Hq);
      read_command; reflexivity.
  - destruct base64; reflexivity.
Qed.

Lemma readFileCommand_tokens_example :
  ~ In 39%N (js "/etc/hosts")
  /\ 1 <= 64000 <= 1000000
  /\ exists toks,
       tokens (readFileCommand (js "/etc/hosts") false 64000) = Some toks
       /\ toks
          = [ Word (js "if") false; Word (js "[") false; Word (js "-f") false;
              Word (js "/etc/hosts") true; Word (js "]") false;
              Operator (js ";"); Word (js "then") false ]
            ++ [ Word (js "head") false; Word (js "-c") false;
                 Word (decimal 64000) false; Word (js "/etc/hosts") true ]
            ++ [ Operator (js ";"); Word (js "else") false;
                 Word (js "echo") false;
                 Word (js "File not found: " ++ js "/etc/hosts") true;
                 Operator (js ">&"); Word (js "2") false; Operator (js ";");
                 Word (js "exit") false; Word (js "2") false;
                 Operator (js ";"); Word (js "fi") false ]
       /\ reserved_words true toks
          = [js "if"; js "then"; js "else"; js "fi"].
Proof.
  assert (Hq : ~ In 39%N (js "/etc/hosts")).
  { cbn. intros H. repeat (destruct H as [H|H]; [discriminate|]). exact H. }
  split; [exact Hq|]. split; [lia|].
  apply (readFileCommand_tokens (js "/etc/hosts") false 64000 Hq). lia.
Defined.

(** X16 ([iphone_read_file]): the message of the [else] branch holds
    the path as it is, between single quotes that the path can close.
    A path such as [/x'; W ;'] is one component, so
    [normalizeRemotePath] returns it as it is, and the shell reads the
    word [W] in it as a command of its own, after [echo] and its
    message. *)
Theorem readFileCommand_path_closes_quotes (w : jsstring) (max_bytes : Z) :
  forallb ordinary w = true ->
  w <> [] ->
  ~ In Spec.SLASH w ->
  1 <= max_bytes <= 1000000 ->
  let remotePath := js "/x'; " ++ w ++ js " ;'" in
  normalizeRemotePath remotePath = Ok remotePath
  /\ tokens (readFileCommand remotePath false max_bytes)
     = Some [ Word (js "if") false; Word (js "[") false; Word (js "-f") false;
              Word remotePath true; Word (js "]") false; Operator (js ";");
              Word (js "then") false;
              Word (js "head") false; Word (js "-c") false;
              Word (decimal max_bytes) false; Word remotePath true;
              Operator (js ";"); Word (js "else") false;
              Word (js "echo") false; Word (js "File not found: /x") true;
              Operator (js ";");
              Word w false;
              Operator (js ";");
              Word [] true;
              Operator (js ">&"); Word (js "2") false; Operator (js ";");
              Word (js "exit") false; Word (js "2") false;
              Operator (js ";"); Word (js "fi") false ].
Proof.
  intros Hall Hne Hsep _ remotePath. split.
  - apply normalizeRemotePath_canonical. right.
    exists [js "x'; " ++ w ++ js " ;'"].
    split; [discriminate|]. split; [|left; reflexivity].
    constructor; [|constructor].
    repeat split; try discriminate.
    intros Hin. cbn in Hin.
    repeat (destruct Hin as [Hin|Hin]; [discriminate Hin|]).
    apply in_app_or in Hin. destruct Hin as [Hin|Hin]; [exact (Hsep Hin)|].
    cbn in Hin.
    repeat (destruct Hin as [Hin|Hin]; [discriminate Hin|]). exact Hin.
  - unfold tokens, readFileCommand. cbv iota.
    read_command.
    rewrite <- ?app_assoc.
    rewrite (lex_ordinary w Hall Hne).
    read_command. reflexivity.
Qed.

Lemma readFileCommand_path_closes_quotes_example :
  forallb ordinary (js "uptime") = true
  /\ js "uptime" <> []
  /\ ~ In Spec.SLASH (js "uptime")
  /\ 1 <= 64000 <= 1000000
  /\ normalizeRemotePath (js "/x'; uptime ;'") = Ok (js "/x'; uptime ;'")
  /\ tokens (readFileCommand (js "/x'; uptime ;'") false 64000)
     = Some [ Word (js "if") false; Word (js "[") false; Word (js "-f") false;
              Word (js "/x'; uptime ;'") true; Word (js "]") false;
              Operator (js ";"); Word (js "then") false;
              Word (js "head") false; Word (js "-c") false;
              Word (decimal 64000) false; Word (js "/x'; uptime ;'") true;
              Operator (js ";"); Word (js "else") false;
              Word (js "echo") false; Word (js "File not found: /x") true;
              Operator (js ";");
              Word (js "uptime") false;
              Operator (js ";");
              Word [] true;
              Operator (js ">&"); Word (js "2") false; Operator (js ";");
              Word (js "exit") false; Word (js "2") false;
              Operator (js ";"); Word (js "fi") false ].
Proof.
  assert (Hall : forallb ordinary (js "uptime") = true) by reflexivity.
  assert (Hne : js "uptime" <> []) by discriminate.
  assert (Hsep : ~ In Spec.SLASH (js "uptime")).
  { cbn. intros H. repeat (destruct H as [H|H]; [discriminate|]). exact H. }
  assert (Hn : 1 <= 64000 <= 1000000) by lia.
  split; [exact Hall|]. split; [exact Hne|]. split; [exact Hsep|].
  split; [exact Hn|].
  exact (readFileCommand_path_closes_quotes (js "uptime") 64000
           Hall Hne Hsep Hn).
Defined.

(** X17 ([iphone_get_logs]): whatever a non-empty filter holds, the
    shell reads it as one quoted word, the pattern of [grep -i --]; the
    command is the parenthesised choice of log sources piped into
    [grep] and [tail]. *)
Theorem getLogsCommand_filter_one_word
    (c : code_unit) (f : jsstring) (lines minutes : Z) :
  1 <= lines <= 5000 ->
  1 <= minutes <= 120 ->
  tokens (getLogsCommand (Some (c :: f)) lines minutes)
  = Some [ Operator (js "(");
           Word (js "log") false; Word (js "show") false;
           Word (js "--last") false; Word (decimal minutes ++ js "m") false;
           Word (js "--style") false; Word (js "compact") false;
           Word (js "2") false; Operator (js ">"); Word (js "/dev/null") false;
           Operator (js "||");
           Word (js "tail") false; Word (js "-n") false;
           Word (decimal lines) false; Word (js "/var/log/syslog") false;
           Word (js "2") false; Operator (js ">"); Word (js "/dev/null") false;
           Operator (js "||");
           Word (js "echo") false; Word (js "No log source available") true;
           Operator (js ")");
           Operator (js "|");
           Word (js "grep") false; Word (js "-i") false; Word (js "--") false;
           Word (c :: f) true;
           Operator (js "|");
           Word (js "tail") false; Word (js "-n") false;
           Word (decimal lines) false ].
Proof.
  intros _ _. unfold tokens, getLogsCommand.
  cbv zeta. rewrite <- !app_assoc.
  read_command. reflexivity.
Qed.

Lemma getLogsCommand_filter_one_word_example :
  1 <= 200 <= 5000
  /\ 1 <= 10 <= 120
  /\ tokens (getLogsCommand (Some (js "a b; c")) 200 10)
     = Some [ Operator (js "(");
              Word (js "log") false; Word (js "show") false;
              Word (js "--last") false; Word (decimal 10 ++ js "m") false;
              Word (js "--style") false; Word (js "compact") false;
              Word (js "2") false; Operator (js ">");
              Word (js "/dev/null") false;
              Operator (js "||");
              Word (js "tail") false; Word (js "-n") false;
              Word (decimal 200) false; Word (js "/var/log/syslog") false;
              Word (js "2") false; Operator (js ">");
              Word (js "/dev/null") false;
              Operator (js "||");
              Word (js "echo") false;
              Word (js "No log source available") true;
              Operator (js ")");
              Operator (js "|");
              Word (js "grep") false; Word (js "-i") false;
              Word (js "--") false;
              Word (js "a b; c") true;
              Operator (js "|");
              Word (js "tail") false; Word (js "-n") false;
              Word (decimal 200) false ].
Proof.
  split; [lia|]. split; [lia|].
  apply (getLogsCommand_filter_one_word 97%N (js " b; c") 200 10); lia.
Defined.

(** ** Words that the rule tables find *)

Lemma matcher_chars (ic : bool) (cs : jsstring) :
  forall pre post k,
    cs <> [] ->
    matcher ic (chars cs) (pre ++ cs ++ post) (jslength pre) k
    = k (jslength pre + jslength cs).
Proof.
  induction cs as [|c cs IH]; intros pre post k Hne; [congruence|].
  assert (Hc : forall k',
             matcher ic (Char c) (pre ++ (c :: cs) ++ post) (jslength pre) k'
             = k' (jslength pre + 1)).
  { intros k'. cbn [matcher app].
    rewrite charCodeAt_middle, N.eqb_refl. reflexivity. }
  destruct cs as [|c' cs'].
  - change (chars [c]) with (Char c). rewrite Hc. reflexivity.
  - change (matcher ic (chars (c :: c' :: cs'))
              (pre ++ (c :: c' :: cs') ++ post) (jslength pre) k)
      with (matcher ic (Char c) (pre ++ (c :: c' :: cs') ++ post)
              (jslength pre)
              (fun y => matcher ic (chars (c' :: cs'))
                          (pre ++ (c :: c' :: cs') ++ post) y k)).
    rewrite Hc.
    replace (pre ++ (c :: c' :: cs') ++ post)
      with ((pre ++ [c]) ++ (c' :: cs') ++ post)
      by (rewrite <- app_assoc; reflexivity).
    replace (jslength pre + 1) with (jslength (pre ++ [c]))
      by (rewrite jslength_app; reflexivity).
    rewrite IH by discriminate.
    f_equal. rewrite jslength_app. unfold jslength. cbn [length]. lia.
Qed.

Lemma isWordCharAt_after (pre post : jsstring) :
  isWordCharAt (pre ++ post) (jslength pre) = starts_in_word post.
Proof.
  unfold isWordCharAt. destruct post as [|c post].
  - rewrite app_nil_r, charCodeAt_end. reflexivity.
  - rewrite charCodeAt_middle. reflexivity.
Qed.

Lemma isWordCharAt_before (pre post : jsstring) :
  isWordCharAt (pre ++ post) (jslength pre - 1) = ends_in_word pre.
Proof.
  unfold isWordCharAt, ends_in_word.
  destruct pre as [|c pre] using rev_ind.
  - reflexivity.
  - rewrite rev_app_distr, <- app_assoc, jslength_app.
    replace (jslength pre + jslength [c] - 1) with (jslength pre)
      by (unfold jslength; cbn [length]; lia).
    cbn [app]. rewrite charCodeAt_middle. reflexivity.
Qed.

Lemma ends_in_word_app (a b : jsstring) :
  b <> [] -> ends_in_word (a ++ b) = ends_in_word b.
Proof.
  unfold ends_in_word. intros Hb. rewrite rev_app_distr.
  destruct (rev b) as [|c r] eqn:E.
  - apply (f_equal (@rev _)) in E. rewrite rev_involutive in E.
    cbn in E. congruence.
  - reflexivity.
Qed.

Lemma starts_in_word_app (a b : jsstring) :
  a <> [] -> starts_in_word (a ++ b) = starts_in_word a.
Proof. destruct a; [congruence|reflexivity]. Qed.

(** A pattern between two word boundaries finds a word that stands on
    its own. *)
Lemma bounded_word_test (ic : bool) (body : regex) (pre w post : jsstring) :
  w <> [] ->
  starts_in_word w = true ->
  ends_in_word w = true ->
  delimited pre post = true ->
  (forall k,
      k (jslength pre + jslength w) <> None ->
      matcher ic body (pre ++ w ++ post) (jslength pre) k <> None) ->
  test (mkRegExp (seqs [WordBoundary; body; WordBoundary]) ic)
       (pre ++ w ++ post)
  = true.
Proof.
  intros Hne Hfirst Hlast Hd Hbody.
  unfold delimited in Hd. apply andb_true_iff in Hd. destruct Hd as [Hpre Hpost].
  apply negb_true_iff in Hpre, Hpost.
  apply test_anywhere. exists (jslength pre). split.
  - rewrite !jslength_app. unfold jslength. lia.
  - unfold match_at. cbn [pattern ignoreCase seqs matcher].
    rewrite isWordCharAt_before, isWordCharAt_after, Hpre.
    rewrite starts_in_word_app by exact Hne. rewrite Hfirst. cbn [xorb].
    apply Hbody.
    rewrite app_assoc, <- jslength_app.
    rewrite isWordCharAt_before, isWordCharAt_after, Hpost.
    rewrite ends_in_word_app by exact Hne. rewrite Hlast. discriminate.
Qed.

Lemma matcher_alts_In (ic : bool) (rs : list regex) (r : regex)
    (input : jsstring) (x : Z) (k : Z -> option Z) :
  In r rs ->
  matcher ic r input x k <> None ->
  matcher ic (alts rs) input x k <> None.
Proof.
  induction rs as [|r0 rs IH]; intros Hin Hr; [destruct Hin|].
  destruct rs as [|r1 rs'].
  - destruct Hin as [->|[]]. exact Hr.
  - change (alts (r0 :: r1 :: rs')) with (Alt r0 (alts (r1 :: rs'))).
    cbn [matcher]. destruct Hin as [->|Hin].
    + destruct (matcher ic r input x k); [discriminate|congruence].
    + destruct (matcher ic r0 input x k); [discriminate|].
      cbn [orElse]. apply IH; assumption.
Qed.

Lemma WRITE_WORDS_words (w : jsstring) :
  In w WRITE_WORDS ->
  w <> [] /\ starts_in_word w = true /\ ends_in_word w = true
  /\ Spec.requote_each w = w.
Proof.
  intros Hin.
  assert (H : forallb (fun w => negb (jsstring_eqb w [])
                                && starts_in_word w && ends_in_word w
                                && jsstring_eqb (Spec.requote_each w) w)
                WRITE_WORDS = true) by reflexivity.
  rewrite forallb_forall in H. specialize (H w Hin).
  repeat (apply andb_true_iff in H; destruct H as [H ?]).
  apply negb_true_iff in H.
  repeat split; try assumption.
  - intros ->. discriminate.
  - apply jsstring_eqb_eq. assumption.
Qed.

Lemma DENIED_WORDS_words (w : jsstring) :
  In w DENIED_WORDS ->
  w <> [] /\ starts_in_word w = true /\ ends_in_word w = true
  /\ Spec.requote_each w = w.
Proof.
  intros Hin.
  assert (H : forallb (fun w => negb (jsstring_eqb w [])
                                && starts_in_word w && ends_in_word w
                                && jsstring_eqb (Spec.requote_each w) w)
                DENIED_WORDS = true) by reflexivity.
  rewrite forallb_forall in H. specialize (H w Hin).
  repeat (apply andb_true_iff in H; destruct H as [H ?]).
  apply negb_true_iff in H.
  repeat split; try assumption.
  - intros ->. discriminate.
  - apply jsstring_eqb_eq. assumption.
Qed.

(** A command that holds one of the words of the first write signature
    as a word of its own is taken for a write command, wherever the
    word stands. *)
Lemma isLikelyWriteCommand_word (pre w post : jsstring) :
  In w WRITE_WORDS ->
  delimited pre post = true ->
  isLikelyWriteCommand (pre ++ w ++ post) = true.
Proof.
  intros Hin Hd.
  destruct (WRITE_WORDS_words w Hin) as [Hne [Hfirst [Hlast _]]].
  unfold isLikelyWriteCommand, WRITE_COMMAND_PATTERNS. cbn [existsb].
  apply orb_true_iff. left.
  apply bounded_word_test; try assumption.
  intros k Hk. cbn [matcher].
  apply (matcher_alts_In true (map chars WRITE_WORDS) (chars w)).
  - apply in_map. exact Hin.
  - rewrite matcher_chars by exact Hne. exact Hk.
Qed.

(** A command that holds a denied word as a word of its own is
    denied. *)
Lemma matchDeniedPattern_word (pre w post : jsstring) :
  In w DENIED_WORDS ->
  delimited pre post = true ->
  matchDeniedPattern (pre ++ w ++ post) <> None.
Proof.
  intros Hin Hd H.
  destruct (DENIED_WORDS_words w Hin) as [Hne [Hfirst [Hlast _]]].
  apply matchDeniedPattern_in_None in H.
  rewrite Forall_forall in H.
  assert (Ht : test (mkRegExp (seqs [WordBoundary; chars w; WordBoundary]) true)
                    (pre ++ w ++ post) = true).
  { apply bounded_word_test; try assumption.
    intros k Hk. rewrite matcher_chars by exact Hne. exact Hk. }
  assert (Hrule : exists text,
             In (mkDenyPattern
                   (mkRegExp (seqs [WordBoundary; chars w; WordBoundary]) true)
                   text) DENY_PATTERNS).
  { destruct Hin as [<-|[<-|[<-|[<-|[]]]]]; eexists; cbn; eauto 10. }
  destruct Hrule as [text Hrule].
  specialize (H _ Hrule). unfold no_match in H. cbn [regex_of] in H.
  rewrite Ht in H. discriminate H.
Qed.

(** ** Words inside quoted values *)

Lemma requote_each_app (a b : jsstring) :
  Spec.requote_each (a ++ b) = Spec.requote_each a ++ Spec.requote_each b.
Proof. apply flat_map_app. Qed.

Lemma starts_in_word_requote (b y : jsstring) :
  starts_in_word y = false ->
  starts_in_word b = false ->
  starts_in_word (Spec.requote_each b ++ y) = false.
Proof.
  intros Hy Hb. destruct b as [|c b]; [exact Hy|].
  change (Spec.requote_each (c :: b))
    with ((if N.eqb c 39%N then [39%N; 92%N; 39%N; 39%N] else [c])
          ++ Spec.requote_each b).
  destruct (N.eqb c 39%N); [reflexivity|exact Hb].
Qed.

Lemma ends_in_word_requote (x a : jsstring) :
  ends_in_word x = false ->
  ends_in_word a = false ->
  ends_in_word (x ++ Spec.requote_each a) = false.
Proof.
  intros Hx Ha. destruct a as [|c a] using rev_ind.
  - cbn [Spec.requote_each flat_map]. rewrite app_nil_r. exact Hx.
  - rewrite requote_each_app, app_assoc.
    rewrite ends_in_word_app in Ha by discriminate.
    change (Spec.requote_each [c])
      with ((if N.eqb c 39%N then [39%N; 92%N; 39%N; 39%N] else [c]) ++ []).
    rewrite app_nil_r.
    destruct (N.eqb c 39%N).
    + rewrite ends_in_word_app by discriminate. reflexivity.
    + rewrite ends_in_word_app by discriminate. exact Ha.
Qed.

(** A word that stands on its own in a value stands on its own in the
    command that holds the value quoted by [shellQuote]. *)
Lemma shellQuote_word (x y a w b : jsstring) :
  Spec.requote_each w = w ->
  delimited a b = true ->
  exists pre post,
    x ++ shellQuote (a ++ w ++ b) ++ y = pre ++ w ++ post
    /\ delimited pre post = true.
Proof.
  intros Hw Hd.
  exists (x ++ 39%N :: Spec.requote_each a),
         (Spec.requote_each b ++ 39%N :: y).
  split.
  - rewrite shellQuote_requote, !requote_each_app, Hw.
    cbn [app]. rewrite <- !app_assoc. reflexivity.
  - unfold delimited in *. apply andb_true_iff in Hd. destruct Hd as [Ha Hb].
    apply negb_true_iff in Ha, Hb.
    apply andb_true_iff. split; apply negb_true_iff.
    + change (x ++ 39%N :: Spec.requote_each a)
        with (x ++ [39%N] ++ Spec.requote_each a).
      rewrite app_assoc. apply ends_in_word_requote; [|exact Ha].
      rewrite ends_in_word_app by discriminate. reflexivity.
    + apply starts_in_word_requote; [reflexivity|exact Hb].
Qed.

Lemma isLikelyWriteCommand_quoted (x y a w b : jsstring) :
  In w WRITE_WORDS ->
  delimited a b = true ->
  isLikelyWriteCommand (x ++ shellQuote (a ++ w ++ b) ++ y) = true.
Proof.
  intros Hin Hd.
  destruct (WRITE_WORDS_words w Hin) as [_ [_ [_ Hw]]].
  destruct (shellQuote_word x y a w b Hw Hd) as [pre [post [-> Hd']]].
  apply isLikelyWriteCommand_word; assumption.
Qed.

Lemma matchDeniedPattern_quoted (x y a w b : jsstring) :
  In w DENIED_WORDS ->
  delimited a b = true ->
  matchDeniedPattern (x ++ shellQuote (a ++ w ++ b) ++ y) <> None.
Proof.
  intros Hin Hd.
  destruct (DENIED_WORDS_words w Hin) as [_ [_ [_ Hw]]].
  destruct (shellQuote_word x y a w b Hw Hd) as [pre [post [-> Hd']]].
  apply matchDeniedPattern_word; assumption.
Qed.

(** ** The file tools *)

Section ToolFacts.

Variable ExecResult : Type.
Variable remote : transport -> jsstring -> option Z -> ExecResult.
Variable roots : list jsstring.
Variable dirname : jsstring -> jsstring.

Let list_dir := iphone_list_dir ExecResult remote.
Let read_file := iphone_read_file ExecResult remote.
Let write_file := iphone_write_file ExecResult remote roots dirname.
Let get_logs := iphone_get_logs ExecResult remote.

Lemma execReadCommand_refused (c : jsstring) (timeout : option Z)
    (t : transport) :
  matchDeniedPattern c <> None \/ isLikelyWriteCommand c = true ->
  exists e, execReadCommand ExecResult remote c timeout t = (Throw e, t).
Proof.
  intros H. unfold execReadCommand.
  destruct (matchDeniedPattern c); [eexists; reflexivity|].
  destruct H as [H|H]; [congruence|]. rewrite H. eexists. reflexivity.
Qed.

(** X19 ([iphone_read_file], [iphone_list_dir]): the write signatures
    are tried on the whole command, the quoted path included.  A path
    whose normal form holds one of the words [touch], [mkdir], [rmdir],
    [mv], [cp], [rm], [ln], [install], [tee], [truncate], [chmod],
    [chown], [chgrp] with no word character next to it, such as
    [/var/log/install.log], can be neither read nor listed: both tools
    throw and nothing is sent. *)
Theorem read_tools_refuse_write_words
    (path a w b : jsstring) (timeout : option Z) (t : transport) :
  normalizeRemotePath path = Ok (a ++ w ++ b) ->
  In w WRITE_WORDS ->
  delimited a b = true ->
  (forall show_hidden max_entries,
      exists e, list_dir path show_hidden max_entries timeout t = (Throw e, t))
  /\ (forall max_bytes base64,
        exists e, read_file path max_bytes base64 timeout t = (Throw e, t)).
Proof.
  intros Hpath Hin Hd. split.
  - intros show_hidden max_entries.
    unfold list_dir, iphone_list_dir, bind, lift. rewrite Hpath.
    apply execReadCommand_refused. right.
    unfold listDirCommand. cbn [join]. rewrite <- !app_assoc.
    apply isLikelyWriteCommand_quoted; assumption.
  - intros max_bytes base64.
    unfold read_file, iphone_read_file, bind, lift. rewrite Hpath.
    apply execReadCommand_refused. right.
    unfold readFileCommand.
    destruct base64; apply isLikelyWriteCommand_quoted; assumption.
Qed.

(** X20 ([iphone_get_logs]): a filter is part of the command the rule
    tables are tried on.  A filter that holds a denied word or a word
    of the write signature with no word character next to it, such as
    [reboot] or [rm], is refused: the tool throws and nothing is
    sent. *)
Theorem get_logs_refuses_rule_words
    (a w b : jsstring) (lines minutes : Z) (timeout : option Z)
    (t : transport) :
  In w (DENIED_WORDS ++ WRITE_WORDS) ->
  delimited a b = true ->
  exists e, get_logs (Some (a ++ w ++ b)) lines minutes timeout t = (Throw e, t).
Proof.
  intros Hin Hd.
  assert (Hne : w <> []).
  { apply in_app_or in Hin. destruct Hin as [Hin|Hin].
    - apply (DENIED_WORDS_words w Hin).
    - apply (WRITE_WORDS_words w Hin). }
  unfold get_logs, iphone_get_logs. apply execReadCommand_refused.
  unfold getLogsCommand. cbv zeta.
  destruct (a ++ w ++ b) as [|c f] eqn:E.
  - apply app_eq_nil in E. destruct E as [_ E].
    apply app_eq_nil in E. destruct E as [E _]. congruence.
  - rewrite <- E. rewrite <- !app_assoc.
    repeat match goal with
           | |- context [?u ++ ?v ++ shellQuote ?s ++ ?y] =>
             rewrite (app_assoc u v (shellQuote s ++ y))
           end.
    apply in_app_or in Hin. destruct Hin as [Hin|Hin].
    + left. apply matchDeniedPattern_quoted; assumption.
    + right. apply isLikelyWriteCommand_quoted; assumption.
Qed.

(** X21 ([iphone_write_file]): the denylist is tried on the whole write
    command, the quoted content included.  A file whose content holds
    one of the words [mkfs], [shutdown], [reboot], [halt] with no word
    character next to it cannot be written, whatever its path: the tool
    throws and nothing is sent. *)
Theorem write_file_refuses_denied_words_in_content
    (path a w b mode : jsstring) (timeout : option Z) (t : transport) :
  In w DENIED_WORDS ->
  delimited a b = true ->
  exists e, write_file path (a ++ w ++ b) mode timeout t = (Throw e, t).
Proof.
  intros Hin Hd.
  unfold write_file, iphone_write_file, bind, lift.
  destruct (normalizeRemotePath path) as [q|e]; [|eexists; reflexivity].
  destruct (ensureAllowedWritePaths [q] roots) as [l|e];
    [|eexists; reflexivity].
  unfold execWriteCommand.
  destruct (matchDeniedPattern
              (writeFileCommand (dirname q) (a ++ w ++ b) q mode)) eqn:E.
  - eexists. reflexivity.
  - exfalso. revert E. unfold writeFileCommand. rewrite <- !app_assoc.
    rewrite (app_assoc (js "mkdir -p ")).
    rewrite (app_assoc (js "mkdir -p " ++ shellQuote (dirname q))).
    rewrite (app_assoc ((js "mkdir -p " ++ shellQuote (dirname q)) ++ js " && ")).
    apply matchDeniedPattern_quoted; assumption.
Qed.

(** X22 ([iphone_write_file]): when the tool sends anything, it sends
    one command, for a path that is the normal form of the argument and
    lies within the allowed roots; the shell reads the command as
    [mkdir -p DIR && printf %s CONTENT > PATH && chmod MODE PATH] with
    that same path, the content and the directory each one quoted
    word. *)
Theorem write_file_writes_checked_path
    (path content mode : jsstring) (timeout : option Z) (t : transport) :
  octal_mode mode = true ->
  snd (write_file path content mode timeout t) <> t ->
  exists remotePath command,
    normalizeRemotePath path = Ok remotePath
    /\ pathWithinRoots remotePath roots = true
    /\ write_file path content mode timeout t
       = (Ok (remote t command timeout), t ++ [(command, timeout)])
    /\ tokens command
       = Some [ Word (js "mkdir") false; Word (js "-p") false;
                Word (dirname remotePath) true; Operator (js "&&");
                Word (js "printf") false; Word (js "%s") true;
                Word content true;
                Operator (js ">"); Word remotePath true;
                Operator (js "&&");
                Word (js "chmod") false; Word mode false;
                Word remotePath true ].
Proof.
  intros Hmode Hsent.
  unfold write_file, iphone_write_file, bind, lift in *.
  destruct (normalizeRemotePath path) as [q|e] eqn:Eq;
    [|exfalso; apply Hsent; reflexivity].
  destruct (ensureAllowedWritePaths [q] roots) as [l|e] eqn:Ew;
    [|exfalso; apply Hsent; reflexivity].
  exists q, (writeFileCommand (dirname q) content q mode).
  split; [reflexivity|].
  apply execWriteCommand_sends in Hsent. destruct Hsent as [_ [_ Hsent]].
  apply ensureAllowedWritePaths_Ok in Ew. destruct Ew as [_ [_ Hin]].
  apply Forall_inv in Hin.
  apply normalizeRemotePath_Ok in Eq. destruct Eq as [Habs Eq].
  split.
  - rewrite <- normalize_absolute in Eq by exact Habs.
    rewrite Eq in Hin. rewrite normalize_idempotent in Hin.
    rewrite Eq. exact Hin.
  - split; [exact Hsent|].
    apply octal_mode_ordinary in Hmode. destruct Hmode as [Hall Hne].
    unfold tokens, writeFileCommand.
    rewrite <- !app_assoc.
    read_command.
    rewrite (lex_ordinary mode Hall Hne).
    read_command. reflexivity.
Qed.

End ToolFacts.

Lemma read_tools_refuse_write_words_example :
  normalizeRemotePath (js "/var/log/install.log")
  = Ok (js "/var/log/" ++ js "install" ++ js ".log")
  /\ In (js "install") WRITE_WORDS
  /\ delimited (js "/var/log/") (js ".log") = true
  /\ (forall show_hidden max_entries,
        exists e,
          iphone_list_dir unit (fun _ _ _ => tt) (js "/var/log/install.log")
            show_hidden max_entries None []
          = (Throw e, []))
  /\ (forall max_bytes base64,
        exists e,
          iphone_read_file unit (fun _ _ _ => tt) (js "/var/log/install.log")
            max_bytes base64 None []
          = (Throw e, [])).
Proof.
  assert (Hpath : normalizeRemotePath (js "/var/log/install.log")
                  = Ok (js "/var/log/" ++ js "install" ++ js ".log"))
    by reflexivity.
  assert (Hin : In (js "install") WRITE_WORDS).
  { do 7 right. left. reflexivity. }
  assert (Hd : delimited (js "/var/log/") (js ".log") = true) by reflexivity.
  split; [exact Hpath|]. split; [exact Hin|]. split; [exact Hd|].
  exact (read_tools_refuse_write_words unit (fun _ _ _ => tt)
           (js "/var/log/install.log") (js "/var/log/") (js "install")
           (js ".log") None [] Hpath Hin Hd).
Defined.

Lemma get_logs_refuses_rule_words_example :
  In (js "reboot") (DENIED_WORDS ++ WRITE_WORDS)
  /\ delimited (js "kernel ") (js " requested") = true
  /\ exists e,
       iphone_get_logs unit (fun _ _ _ => tt)
         (Some (js "kernel " ++ js "reboot" ++ js " requested")) 200 10 None []
       = (Throw e, []).
Proof.
  assert (Hin : In (js "reboot") (DENIED_WORDS ++ WRITE_WORDS)).
  { do 2 right. left. reflexivity. }
  assert (Hd : delimited (js "kernel ") (js " requested") = true)
    by reflexivity.
  split; [exact Hin|]. split; [exact Hd|].
  exact (get_logs_refuses_rule_words unit (fun _ _ _ => tt)
           (js "kernel ") (js "reboot") (js " requested") 200 10 None []
           Hin Hd).
Defined.

Lemma write_file_refuses_denied_words_in_content_example :
  In (js "halt") DENIED_WORDS
  /\ delimited (js "Do not ") (js " the build.") = true
  /\ exists e,
       iphone_write_file unit (fun _ _ _ => tt) [js "/var/mobile"]
         (fun _ => js "/var/mobile") (js "/var/mobile/notes.txt")
         (js "Do not " ++ js "halt" ++ js " the build.") (js "0644") None []
       = (Throw e, []).
Proof.
  assert (Hin : In (js "halt") DENIED_WORDS).
  { do 3 right. left. reflexivity. }
  assert (Hd : delimited (js "Do not ") (js " the build.") = true)
    by reflexivity.
  split; [exact Hin|]. split; [exact Hd|].
  exact (write_file_refuses_denied_words_in_content unit (fun _ _ _ => tt)
           [js "/var/mobile"] (fun _ => js "/var/mobile")
           (js "/var/mobile/notes.txt") (js "Do not ") (js "halt")
           (js " the build.") (js "0644") None [] Hin Hd).
Defined.

Lemma write_file_writes_checked_path_example :
  octal_mode (js "0644") = true
  /\ snd (iphone_write_file unit (fun _ _ _ => tt) [js "/var/mobile"]
            (fun _ => js "/var/mobile") (js "/var/mobile/./notes.txt")
            (js "it's; uptime") (js "0644") None [])
     <> []
  /\ exists remotePath command,
       normalizeRemotePath (js "/var/mobile/./notes.txt") = Ok remotePath
       /\ pathWithinRoots remotePath [js "/var/mobile"] = true
       /\ iphone_write_file unit (fun _ _ _ => tt) [js "/var/mobile"]
            (fun _ => js "/var/mobile") (js "/var/mobile/./notes.txt")
            (js "it's; uptime") (js "0644") None []
          = (Ok tt, [] ++ [(command, None)])
       /\ tokens command
          = Some [ Word (js "mkdir") false; Word (js "-p") false;
                   Word (js "/var/mobile") true; Operator (js "&&");
                   Word (js "printf") false; Word (js "%s") true;
                   Word (js "it's; uptime") true;
                   Operator (js ">"); Word remotePath true;
                   Operator (js "&&");
                   Word (js "chmod") false; Word (js "0644") false;
                   Word remotePath true ].
Proof.
  assert (Hmode : octal_mode (js "0644") = true) by reflexivity.
  assert (Hsent : snd (iphone_write_file unit (fun _ _ _ => tt)
                         [js "/var/mobile"] (fun _ => js "/var/mobile")
                         (js "/var/mobile/./notes.txt") (js "it's; uptime")
                         (js "0644") None [])
                  <> []) by (vm_compute; discriminate).
  split; [exact Hmode|]. split; [exact Hsent|].
  exact (write_file_writes_checked_path unit (fun _ _ _ => tt)
           [js "/var/mobile"] (fun _ => js "/var/mobile")
           (js "/var/mobile/./notes.txt") (js "it's; uptime") (js "0644")
           None [] Hmode Hsent).
Defined.

(** ** The transfer tools *)

Section TransferFacts.

Import Ssh.

Variable config : SshConfig.
Variable cwd : jsstring.
Variable Number_toString : Z -> jsstring.
Variable outcome : list spawn -> spawn -> RawExecResult.
Variable writeRoots : list jsstring.
Variable localRoots : list jsstring.
Variable path_dirname : jsstring -> jsstring.
Variable fs_mkdir : jsstring -> result unit.
Variable fs_access : jsstring -> result unit.








End TransferFacts.


